(** * Reactive update engine of the [CustomElement] base class

    A shallow embedding of [src/custom-element.ts] (update scheduling, change
    detection, attribute/property reflection, notification, [watch]) together
    with the type guards and the default change detector of
    [decorators/property-declaration.ts] and the accessor installed by the
    [property] decorator; the lifecycle callbacks with the binding of
    listeners; [kebabCase] of [utils/string-utils] with [encodeAttribute],
    [createAttributeName] and [createEventName]; and, from the example
    components, the [FocusMonitor] and the stack of active overlays of
    [Overlay].

    The instance is a record; every method is a function in a small
    state-and-exception monad over that record.  Calls to user code (custom
    reflectors, notifiers, executors) are scripts of instance operations.  The
    asynchronous part of [_enqueueUpdate] is a set of explicit scheduler steps
    over the jobs the synchronous part has created. *)

From stdpp Require Import gmap strings list pretty.
From Stdlib Require Import ZArith Ascii.

Open Scope string_scope.

(** ** JavaScript values *)

(** [PropertyKey = string | number | symbol].  A key is what a [Map] holds:
    the number [1] and the string ['1'] are two keys, and a property is
    taken to be used under the key it is declared with. *)
Inductive PropertyKey :=
| KString (s : string)
| KNumber (z : Z)
| KSymbol (id : nat).

#[global] Instance PropertyKey_eq_dec : EqDecision PropertyKey.
Proof. solve_decision. Defined.

Definition PropertyKey_encode (k : PropertyKey) : string + (Z + nat) :=
  match k with
  | KString s => inl s
  | KNumber z => inr (inl z)
  | KSymbol i => inr (inr i)
  end.

Definition PropertyKey_decode (x : string + (Z + nat)) : PropertyKey :=
  match x with
  | inl s => KString s
  | inr (inl z) => KNumber z
  | inr (inr i) => KSymbol i
  end.

#[global] Instance PropertyKey_countable : Countable PropertyKey.
Proof. apply (inj_countable' PropertyKey_encode PropertyKey_decode). by intros []. Defined.

(** The values a property can hold.  Numbers are integers plus [NaN], which is
    what the default change detector distinguishes; an integer stands for
    the number of that value where numbers are exact and print as their
    decimal numeral.  Objects are references. *)
Inductive Value :=
| VUndefined
| VNull
| VBool (b : bool)
| VNumber (z : Z)
| VNaN
| VString (s : string)
| VSymbol (id : nat)
| VObject (ref : nat).

#[global] Instance Value_eq_dec : EqDecision Value.
Proof. solve_decision. Defined.

(** [a === b]. *)
Definition strict_eq (a b : Value) : bool :=
  match a, b with
  | VNaN, _ | _, VNaN => false
  | _, _ => bool_decide (a = b)
  end.

(** Truthiness of a property key, as tested by [if (propertyKey)] and
    [if (!propertyKey)]: the empty string and the number zero are falsy. *)
Definition key_truthy (k : PropertyKey) : bool :=
  match k with
  | KString s => negb (String.eqb s "")
  | KNumber z => negb (Z.eqb z 0)
  | KSymbol _ => true
  end.

(** An optional argument or a [Map.get] result: [undefined] is falsy. *)
Definition opt_key_truthy (k : option PropertyKey) : bool :=
  match k with
  | Some k => key_truthy k
  | None => false
  end.

Definition key_value (k : PropertyKey) : Value :=
  match k with
  | KString s => VString s
  | KNumber z => VNumber z
  | KSymbol i => VSymbol i
  end.

(** An attribute value [string | null] as a JavaScript value. *)
Definition attr_value (a : option string) : Value :=
  match a with
  | Some s => VString s
  | None => VNull
  end.

(** ** [Map] with insertion order

    [Map.prototype.set] overwrites the value of a present key in place and
    appends an absent one; [forEach] and [for ... of] visit the entries in
    that order. *)
Section JsMap.
Context {K V : Type} `{EqDecision K}.

Fixpoint map_get (m : list (K * V)) (k : K) : option V :=
    match m with
    | [] => None
    | (k', v) :: m' => if decide (k' = k) then Some v else map_get m' k
    end.

Definition map_has (m : list (K * V)) (k : K) : bool :=
    match map_get m k with
    | Some _ => true
    | None => false
    end.

Fixpoint map_set (m : list (K * V)) (k : K) (v : V) : list (K * V) :=
    match m with
    | [] => [(k, v)]
    | (k', v') :: m' =>
        if decide (k' = k) then (k', v) :: m' else (k', v') :: map_set m' k v
    end.
End JsMap.

Abbreviation JsMap K V := (list (K * V)).

(** ** User code

    A custom handler or executor is a function of the three arguments it is
    called with, yielding the instance operations it performs, in order. *)
Inductive Action :=
| ActSetProperty (k : PropertyKey) (v : Value)
| ActSetAttribute (n : string) (v : string)
| ActRemoveAttribute (n : string)
| ActRequestUpdate (k : option PropertyKey) (oldValue newValue : Value)
| ActThrow.

Definition Script := list Action.

Definition JsFunction := Value -> Value -> Value -> Script.

(** ** Property declarations ([decorators/property-declaration.ts]) *)

(** [string | null | undefined], the result of [toAttribute]. *)
Inductive AttributeValue :=
| AttrUndefined
| AttrNull
| AttrString (s : string).

(** A converter function that throws yields [None]. *)
Record AttributeConverter := {
  fromAttribute : option string -> option Value;
  toAttribute : Value -> option AttributeValue;
}.

(** [attribute: boolean | string]. *)
Inductive AttributeOption :=
| AttributeBool (b : bool)
| AttributeName (s : string).

(** [boolean | keyof Type | Function], the type of [reflectAttribute],
    [reflectProperty] and [notify].  A function carries the text that
    [String(f)] yields. *)
Inductive HandlerOption :=
| HandlerBool (b : bool)
| HandlerKey (k : PropertyKey)
| HandlerFunction (name : string) (f : JsFunction).

(** [observe: boolean | PropertyChangeDetector]; a detector that throws yields
    [None]. *)
Inductive ObserveOption :=
| ObserveBool (b : bool)
| ObserveFunction (name : string) (f : Value -> Value -> option bool).

Record PropertyDeclaration := {
  attribute : AttributeOption;
  converter : AttributeConverter;
  reflectAttribute_option : HandlerOption;
  reflectProperty_option : HandlerOption;
  notify : HandlerOption;
  observe : ObserveOption;
}.

Definition attribute_truthy (a : AttributeOption) : bool :=
  match a with
  | AttributeBool b => b
  | AttributeName s => negb (String.eqb s "")
  end.

(** [propertyDeclaration.attribute as string], handed to the DOM. *)
Definition attribute_string (a : AttributeOption) : string :=
  match a with
  | AttributeBool true => "true"
  | AttributeBool false => "false"
  | AttributeName s => s
  end.

Definition handler_truthy (h : HandlerOption) : bool :=
  match h with
  | HandlerBool b => b
  | HandlerKey k => key_truthy k
  | HandlerFunction _ _ => true
  end.

(** [isPropertyChangeDetector]: [typeof detector === 'function']. *)
Definition isPropertyChangeDetector (o : ObserveOption) : bool :=
  match o with
  | ObserveFunction _ _ => true
  | ObserveBool _ => false
  end.

(** [DEFAULT_PROPERTY_CHANGE_DETECTOR]. *)
Definition DEFAULT_PROPERTY_CHANGE_DETECTOR (oldValue newValue : Value) : option bool :=
  Some (negb (strict_eq oldValue newValue)
        && (strict_eq oldValue oldValue || strict_eq newValue newValue)).

(** What identifies a handler in an error message. *)
Inductive HandlerId :=
| IdFunction (name : string)
| IdKey (k : PropertyKey).

Inductive Error :=
| ATTRIBUTE_REFLECTOR_ERROR (h : HandlerId)
| PROPERTY_REFLECTOR_ERROR (h : HandlerId)
| PROPERTY_NOTIFIER_ERROR (h : HandlerId)
| CHANGE_DETECTOR_ERROR (h : HandlerId)
| TypeError
| RangeError
| ConverterError
| ScriptError.

(** ** The class: static registries and prototype methods *)
Record CustomElementClass := {
  attributes : gmap string PropertyKey;
  properties : gmap PropertyKey PropertyDeclaration;
  observedAttributes : list string;
  methods : gmap PropertyKey JsFunction;
  hasTemplate : bool;
}.

(** ** What the instance does to its environment *)
Inductive Effect :=
| FxTemplate
| FxRender
| FxSetAttribute (n : string) (v : string)
| FxRemoveAttribute (n : string)
| FxConsoleLog (attributeName : string)
| FxCall (h : HandlerId) (a b c : Value)
| FxReflectProperty (k : PropertyKey) (oldValue newValue : Value)
| FxNotifyProperty (k : PropertyKey) (oldValue newValue : Value)
| FxPropertyChanged (property : PropertyKey) (previous current : Value)
| FxUpdateCallback (changedProperties : JsMap PropertyKey Value) (firstUpdate : bool)
| FxLifecycle (lifecycle : string) (firstUpdate : option bool)
| FxReportError (e : Error).

(** ** The instance *)

(** Where an invocation of [_enqueueUpdate] stands: before the continuation
    of [await previousRequest], before the animation frame, before the
    continuation of [await result], after a frame callback that threw, and
    after [resolve]. *)
Inductive Phase :=
| AwaitingPrevious
| AwaitingFrame
| AwaitingResult
| Aborted
| Resolved.

#[global] Instance Phase_eq_dec : EqDecision Phase.
Proof. solve_decision. Defined.

Record Job := {
  previousRequest : nat;
  ownRequest : nat;
  phase : Phase;
}.

(** The instance.  [storage] holds the values behind the property accessors
    and the plain fields, [dom] the element's attributes.  Promises are
    numbered: [settled] maps the settled ones to their values and
    [allocated] is the next number; [jobs] are the invocations of
    [_enqueueUpdate], each with the promise it awaits first and the promise
    it resolves last.  [passes] records, in order, the promises whose pass
    has completed, and [effects] what the instance has done to its
    environment and which of its own steps it has called. *)
Record Instance := {
  storage : gmap PropertyKey Value;
  dom : gmap string string;
  _updateRequest : nat;
  _changedProperties : JsMap PropertyKey Value;
  _reflectingProperties : JsMap PropertyKey Value;
  _notifyingProperties : JsMap PropertyKey Value;
  _isReflecting : bool;
  _hasUpdated : bool;
  _hasRequestedUpdate : bool;
  settled : gmap nat bool;
  allocated : nat;
  jobs : list Job;
  passes : list nat;
  effects : list Effect;
}.

(** A constructed instance: [_updateRequest = Promise.resolve(true)] is
    promise [0]. *)
Definition constructed : Instance := {|
  storage := ∅;
  dom := ∅;
  _updateRequest := 0;
  _changedProperties := [];
  _reflectingProperties := [];
  _notifyingProperties := [];
  _isReflecting := false;
  _hasUpdated := false;
  _hasRequestedUpdate := false;
  settled := {[ 0 := true ]};
  allocated := 1;
  jobs := [];
  passes := [];
  effects := [];
|}.

Definition set_storage (f : gmap PropertyKey Value) (i : Instance) : Instance :=
  {| storage := f; dom := dom i; _updateRequest := _updateRequest i;
     _changedProperties := _changedProperties i;
     _reflectingProperties := _reflectingProperties i;
     _notifyingProperties := _notifyingProperties i;
     _isReflecting := _isReflecting i; _hasUpdated := _hasUpdated i;
     _hasRequestedUpdate := _hasRequestedUpdate i; settled := settled i;
     allocated := allocated i; jobs := jobs i; passes := passes i;
     effects := effects i |}.

Definition set_dom (d : gmap string string) (i : Instance) : Instance :=
  {| storage := storage i; dom := d; _updateRequest := _updateRequest i;
     _changedProperties := _changedProperties i;
     _reflectingProperties := _reflectingProperties i;
     _notifyingProperties := _notifyingProperties i;
     _isReflecting := _isReflecting i; _hasUpdated := _hasUpdated i;
     _hasRequestedUpdate := _hasRequestedUpdate i; settled := settled i;
     allocated := allocated i; jobs := jobs i; passes := passes i;
     effects := effects i |}.

Definition set_changedProperties (m : JsMap PropertyKey Value) (i : Instance) : Instance :=
  {| storage := storage i; dom := dom i; _updateRequest := _updateRequest i;
     _changedProperties := m;
     _reflectingProperties := _reflectingProperties i;
     _notifyingProperties := _notifyingProperties i;
     _isReflecting := _isReflecting i; _hasUpdated := _hasUpdated i;
     _hasRequestedUpdate := _hasRequestedUpdate i; settled := settled i;
     allocated := allocated i; jobs := jobs i; passes := passes i;
     effects := effects i |}.

Definition set_reflectingProperties (m : JsMap PropertyKey Value) (i : Instance) : Instance :=
  {| storage := storage i; dom := dom i; _updateRequest := _updateRequest i;
     _changedProperties := _changedProperties i;
     _reflectingProperties := m;
     _notifyingProperties := _notifyingProperties i;
     _isReflecting := _isReflecting i; _hasUpdated := _hasUpdated i;
     _hasRequestedUpdate := _hasRequestedUpdate i; settled := settled i;
     allocated := allocated i; jobs := jobs i; passes := passes i;
     effects := effects i |}.

Definition set_notifyingProperties (m : JsMap PropertyKey Value) (i : Instance) : Instance :=
  {| storage := storage i; dom := dom i; _updateRequest := _updateRequest i;
     _changedProperties := _changedProperties i;
     _reflectingProperties := _reflectingProperties i;
     _notifyingProperties := m;
     _isReflecting := _isReflecting i; _hasUpdated := _hasUpdated i;
     _hasRequestedUpdate := _hasRequestedUpdate i; settled := settled i;
     allocated := allocated i; jobs := jobs i; passes := passes i;
     effects := effects i |}.

Definition set_isReflecting (b : bool) (i : Instance) : Instance :=
  {| storage := storage i; dom := dom i; _updateRequest := _updateRequest i;
     _changedProperties := _changedProperties i;
     _reflectingProperties := _reflectingProperties i;
     _notifyingProperties := _notifyingProperties i;
     _isReflecting := b; _hasUpdated := _hasUpdated i;
     _hasRequestedUpdate := _hasRequestedUpdate i; settled := settled i;
     allocated := allocated i; jobs := jobs i; passes := passes i;
     effects := effects i |}.

Definition set_hasUpdated (b : bool) (i : Instance) : Instance :=
  {| storage := storage i; dom := dom i; _updateRequest := _updateRequest i;
     _changedProperties := _changedProperties i;
     _reflectingProperties := _reflectingProperties i;
     _notifyingProperties := _notifyingProperties i;
     _isReflecting := _isReflecting i; _hasUpdated := b;
     _hasRequestedUpdate := _hasRequestedUpdate i; settled := settled i;
     allocated := allocated i; jobs := jobs i; passes := passes i;
     effects := effects i |}.

Definition set_hasRequestedUpdate (b : bool) (i : Instance) : Instance :=
  {| storage := storage i; dom := dom i; _updateRequest := _updateRequest i;
     _changedProperties := _changedProperties i;
     _reflectingProperties := _reflectingProperties i;
     _notifyingProperties := _notifyingProperties i;
     _isReflecting := _isReflecting i; _hasUpdated := _hasUpdated i;
     _hasRequestedUpdate := b; settled := settled i;
     allocated := allocated i; jobs := jobs i; passes := passes i;
     effects := effects i |}.

Definition set_settled (s : gmap nat bool) (i : Instance) : Instance :=
  {| storage := storage i; dom := dom i; _updateRequest := _updateRequest i;
     _changedProperties := _changedProperties i;
     _reflectingProperties := _reflectingProperties i;
     _notifyingProperties := _notifyingProperties i;
     _isReflecting := _isReflecting i; _hasUpdated := _hasUpdated i;
     _hasRequestedUpdate := _hasRequestedUpdate i; settled := s;
     allocated := allocated i; jobs := jobs i; passes := passes i;
     effects := effects i |}.

Definition set_jobs (j : list Job) (i : Instance) : Instance :=
  {| storage := storage i; dom := dom i; _updateRequest := _updateRequest i;
     _changedProperties := _changedProperties i;
     _reflectingProperties := _reflectingProperties i;
     _notifyingProperties := _notifyingProperties i;
     _isReflecting := _isReflecting i; _hasUpdated := _hasUpdated i;
     _hasRequestedUpdate := _hasRequestedUpdate i; settled := settled i;
     allocated := allocated i; jobs := j; passes := passes i;
     effects := effects i |}.

Definition set_passes (p : list nat) (i : Instance) : Instance :=
  {| storage := storage i; dom := dom i; _updateRequest := _updateRequest i;
     _changedProperties := _changedProperties i;
     _reflectingProperties := _reflectingProperties i;
     _notifyingProperties := _notifyingProperties i;
     _isReflecting := _isReflecting i; _hasUpdated := _hasUpdated i;
     _hasRequestedUpdate := _hasRequestedUpdate i; settled := settled i;
     allocated := allocated i; jobs := jobs i; passes := p;
     effects := effects i |}.

Definition set_effects (e : list Effect) (i : Instance) : Instance :=
  {| storage := storage i; dom := dom i; _updateRequest := _updateRequest i;
     _changedProperties := _changedProperties i;
     _reflectingProperties := _reflectingProperties i;
     _notifyingProperties := _notifyingProperties i;
     _isReflecting := _isReflecting i; _hasUpdated := _hasUpdated i;
     _hasRequestedUpdate := _hasRequestedUpdate i; settled := settled i;
     allocated := allocated i; jobs := jobs i; passes := passes i;
     effects := e |}.

(** A new pending promise becomes the instance's [_updateRequest]. *)
Definition new_updateRequest (i : Instance) : Instance :=
  {| storage := storage i; dom := dom i; _updateRequest := allocated i;
     _changedProperties := _changedProperties i;
     _reflectingProperties := _reflectingProperties i;
     _notifyingProperties := _notifyingProperties i;
     _isReflecting := _isReflecting i; _hasUpdated := _hasUpdated i;
     _hasRequestedUpdate := _hasRequestedUpdate i; settled := settled i;
     allocated := S (allocated i); jobs := jobs i; passes := passes i;
     effects := effects i |}.

(** ** Computations on the instance: state and exceptions

    A thrown exception keeps the state the instance had when it was thrown. *)
Inductive Completion (A : Type) :=
| Normal (a : A) (i : Instance)
| Abrupt (e : Error) (i : Instance).
Arguments Normal {A} a i.
Arguments Abrupt {A} e i.

Definition M (A : Type) := Instance -> Completion A.

Definition ret {A} (a : A) : M A := fun i => Normal a i.

Definition bind {A B} (c : M A) (f : A -> M B) : M B :=
  fun i => match c i with
           | Normal a i' => f a i'
           | Abrupt e i' => Abrupt e i'
           end.

Definition throw {A} (e : Error) : M A := fun i => Abrupt e i.

Definition gets {A} (f : Instance -> A) : M A := fun i => Normal (f i) i.

Definition modify (f : Instance -> Instance) : M unit := fun i => Normal tt (f i).

(** [try { c } catch (error) { throw e }]. *)
Definition rethrow_as {A} (e : Error) (c : M A) : M A :=
  fun i => match c i with
           | Normal a i' => Normal a i'
           | Abrupt _ i' => Abrupt e i'
           end.

(** The instance a computation leaves behind, however it completes. *)
Definition final {A} (c : Completion A) : Instance :=
  match c with
  | Normal _ i => i
  | Abrupt _ i => i
  end.

Declare Scope js_scope.
Delimit Scope js_scope with js.
Notation "x <- c ;; k" := (bind c (fun x => k))
  (at level 100, c at next level, right associativity) : js_scope.
Notation "c ;; k" := (bind c (fun _ => k))
  (at level 100, right associativity) : js_scope.
Open Scope js_scope.

Definition when (b : bool) (c : M unit) : M unit := if b then c else ret tt.

Definition emit (e : Effect) : M unit :=
  modify (fun i => set_effects (effects i ++ [e]) i).

(** ** The engine *)
Section Engine.
Variable cls : CustomElementClass.

(** [_getPropertyDeclaration]. *)
Definition _getPropertyDeclaration (propertyKey : PropertyKey) : option PropertyDeclaration :=
  properties cls !! propertyKey.

(** [hasChanged]. *)
Definition hasChanged (propertyKey : PropertyKey) (oldValue newValue : Value) : M bool :=
  match _getPropertyDeclaration propertyKey with
  | Some propertyDeclaration =>
      match observe propertyDeclaration with
      | ObserveFunction name detector =>
          match detector oldValue newValue with
          | Some changed => ret changed
          | None => throw (CHANGE_DETECTOR_ERROR (IdFunction name))
          end
      | ObserveBool _ => ret false
      end
  | None => ret false
  end.

(** [_enqueueUpdate], up to its first [await]: the rest runs as scheduler
    steps on the job recorded here. *)
Definition _enqueueUpdate : M unit :=
  previous <- gets _updateRequest;;
  modify (set_hasRequestedUpdate true);;
  modify new_updateRequest;;
  own <- gets _updateRequest;;
  modify (fun i => set_jobs (jobs i ++ [{| previousRequest := previous;
                                           ownRequest := own;
                                           phase := AwaitingPrevious |}]) i).

(** [requestUpdate]; the promise it returns is named by its number. *)
Definition requestUpdate (propertyKey : option PropertyKey) (oldValue newValue : Value) : M nat :=
  let enqueue : M nat :=
    requested <- gets _hasRequestedUpdate;;
    when (negb requested) _enqueueUpdate;;
    gets _updateRequest in
  match propertyKey with
  | Some key =>
      if key_truthy key then
        changed <- hasChanged key oldValue newValue;;
        if negb changed then gets _updateRequest
        else
          modify (fun i => set_changedProperties (map_set (_changedProperties i) key oldValue) i);;
          reflecting <- gets _isReflecting;;
          when (negb reflecting)
            (modify (fun i => set_reflectingProperties
                                (map_set (_reflectingProperties i) key oldValue) i));;
          enqueue
      else enqueue
  | None => enqueue
  end.

(** [this[propertyKey]] read through the accessor of a declared property. *)
Definition get_property (propertyKey : PropertyKey) (i : Instance) : Value :=
  default VUndefined (storage i !! propertyKey).

(** [this[propertyKey] = value].  A declared property has the accessor of
    the [property] decorator, whose setter reads the old value, stores the
    new one and requests an update; any other key is a plain field. *)
Definition set_property (propertyKey : PropertyKey) (value : Value) : M unit :=
  match _getPropertyDeclaration propertyKey with
  | Some _ =>
      oldValue <- gets (get_property propertyKey);;
      modify (fun i => set_storage (<[propertyKey := value]> (storage i)) i);;
      _ <- requestUpdate (Some propertyKey) oldValue value;;
      ret tt
  | None =>
      modify (fun i => set_storage (<[propertyKey := value]> (storage i)) i)
  end.

(** *** The host calling back

    The host invokes [attributeChangedCallback] synchronously from
    [setAttribute] and [removeAttribute] on an observed attribute, as a
    reaction: an exception the callback throws is reported to the global
    error handler and the DOM call returns.  The callback the host re-enters
    is a parameter here and is tied below. *)
Section Host.
Variable callback : string -> option string -> option string -> M unit.

(** The host running a callback as a reaction. *)
Definition reaction (c : M unit) : M unit :=
  fun i => match c i with
           | Normal _ i' => Normal tt i'
           | Abrupt e i' => Normal tt (set_effects (effects i' ++ [FxReportError e]) i')
           end.

Definition setAttribute (name value : string) : M unit :=
  oldValue <- gets (fun i => dom i !! name);;
  modify (fun i => set_dom (<[name := value]> (dom i)) i);;
  emit (FxSetAttribute name value);;
  when (bool_decide (name ∈ observedAttributes cls))
    (reaction (callback name oldValue (Some value))).

Definition removeAttribute (name : string) : M unit :=
  oldValue <- gets (fun i => dom i !! name);;
  emit (FxRemoveAttribute name);;
  match oldValue with
  | Some _ =>
      modify (fun i => set_dom (delete name (dom i)) i);;
      when (bool_decide (name ∈ observedAttributes cls))
        (reaction (callback name oldValue None))
  | None => ret tt
  end.

Definition run_action (a : Action) : M unit :=
  match a with
  | ActSetProperty k v => set_property k v
  | ActSetAttribute n v => setAttribute n v
  | ActRemoveAttribute n => removeAttribute n
  | ActRequestUpdate k oldValue newValue =>
      _ <- requestUpdate k oldValue newValue;; ret tt
  | ActThrow => throw ScriptError
  end.

Fixpoint run_script (s : Script) : M unit :=
  match s with
  | [] => ret tt
  | a :: s' => run_action a;; run_script s'
  end.

(** [this[key](a, b, c)]: calling what is not a method throws, and nothing
    is called; the call of a method is recorded in the trace. *)
Definition call_method (key : PropertyKey) (a b c : Value) : M unit :=
  match methods cls !! key with
  | Some f => emit (FxCall (IdKey key) a b c);; run_script (f a b c)
  | None => throw TypeError
  end.

(** [_reflectAttribute], the default attribute reflector. *)
Definition _reflectAttribute (attributeName : string) (oldValue newValue : option string) : M unit :=
  match attributes cls !! attributeName with
  | Some propertyKey =>
      match _getPropertyDeclaration propertyKey with
      | Some propertyDeclaration =>
          match fromAttribute (converter propertyDeclaration) newValue with
          | Some propertyValue => set_property propertyKey propertyValue
          | None => throw ConverterError
          end
      | None => throw TypeError
      end
  | None => throw TypeError
  end.

(** [reflectAttribute]. *)
Definition reflectAttribute (attributeName : string) (oldValue newValue : option string) : M unit :=
  let propertyKey := attributes cls !! attributeName in
  if negb (opt_key_truthy propertyKey) then emit (FxConsoleLog attributeName)
  else
    match propertyKey ≫= _getPropertyDeclaration with
    | None => throw TypeError
    | Some propertyDeclaration =>
        when (handler_truthy (reflectAttribute_option propertyDeclaration))
          (modify (set_isReflecting true);;
           match reflectAttribute_option propertyDeclaration with
           | HandlerFunction name f =>
               rethrow_as (ATTRIBUTE_REFLECTOR_ERROR (IdFunction name))
                 (emit (FxCall (IdFunction name) (VString attributeName)
                               (attr_value oldValue) (attr_value newValue));;
                  run_script (f (VString attributeName) (attr_value oldValue) (attr_value newValue)))
           | HandlerKey key =>
               rethrow_as (ATTRIBUTE_REFLECTOR_ERROR (IdKey key))
                 (call_method key (VString attributeName) (attr_value oldValue)
                    (attr_value newValue))
           | HandlerBool _ =>
               _reflectAttribute attributeName oldValue newValue
           end;;
           modify (set_isReflecting false))
    end.

(** The body of [attributeChangedCallback]. *)
Definition attributeChangedCallback_body (attributeName : string) (oldValue newValue : option string) : M unit :=
  reflecting <- gets _isReflecting;;
  if reflecting then ret tt
  else when (negb (bool_decide (oldValue = newValue)))
         (reflectAttribute attributeName oldValue newValue).
End Host.
End Engine.

(** [attributeChangedCallback], with the number of nested host re-entries
    bounded by [depth]; past the bound the call stack overflows.
    [attributeChangedCallbackN_stable] below shows that two levels are never
    exceeded, so the bound is not observable. *)
Fixpoint attributeChangedCallbackN (cls : CustomElementClass) (depth : nat)
    (attributeName : string) (oldValue newValue : option string) : M unit :=
  match depth with
  | 0 => throw RangeError
  | S depth' =>
      attributeChangedCallback_body cls (attributeChangedCallbackN cls depth')
        attributeName oldValue newValue
  end.

Definition attributeChangedCallback (cls : CustomElementClass) :=
  attributeChangedCallbackN cls 2.

Section Update.
Variable cls : CustomElementClass.

Local Abbreviation setAttribute' := (setAttribute cls (attributeChangedCallback cls)).
Local Abbreviation removeAttribute' := (removeAttribute cls (attributeChangedCallback cls)).
Local Abbreviation run_script' := (run_script cls (attributeChangedCallback cls)).
Local Abbreviation call_method' := (call_method cls (attributeChangedCallback cls)).

(** [_reflectProperty], the default property reflector. *)
Definition _reflectProperty (propertyKey : PropertyKey) (oldValue newValue : Value) : M unit :=
  match _getPropertyDeclaration cls propertyKey with
  | None => throw TypeError
  | Some propertyDeclaration =>
      if negb (attribute_truthy (attribute propertyDeclaration)) then ret tt
      else
        let attributeName := attribute_string (attribute propertyDeclaration) in
        match toAttribute (converter propertyDeclaration) newValue with
        | None => throw ConverterError
        | Some AttrUndefined => ret tt
        | Some AttrNull => removeAttribute' attributeName
        | Some (AttrString attributeValue) => setAttribute' attributeName attributeValue
        end
  end.

(** [reflectProperty]. *)
Definition reflectProperty (propertyKey : PropertyKey) (oldValue newValue : Value) : M unit :=
  emit (FxReflectProperty propertyKey oldValue newValue);;
  match _getPropertyDeclaration cls propertyKey with
  | None => ret tt
  | Some propertyDeclaration =>
      when (handler_truthy (reflectProperty_option propertyDeclaration))
        (modify (set_isReflecting true);;
         match reflectProperty_option propertyDeclaration with
         | HandlerFunction name f =>
             rethrow_as (PROPERTY_REFLECTOR_ERROR (IdFunction name))
               (emit (FxCall (IdFunction name) (key_value propertyKey) oldValue newValue);;
                run_script' (f (key_value propertyKey) oldValue newValue))
         | HandlerKey key =>
             rethrow_as (PROPERTY_REFLECTOR_ERROR (IdKey key))
               (call_method' key (key_value propertyKey) oldValue newValue)
         | HandlerBool _ =>
             _reflectProperty propertyKey oldValue newValue
         end;;
         modify (set_isReflecting false))
  end.

(** [_notifyProperty]: dispatches the [<property>-changed] event. *)
Definition _notifyProperty (propertyKey : PropertyKey) (oldValue newValue : Value) : M unit :=
  emit (FxPropertyChanged propertyKey oldValue newValue).

(** [notifyProperty]. *)
Definition notifyProperty (propertyKey : PropertyKey) (oldValue newValue : Value) : M unit :=
  emit (FxNotifyProperty propertyKey oldValue newValue);;
  match _getPropertyDeclaration cls propertyKey with
  | None => ret tt
  | Some propertyDeclaration =>
      when (handler_truthy (notify propertyDeclaration))
        match notify propertyDeclaration with
        | HandlerFunction name f =>
            rethrow_as (PROPERTY_NOTIFIER_ERROR (IdFunction name))
              (emit (FxCall (IdFunction name) (key_value propertyKey) oldValue newValue);;
               run_script' (f (key_value propertyKey) oldValue newValue))
        | HandlerKey key =>
            rethrow_as (PROPERTY_NOTIFIER_ERROR (IdKey key))
              (call_method' key (key_value propertyKey) oldValue newValue)
        | HandlerBool _ =>
            _notifyProperty propertyKey oldValue newValue
        end
  end.

(** [_notifyLifecycle]. *)
Definition _notifyLifecycle (lifecycle : string) (detail : option bool) : M unit :=
  emit (FxLifecycle lifecycle detail).

(** [updateCallback]. *)
Definition updateCallback (changedProperties : JsMap PropertyKey Value) (firstUpdate : bool) : M unit :=
  emit (FxUpdateCallback changedProperties firstUpdate);;
  _notifyLifecycle "update" (Some firstUpdate).

(** [render]: asks for the template and renders it when there is one. *)
Definition render : M unit :=
  emit FxTemplate;;
  when (hasTemplate cls) (emit FxRender).

(** [Map.prototype.forEach] for a callback that reads the property's
    current value.  The entries are those of the map when the loop starts:
    no callback below writes the map it is called from
    ([reflectProperty_keeps_reflectingProperties],
    [notifyProperty_keeps_notifyingProperties]). *)
Fixpoint forEach (entries : JsMap PropertyKey Value)
    (callback : PropertyKey -> Value -> Value -> M unit) : M unit :=
  match entries with
  | [] => ret tt
  | (propertyKey, oldValue) :: entries' =>
      newValue <- gets (get_property propertyKey);;
      callback propertyKey oldValue newValue;;
      forEach entries' callback
  end.

(** [update]. *)
Definition update : M unit :=
  render;;
  reflecting <- gets _reflectingProperties;;
  forEach reflecting reflectProperty;;
  notifying <- gets _notifyingProperties;;
  forEach notifying notifyProperty;;
  changed <- gets _changedProperties;;
  updated <- gets _hasUpdated;;
  updateCallback changed (negb updated);;
  modify (set_hasUpdated true).

(** The loop of [watch] over the entries of [_changedProperties]. *)
Fixpoint watch_loop (previousChanges entries : JsMap PropertyKey Value) : M unit :=
  match entries with
  | [] => ret tt
  | (propertyKey, oldValue) :: entries' =>
      marked <- (match map_get previousChanges propertyKey with
                 | None => ret true
                 | Some previous => hasChanged cls propertyKey previous oldValue
                 end);;
      when marked
        (modify (fun i => set_notifyingProperties
                            (map_set (_notifyingProperties i) propertyKey oldValue) i));;
      watch_loop previousChanges entries'
  end.

(** [watch]. *)
Definition watch (executor : Script) : M unit :=
  previousChanges <- gets _changedProperties;;
  run_script' executor;;
  changed <- gets _changedProperties;;
  watch_loop previousChanges changed.

(** *** The asynchronous half of [_enqueueUpdate] *)

Definition find_job (request : nat) (i : Instance) : option Job :=
  List.find (fun j => bool_decide (ownRequest j = request)) (jobs i).

Definition set_phase (request : nat) (ph : Phase) (i : Instance) : Instance :=
  set_jobs (map (fun j => if bool_decide (ownRequest j = request)
                          then {| previousRequest := previousRequest j;
                                  ownRequest := ownRequest j;
                                  phase := ph |}
                          else j) (jobs i)) i.

(** The callback [_scheduleUpdate] hands to [requestAnimationFrame], up to
    its [resolve()]. *)
Definition _scheduleUpdate_callback : M unit :=
  update;;
  modify (set_changedProperties []);;
  modify (set_reflectingProperties []);;
  modify (set_notifyingProperties []);;
  modify (set_hasRequestedUpdate false).

(** The continuation of [await previousRequest] runs once that promise is
    settled, and calls [_scheduleUpdate]. *)
Definition resume_previous (request : nat) (i : Instance) : Instance :=
  match find_job request i with
  | Some j =>
      match phase j, settled i !! previousRequest j with
      | AwaitingPrevious, Some _ => set_phase request AwaitingFrame i
      | _, _ => i
      end
  | None => i
  end.

(** The animation frame runs the callback; one that throws never resolves
    the promise of [_scheduleUpdate]. *)
Definition animation_frame (request : nat) (i : Instance) : Instance :=
  match find_job request i with
  | Some j =>
      match phase j with
      | AwaitingFrame =>
          match _scheduleUpdate_callback i with
          | Normal _ i' =>
              set_phase request AwaitingResult (set_passes (passes i' ++ [request]) i')
          | Abrupt _ i' => set_phase request Aborted i'
          end
      | _ => i
      end
  | None => i
  end.

(** The continuation of [await result]:
    [resolve(!this._hasRequestedUpdate)]. *)
Definition resume_result (request : nat) (i : Instance) : Instance :=
  match find_job request i with
  | Some j =>
      match phase j with
      | AwaitingResult =>
          set_phase request Resolved
            (set_settled (<[request := negb (_hasRequestedUpdate i)]> (settled i)) i)
      | _ => i
      end
  | None => i
  end.

(** What can happen to an instance: a synchronous turn of code using it,
    a [watch] call, and the three asynchronous continuations. *)
Inductive Stimulus :=
| Turn (s : Script)
| Watch (executor : Script)
| ResumePrevious (request : nat)
| AnimationFrame (request : nat)
| ResumeResult (request : nat).

Definition react (s : Stimulus) (i : Instance) : Instance :=
  match s with
  | Turn s => final (run_script' s i)
  | Watch executor => final (watch executor i)
  | ResumePrevious request => resume_previous request i
  | AnimationFrame request => animation_frame request i
  | ResumeResult request => resume_result request i
  end.

Definition run (l : list Stimulus) (i : Instance) : Instance :=
  fold_left (fun i s => react s i) l i.
End Update.

(** ** Declarations and classes of the examples *)

(** Truthiness of a value, as in [value ? 'true' : null]. *)
Definition value_truthy (v : Value) : bool :=
  match v with
  | VUndefined | VNull | VNaN | VBool false => false
  | VNumber z => negb (Z.eqb z 0)
  | VString s => negb (String.eqb s "")
  | _ => true
  end.

(** The default converter: [toAttribute: value => value.toString()],
    [fromAttribute: value => value]. *)
Definition AttributeConverterDefault : AttributeConverter := {|
  fromAttribute := fun a => Some (attr_value a);
  toAttribute := fun v =>
    match v with
    | VUndefined | VNull => None
    | VBool b => Some (AttrString (if b then "true" else "false"))
    | VNumber z => Some (AttrString (pretty z))
    | VNaN => Some (AttrString "NaN")
    | VString s => Some (AttrString s)
    | VSymbol _ => Some (AttrString "Symbol()")
    | VObject _ => Some (AttrString "[object Object]")
    end;
|}.

(** The converter of the demo's checkbox:
    [toAttribute: value => value ? 'true' : null],
    [fromAttribute: value => value !== null]. *)
Definition AttributeConverterBoolean : AttributeConverter := {|
  fromAttribute := fun a => Some (VBool (bool_decide (a <> None)));
  toAttribute := fun v => Some (if value_truthy v then AttrString "true" else AttrNull);
|}.

(** [DEFAULT_PROPERTY_DECLARATION]. *)
Definition DEFAULT_PROPERTY_DECLARATION : PropertyDeclaration := {|
  attribute := AttributeBool true;
  converter := AttributeConverterDefault;
  reflectAttribute_option := HandlerBool true;
  reflectProperty_option := HandlerBool true;
  notify := HandlerBool true;
  observe := ObserveFunction "DEFAULT_PROPERTY_CHANGE_DETECTOR" DEFAULT_PROPERTY_CHANGE_DETECTOR;
|}.

(** The default declaration with its attribute name and converter set. *)
Definition declaration (attributeName : string) (c : AttributeConverter) : PropertyDeclaration := {|
  attribute := AttributeName attributeName;
  converter := c;
  reflectAttribute_option := reflectAttribute_option DEFAULT_PROPERTY_DECLARATION;
  reflectProperty_option := reflectProperty_option DEFAULT_PROPERTY_DECLARATION;
  notify := notify DEFAULT_PROPERTY_DECLARATION;
  observe := observe DEFAULT_PROPERTY_DECLARATION;
|}.

(** An element with a number property [count]. *)
Definition Counter : CustomElementClass := {|
  attributes := {[ "count" := KString "count" ]};
  properties := {[ KString "count" := declaration "count" AttributeConverterDefault ]};
  observedAttributes := ["count"];
  methods := ∅;
  hasTemplate := true;
|}.

(** An element with a boolean property [checked]. *)
Definition Checkbox : CustomElementClass := {|
  attributes := {[ "checked" := KString "checked" ]};
  properties := {[ KString "checked" := declaration "checked" AttributeConverterBoolean ]};
  observedAttributes := ["checked"];
  methods := ∅;
  hasTemplate := true;
|}.

(** An element whose declared property is named by the empty string. *)
Definition Blank : CustomElementClass := {|
  attributes := {[ "blank" := KString "" ]};
  properties := {[ KString "" := declaration "blank" AttributeConverterDefault ]};
  observedAttributes := ["blank"];
  methods := ∅;
  hasTemplate := false;
|}.

(** An element whose property [p] has a custom attribute reflector that
    throws, next to a property [q] with the default declaration. *)
Definition Fragile : CustomElementClass := {|
  attributes := {[ "p" := KString "p"; "q" := KString "q" ]};
  properties :=
    {[ KString "p" :=
         {| attribute := AttributeName "p";
            converter := AttributeConverterDefault;
            reflectAttribute_option := HandlerFunction "boom" (fun _ _ _ => [ActThrow]);
            reflectProperty_option := HandlerBool true;
            notify := HandlerBool true;
            observe := observe DEFAULT_PROPERTY_DECLARATION |};
       KString "q" := declaration "q" AttributeConverterDefault ]};
  observedAttributes := ["p"; "q"];
  methods := ∅;
  hasTemplate := false;
|}.

(** An element whose property [a] has a custom notifier that writes the new
    value to the property [b]. *)
Definition Echo : CustomElementClass := {|
  attributes := {[ "a" := KString "a"; "b" := KString "b" ]};
  properties :=
    {[ KString "a" :=
         {| attribute := AttributeName "a";
            converter := AttributeConverterDefault;
            reflectAttribute_option := HandlerBool true;
            reflectProperty_option := HandlerBool true;
            notify := HandlerFunction "mirror" (fun _ _ v => [ActSetProperty (KString "b") v]);
            observe := observe DEFAULT_PROPERTY_DECLARATION |};
       KString "b" := declaration "b" AttributeConverterDefault ]};
  observedAttributes := ["a"; "b"];
  methods := ∅;
  hasTemplate := false;
|}.

(** ** The schedule *)

(** A job whose pass has not completed. *)
Definition unfinished (j : Job) : bool :=
  match phase j with
  | AwaitingPrevious | AwaitingFrame | Aborted => true
  | AwaitingResult | Resolved => false
  end.

(** A job whose pass is still to run. *)
Definition scheduled (j : Job) : bool :=
  match phase j with
  | AwaitingPrevious | AwaitingFrame => true
  | _ => false
  end.

(** The number of update passes pending on an instance. *)
Definition pending_passes (i : Instance) : nat :=
  length (List.filter scheduled (jobs i)).

(** The stimuli that carry the job of promise [request] through its pass. *)
Definition pass (request : nat) : list Stimulus :=
  [ResumePrevious request; AnimationFrame request; ResumeResult request].

(** The state the frame callback leaves after a pass [u] that completed. *)
Definition cleaned (u : Instance) : Instance :=
  set_hasRequestedUpdate false
    (set_notifyingProperties [] (set_reflectingProperties [] (set_changedProperties [] u))).

Definition with_phase (ph : Phase) (j : Job) : Job :=
  {| previousRequest := previousRequest j; ownRequest := ownRequest j; phase := ph |}.

(** What holds of the schedule of every instance: promises are numbered
    from one in the order of their creation, one job each; the jobs whose
    pass has not completed are those of the current [_updateRequest], and
    there is one exactly when [_hasRequestedUpdate] is set; a promise is
    settled only once its job's pass is among the completed ones. *)
Record scheduler_invariant (i : Instance) : Prop := {
  inv_positive : 0 < allocated i;
  inv_ids : forall j, j ∈ jobs i -> 0 < ownRequest j < allocated i;
  inv_nodup : NoDup (ownRequest <$> jobs i);
  inv_unfinished : forall j, j ∈ jobs i -> unfinished j = true ->
    ownRequest j = _updateRequest i /\ _hasRequestedUpdate i = true;
  inv_current : _hasRequestedUpdate i = true ->
    exists j, j ∈ jobs i /\ ownRequest j = _updateRequest i /\ unfinished j = true;
  inv_pending : forall j, j ∈ jobs i -> phase j <> Resolved ->
    settled i !! ownRequest j = None;
  inv_passes : forall j, j ∈ jobs i ->
    (ownRequest j ∈ passes i <-> phase j = AwaitingResult \/ phase j = Resolved);
  inv_passes_ids : forall p, p ∈ passes i -> p < allocated i;
  inv_settled : forall p b, settled i !! p = Some b -> p = 0 \/ p ∈ passes i;
}.

(** ** The calls of a pass *)

(** The calls of the pass's own steps. *)
Inductive Call :=
| CallRender
| CallReflectProperty (k : PropertyKey) (oldValue : Value)
| CallNotifyProperty (k : PropertyKey) (oldValue : Value)
| CallUpdateCallback (changedProperties : JsMap PropertyKey Value) (firstUpdate : bool).

Definition call_of (e : Effect) : option Call :=
  match e with
  | FxTemplate => Some CallRender
  | FxReflectProperty k o _ => Some (CallReflectProperty k o)
  | FxNotifyProperty k o _ => Some (CallNotifyProperty k o)
  | FxUpdateCallback c f => Some (CallUpdateCallback c f)
  | _ => None
  end.

(** The calls recorded in a trace, in order. *)
Definition calls (es : list Effect) : list Call := omap call_of es.

(** Effects that are not calls of the update pass's own steps. *)
Definition quiet_effect (e : Effect) : bool :=
  match e with
  | FxTemplate | FxReflectProperty _ _ _ | FxNotifyProperty _ _ _
  | FxUpdateCallback _ _ => false
  | _ => true
  end.

(** ** Relations between the instance before and after a computation *)

(** [keeps R c]: whatever [c] does, and however it completes, the instance it
    leaves is related by [R] to the one it started from. *)
Definition keeps {A} (R : relation Instance) (c : M A) : Prop :=
  forall i, R i (final (c i)).

(** Relations kept by the instance operations user code can perform. *)
Class SyncClosed (R : relation Instance) : Prop := {
  sync_preorder :: PreOrder R;
  sync_storage : forall i f, R i (set_storage f i);
  sync_dom : forall i d, R i (set_dom d i);
  sync_effect : forall i e, quiet_effect e = true -> R i (set_effects (effects i ++ [e]) i);
  sync_requestUpdate : forall cls k o v, keeps R (requestUpdate cls k o v);
}.

(** Relations also kept by raising and lowering the reflecting guard. *)
Class GuardClosed (R : relation Instance) : Prop := {
  guard_sync :: SyncClosed R;
  guard_flag : forall i b, R i (set_isReflecting b i);
}.

(** While the guard is up it stays up and no reflection is queued. *)
Definition guarded (i i' : Instance) : Prop :=
  _isReflecting i = true ->
  _isReflecting i' = true /\ _reflectingProperties i' = _reflectingProperties i.

(** A callback that returns at once while the guard is up. *)
Definition returns_when_reflecting (callback : string -> option string -> option string -> M unit) : Prop :=
  forall n o v i, _isReflecting i = true -> callback n o v i = Normal tt i.

(** What a synchronous call can do to the schedule: either it leaves it
    alone, or no update was requested and it has enqueued exactly one job,
    for a new pending promise. *)
Definition coalesced (i i' : Instance) : Prop :=
  settled i' = settled i /\ passes i' = passes i /\
  ((jobs i' = jobs i /\ _hasRequestedUpdate i' = _hasRequestedUpdate i /\
    allocated i' = allocated i /\ _updateRequest i' = _updateRequest i)
   \/ (_hasRequestedUpdate i = false /\ _hasRequestedUpdate i' = true /\
       jobs i' = (jobs i ++ [{| previousRequest := _updateRequest i;
                                ownRequest := allocated i;
                                phase := AwaitingPrevious |}])%list /\
       allocated i' = S (allocated i) /\ _updateRequest i' = allocated i)).

(** What user code and the host callback can do to the trace and to the
    sets of the pass: effects are appended, none of them a call of the pass's
    own steps; [_notifyingProperties] and [_hasUpdated] stay; no key leaves
    [_changedProperties]. *)
Definition quiet (i i' : Instance) : Prop :=
  (exists es, effects i' = (effects i ++ es)%list /\ forallb quiet_effect es = true)
  /\ _notifyingProperties i' = _notifyingProperties i
  /\ _hasUpdated i' = _hasUpdated i
  /\ (forall k, map_has (_changedProperties i) k = true ->
                map_has (_changedProperties i') k = true).

(** [steps c i i']: from [i] to [i'] the pass made the calls [c], in that
    order, and otherwise only quiet changes. *)
Definition steps (c : list Call) (i i' : Instance) : Prop :=
  calls (effects i') = (calls (effects i) ++ c)%list
  /\ _notifyingProperties i' = _notifyingProperties i
  /\ _hasUpdated i' = _hasUpdated i
  /\ (forall k, map_has (_changedProperties i) k = true ->
                map_has (_changedProperties i') k = true).

(** A [Map] has one entry per key, and keeps it so. *)
Definition unique_keys (i i' : Instance) : Prop :=
  NoDup (_changedProperties i).*1 -> NoDup (_changedProperties i').*1.

(** ** Change detection and [watch] in the statements *)

(** The key has no declaration, or one whose [observe] is not a function. *)
Definition unobserved (cls : CustomElementClass) (key : PropertyKey) : Prop :=
  match properties cls !! key with
  | None => True
  | Some d => isPropertyChangeDetector (observe d) = false
  end.


(** The old value on record for a property after the writes [writes], made
    in order to a property holding [current] with [recorded] on record: each
    write the detector reports as a change puts the value it replaces on
    record. *)
Fixpoint recorded_old (detect : Value -> Value -> bool) (current : Value)
    (writes : list Value) (recorded : option Value) : option Value :=
  match writes with
  | [] => recorded
  | v :: writes' =>
      recorded_old detect v writes' (if detect current v then Some current else recorded)
  end.



(** ** Further classes and predicates of the update engine *)

(** The promises of an instance form one chain. *)
Record promise_chain (i : Instance) : Prop := {
  chain_current : S (_updateRequest i) = allocated i;
  chain_jobs : ownRequest <$> jobs i = seq 1 (length (jobs i));
  chain_allocated : allocated i = S (length (jobs i));
  chain_previous : forall j, j ∈ jobs i -> S (previousRequest j) = ownRequest j;
  chain_passes : passes i = seq 1 (length (passes i));
  chain_initial : is_Some (settled i !! 0);
  chain_frame : forall j, j ∈ jobs i -> phase j = AwaitingFrame ->
    is_Some (settled i !! previousRequest j);
  chain_resolved : forall j, j ∈ jobs i -> phase j = Resolved ->
    is_Some (settled i !! ownRequest j);
  chain_settled : forall p q, p ∈ passes i -> q < p -> is_Some (settled i !! q);
}.

(** An element whose property [p] has a custom property reflector that throws. *)
Definition Brittle : CustomElementClass := {|
  attributes := {[ "p" := KString "p" ]};
  properties :=
    {[ KString "p" :=
         {| attribute := AttributeName "p";
            converter := AttributeConverterDefault;
            reflectAttribute_option := HandlerBool true;
            reflectProperty_option := HandlerFunction "boom" (fun _ _ _ => [ActThrow]);
            notify := HandlerBool true;
            observe := observe DEFAULT_PROPERTY_DECLARATION |} ]};
  observedAttributes := ["p"];
  methods := ∅;
  hasTemplate := false;
|}.

(** An element whose property [p] names, as its reflector and as its
    notifier, a method the element does not have. *)
Definition Dangling : CustomElementClass := {|
  attributes := {[ "p" := KString "p" ]};
  properties :=
    {[ KString "p" :=
         {| attribute := AttributeName "p";
            converter := AttributeConverterDefault;
            reflectAttribute_option := HandlerBool true;
            reflectProperty_option := HandlerKey (KString "missing");
            notify := HandlerKey (KString "missing");
            observe := observe DEFAULT_PROPERTY_DECLARATION |} ]};
  observedAttributes := ["p"];
  methods := ∅;
  hasTemplate := false;
|}.

(** An update is requested and no job can run its pass: the job of the
    current promise is the one whose frame callback threw. *)
Definition stalled (i : Instance) : Prop :=
  _hasRequestedUpdate i = true
  /\ (exists j, j ∈ jobs i /\ ownRequest j = _updateRequest i /\ phase j = Aborted)
  /\ forall j, j ∈ jobs i -> scheduled j = false.

(** The [firstUpdate] argument of a call of [updateCallback]. *)
Definition hook_flag (c : Call) : option bool :=
  match c with
  | CallUpdateCallback _ firstUpdate => Some firstUpdate
  | _ => None
  end.

(** The [firstUpdate] arguments [updateCallback] has been called with, in order. *)
Definition firstUpdate_flags (es : list Effect) : list bool := omap hook_flag (calls es).

(** What the hook has been told, against the passes that have completed. *)
Definition told_first (i : Instance) : Prop :=
  firstUpdate_flags (effects i) = (fun p => bool_decide (p = 1)) <$> passes i
  /\ _hasUpdated i = bool_decide (passes i <> []).

(** Every property queued for reflection or notification is among the
    changed ones. *)
Definition dirty_within (i : Instance) : Prop :=
  (forall k, map_has (_reflectingProperties i) k = true ->
             map_has (_changedProperties i) k = true)
  /\ (forall k, map_has (_notifyingProperties i) k = true ->
                map_has (_changedProperties i) k = true).

(** A computation that keeps the queues within the changed properties. *)
Definition within (i i' : Instance) : Prop := dirty_within i -> dirty_within i'.

(** An element whose property [p] has a change detector that throws. *)
Definition Picky : CustomElementClass := {|
  attributes := {[ "p" := KString "p" ]};
  properties :=
    {[ KString "p" :=
         {| attribute := AttributeName "p";
            converter := AttributeConverterDefault;
            reflectAttribute_option := HandlerBool true;
            reflectProperty_option := HandlerBool true;
            notify := HandlerBool true;
            observe := ObserveFunction "picky" (fun _ _ => None) |} ]};
  observedAttributes := ["p"];
  methods := ∅;
  hasTemplate := false;
|}.

(** The attribute a boolean property is mirrored in. *)
Definition boolean_attribute (b : bool) : option string :=
  if b then Some "true" else None.

(** ** Listeners and the lifecycle callbacks *)

(** An event target: the element itself or another object of the page. *)
Inductive EventTarget :=
| ThisElement
| OtherTarget (ref : nat).

#[global] Instance EventTarget_eq_dec : EqDecision EventTarget.
Proof. solve_decision. Defined.

(** [boolean | AddEventListenerOptions | undefined], the third argument of
    [addEventListener] and [removeEventListener]. *)
Inductive ListenerOptions :=
| OptionsUndefined
| OptionsBoolean (capture : bool)
| OptionsObject (capture once passive : bool).

(** The capture flag the host reads off the options. *)
Definition capture_of (o : ListenerOptions) : bool :=
  match o with
  | OptionsUndefined => false
  | OptionsBoolean capture => capture
  | OptionsObject capture _ _ => capture
  end.

(** An entry of a target's event listener list.  The host keys an entry by
    its type, its callback and its capture flag; callbacks are function
    objects, named by numbers. *)
Record Registration := {
  reg_target : EventTarget;
  reg_type : string;
  reg_callback : nat;
  reg_capture : bool;
}.

#[global] Instance Registration_eq_dec : EqDecision Registration.
Proof. solve_decision. Defined.

(** [InstanceListenerDeclaration]: the declaration with the bound listener
    and the resolved target. *)
Module InstanceListenerDeclaration.
Record t := {
  event : string;
  options : ListenerOptions;
  listener : nat;
  target : EventTarget;
}.
End InstanceListenerDeclaration.

(** What the lifecycle callbacks work on besides the instance: the two
    fields, the event listener lists of the page, and the number of function
    objects [bind] has created. *)
Record Connection := {
  _isConnected : bool;
  _listenerDeclarations : list InstanceListenerDeclaration.t;
  registered : list Registration;
  bound : nat;
}.

(** [declaration.target]: absent, a function that yields the target (or
    throws), or the target. *)
Inductive TargetOption :=
| TargetUndefined
| TargetFunction (f : Connection -> option EventTarget)
| TargetObject (t : EventTarget).

(** [ListenerDeclaration], as [_listen] reads it. *)
Record ListenerDeclaration := {
  event : string;
  options : ListenerOptions;
  target : TargetOption;
}.

(** A disconnected element on a page with listeners [rs], none of them a
    function [bind] will create. *)
Definition created (rs : list Registration) : Connection := {|
  _isConnected := false;
  _listenerDeclarations := [];
  registered := rs;
  bound := S (max_list (reg_callback <$> rs));
|}.

Definition set_isConnected (b : bool) (c : Connection) : Connection :=
  {| _isConnected := b; _listenerDeclarations := _listenerDeclarations c;
     registered := registered c; bound := bound c |}.

Definition set_registered (rs : list Registration) (c : Connection) : Connection :=
  {| _isConnected := _isConnected c; _listenerDeclarations := _listenerDeclarations c;
     registered := rs; bound := bound c |}.

(** The entry the host keeps for a bound declaration. *)
Definition registration_of (d : InstanceListenerDeclaration.t) : Registration := {|
  reg_target := InstanceListenerDeclaration.target d;
  reg_type := InstanceListenerDeclaration.event d;
  reg_callback := InstanceListenerDeclaration.listener d;
  reg_capture := capture_of (InstanceListenerDeclaration.options d);
|}.

(** The host's [addEventListener]: an entry with the same type, callback and
    capture flag is not added again. *)
Definition addEventListener (d : InstanceListenerDeclaration.t) (rs : list Registration)
    : list Registration :=
  if bool_decide (registration_of d ∈ rs) then rs else rs ++ [registration_of d].

(** The host's [removeEventListener]. *)
Definition removeEventListener (d : InstanceListenerDeclaration.t) (rs : list Registration)
    : list Registration :=
  List.filter (fun r => bool_decide (r <> registration_of d)) rs.

(** How a callback of the lifecycle completes. *)
Inductive Outcome (S : Type) :=
| Returned (s : S)
| Thrown (e : Error) (s : S).
Arguments Returned {S} s.
Arguments Thrown {S} e s.

Section Lifecycle.
Variable cls : CustomElementClass.
Variable listeners : JsMap PropertyKey ListenerDeclaration.

(** [isConnected]. *)
Definition isConnected (c : Connection) : bool := _isConnected c.

(** The loop of [_listen] over the entries of the class's [listeners]. *)
Fixpoint _listen_entries (entries : JsMap PropertyKey ListenerDeclaration) (c : Connection)
    : Outcome Connection :=
  match entries with
  | [] => Returned c
  | (listener, declaration) :: entries' =>
      match methods cls !! listener with
      | None => Thrown TypeError c
      | Some _ =>
          let c1 := {| _isConnected := _isConnected c;
                       _listenerDeclarations := _listenerDeclarations c;
                       registered := registered c; bound := S (bound c) |} in
          match (match target declaration with
                 | TargetUndefined => Some ThisElement
                 | TargetFunction f => f c1
                 | TargetObject t => Some t
                 end) with
          | None => Thrown ScriptError c1
          | Some t =>
              let instanceDeclaration := {|
                InstanceListenerDeclaration.event := event declaration;
                InstanceListenerDeclaration.options := options declaration;
                InstanceListenerDeclaration.listener := bound c;
                InstanceListenerDeclaration.target := t |} in
              _listen_entries entries'
                {| _isConnected := _isConnected c1;
                   _listenerDeclarations := _listenerDeclarations c1 ++ [instanceDeclaration];
                   registered := addEventListener instanceDeclaration (registered c1);
                   bound := bound c1 |}
          end
      end
  end.

(** [_listen]. *)
Definition _listen (c : Connection) : Outcome Connection := _listen_entries listeners c.

(** [_unlisten]. *)
Definition _unlisten (c : Connection) : Connection :=
  set_registered
    (fold_left (fun rs d => removeEventListener d rs) (_listenerDeclarations c) (registered c)) c.

(** [connectedCallback]. *)
Definition connectedCallback (c : Connection) (i : Instance) : Outcome (Connection * Instance) :=
  match _listen (set_isConnected true c) with
  | Thrown e c' => Thrown e (c', i)
  | Returned c' =>
      match (requestUpdate cls None VUndefined VUndefined;;
             _notifyLifecycle "connected" None) i with
      | Normal _ i' => Returned (c', i')
      | Abrupt e i' => Thrown e (c', i')
      end
  end.

(** [disconnectedCallback]. *)
Definition disconnectedCallback (c : Connection) (i : Instance) : Outcome (Connection * Instance) :=
  let c' := _unlisten (set_isConnected false c) in
  match _notifyLifecycle "disconnected" None i with
  | Normal _ i' => Returned (c', i')
  | Abrupt e i' => Thrown e (c', i')
  end.

(** [adoptedCallback]. *)
Definition adoptedCallback (i : Instance) : Completion unit := _notifyLifecycle "adopted" None i.
End Lifecycle.

(** No listener on the page is a function [bind] has yet to create. *)
Definition fresh (c : Connection) : Prop :=
  forall r, r ∈ registered c -> reg_callback r < bound c.

(** None of the element's bound listeners is on the page. *)
Definition detached (c : Connection) : Prop :=
  forall d, d ∈ _listenerDeclarations c -> registration_of d ∉ registered c.

(** Every listener of the class names a method, and its target resolves. *)
Definition bindable (cls : CustomElementClass)
    (listeners : JsMap PropertyKey ListenerDeclaration) : Prop :=
  forall k d, (k, d) ∈ listeners ->
    is_Some (methods cls !! k) /\
    forall f, target d = TargetFunction f -> forall c, is_Some (f c).

(** The declarations [_listen] adds, given the targets they resolve to. *)
Definition bound_declarations (listeners : JsMap PropertyKey ListenerDeclaration)
    (first : nat) (new : list InstanceListenerDeclaration.t) : Prop :=
  InstanceListenerDeclaration.event <$> new = event <$> listeners.*2
  /\ InstanceListenerDeclaration.options <$> new = options <$> listeners.*2
  /\ InstanceListenerDeclaration.listener <$> new = seq first (length listeners).

(** The checkbox with its click listener. *)
Definition Clickable : CustomElementClass := {|
  attributes := attributes Checkbox;
  properties := properties Checkbox;
  observedAttributes := observedAttributes Checkbox;
  methods := {[ KString "onClick" := fun _ _ _ => [] ]};
  hasTemplate := true;
|}.

Definition Clickable_listeners : JsMap PropertyKey ListenerDeclaration :=
  [(KString "onClick", {| event := "click"; options := OptionsUndefined;
                          target := TargetUndefined |})].

(** ** Names of attributes and events ([utils/string-utils], [decorators/property-declaration.ts])

    A string is its sequence of code units, each below 256; a character
    stands for the code unit of its number. *)

Definition code (c : ascii) : nat := nat_of_ascii c.

(** [\s], which is also what [trim] strips: tab, line feed, vertical tab,
    form feed, carriage return, space and no-break space. *)
Definition is_space (c : ascii) : bool :=
  bool_decide (code c ∈ [9; 10; 11; 12; 13; 32; 160]).

(** [[a-z]] and [[A-Z]]. *)
Definition is_lower (c : ascii) : bool := (97 <=? code c)%nat && (code c <=? 122)%nat.
Definition is_upper (c : ascii) : bool := (65 <=? code c)%nat && (code c <=? 90)%nat.

(** [\w]: letters, digits and the underscore. *)
Definition is_word (c : ascii) : bool :=
  is_lower c || is_upper c || ((48 <=? code c)%nat && (code c <=? 57)%nat)
  || (code c =? 95)%nat.

(** What [toLowerCase] maps to another character: the letters [A-Z] and the
    capital letters of the upper half. *)
Definition has_lower_case (c : ascii) : bool :=
  is_upper c
  || ((192 <=? code c)%nat && (code c <=? 222)%nat && negb (code c =? 215)%nat).

Definition toLowerCase_char (c : ascii) : ascii :=
  if has_lower_case c then ascii_of_nat (code c + 32) else c.

(** [String.prototype.toLowerCase]. *)
Definition toLowerCase (s : list ascii) : list ascii := map toLowerCase_char s.

Fixpoint drop_while (p : ascii -> bool) (s : list ascii) : list ascii :=
  match s with
  | c :: s' => if p c then drop_while p s' else s
  | [] => []
  end.

Fixpoint take_while (p : ascii -> bool) (s : list ascii) : list ascii :=
  match s with
  | c :: s' => if p c then c :: take_while p s' else []
  | [] => []
  end.

(** [String.prototype.trim]. *)
Definition trim (s : list ascii) : list ascii :=
  reverse (drop_while is_space (reverse (drop_while is_space s))).

(** [String.prototype.replace] with a string pattern: the first occurrence
    is replaced.  None of the replacement strings below holds a [$]
    pattern. *)
Fixpoint replace (pattern replacement s : list ascii) : list ascii :=
  if bool_decide (pattern `prefix_of` s) then replacement ++ drop (length pattern) s
  else match s with
       | [] => []
       | c :: s' => c :: replace pattern replacement s'
       end.

(** [RegExp.prototype.exec] from [lastIndex = 0] for a pattern whose match
    at a position is [m]: the match at the leftmost position that has one. *)
Fixpoint exec {R : Type} (m : list ascii -> option R) (s : list ascii) : option R :=
  match m s with
  | Some r => Some r
  | None => match s with
            | [] => None
            | _ :: s' => exec m s'
            end
  end.

(** [SPACES = /\s+([\S])/g] at a position: the longest run of white space,
    when a character follows it; the run and that character. *)
Definition SPACES (s : list ascii) : option (list ascii * ascii) :=
  match take_while is_space s, drop_while is_space s with
  | (_ :: _) as spaces, c :: _ => Some (spaces, c)
  | _, _ => None
  end.

(** [CAMELS = /[a-z]([A-Z])/g] at a position. *)
Definition CAMELS (s : list ascii) : option (ascii * ascii) :=
  match s with
  | a :: b :: _ => if is_lower a && is_upper b then Some (a, b) else None
  | _ => None
  end.

Definition dash : ascii := "-"%char.

(** The first loop of [kebabCase]. *)
Fixpoint SPACES_loop (fuel : nat) (s : list ascii) : option (list ascii) :=
  match fuel with
  | 0 => None
  | S fuel' =>
      match exec SPACES s with
      | Some (spaces, c) => SPACES_loop fuel' (replace (spaces ++ [c]) [dash; c] s)
      | None => Some s
      end
  end.

(** The second loop of [kebabCase]. *)
Fixpoint CAMELS_loop (fuel : nat) (s : list ascii) : option (list ascii) :=
  match fuel with
  | 0 => None
  | S fuel' =>
      match exec CAMELS s with
      | Some (a, b) => CAMELS_loop fuel' (replace [a; b] [a; dash; b] s)
      | None => Some s
      end
  end.

(** [kebabCase] on the characters of its argument. *)
Definition kebabCase_chars (s : list ascii) : option (list ascii) :=
  match s with
  | [] => Some []
  | _ =>
      let s0 := trim s in
      match SPACES_loop (S (length s0)) s0 with
      | Some s1 =>
          match CAMELS_loop (S (length s1)) s1 with
          | Some s2 => Some (match s2 with [] => [] | _ => toLowerCase s2 end)
          | None => None
          end
      | None => None
      end
  end.

(** [kebabCase]. *)
Definition kebabCase (s : string) : option string :=
  String.string_of_list_ascii <$> kebabCase_chars (String.list_ascii_of_string s).

(** *** The same in one pass *)

(** Every run of white space that a character follows, replaced by a dash. *)
Fixpoint dash_spaces (s : list ascii) : list ascii :=
  match s with
  | [] => []
  | c :: s' =>
      if is_space c then
        match drop_while is_space s' with
        | [] => c :: s'
        | _ :: _ =>
            match s' with
            | d :: _ => if is_space d then dash_spaces s' else dash :: dash_spaces s'
            | [] => [c]
            end
        end
      else c :: dash_spaces s'
  end.

(** A dash between every small letter and the capital that follows it. *)
Fixpoint dash_camels (s : list ascii) : list ascii :=
  match s with
  | [] => []
  | a :: s' =>
      match s' with
      | b :: _ => if is_lower a && is_upper b then a :: dash :: dash_camels s'
                  else a :: dash_camels s'
      | [] => [a]
      end
  end.

Definition kebab (s : list ascii) : list ascii :=
  toLowerCase (dash_camels (dash_spaces (trim s))).

(** The number of characters of white space. *)
Definition spaces (s : list ascii) : nat := length (List.filter is_space s).

(** The number of small letters with a capital after them. *)
Fixpoint camels (s : list ascii) : nat :=
  match s with
  | a :: s' =>
      match s' with
      | b :: _ => if is_lower a && is_upper b then S (camels s') else camels s'
      | [] => 0
      end
  | [] => 0
  end.

(** [value.replace(/\W+/g, '-')]: every run of characters that are not word
    characters becomes one dash. *)
Fixpoint dash_nonwords (s : list ascii) : list ascii :=
  match s with
  | [] => []
  | c :: s' =>
      if is_word c then c :: dash_nonwords s'
      else match s' with
           | d :: _ => if is_word d then dash :: dash_nonwords s' else dash_nonwords s'
           | [] => [dash]
           end
  end.

(** [.replace(/\-$/, '')]: a dash that ends the string is removed. *)
Definition strip_dash (s : list ascii) : list ascii :=
  match reverse s with
  | c :: r => if bool_decide (c = dash) then reverse r else s
  | [] => s
  end.

(** [encodeAttribute] on the characters of its argument. *)
Definition encodeAttribute_chars (value : list ascii) : option (list ascii) :=
  kebabCase_chars (strip_dash (dash_nonwords value)).

(** [encodeAttribute]. *)
Definition encodeAttribute (value : string) : option string :=
  String.string_of_list_ascii <$> encodeAttribute_chars (String.list_ascii_of_string value).

Section Names.
(** The description of a symbol, empty when it has none. *)
Variable description : nat -> string.

(** [String(propertyKey)]; a number is an integer below [10^21] in size,
    which prints as its decimal numeral. *)
Definition String_of_key (propertyKey : PropertyKey) : string :=
  match propertyKey with
  | KString s => s
  | KNumber z => pretty z
  | KSymbol id => "Symbol(" ++ description id ++ ")"
  end.

(** [createAttributeName]. *)
Definition createAttributeName (propertyKey : PropertyKey) : option string :=
  match propertyKey with
  | KString s => kebabCase s
  | _ => (fun name => "attr-" ++ name) <$> encodeAttribute (String_of_key propertyKey)
  end.

(** [createEventName]. *)
Definition createEventName (propertyKey : PropertyKey) (prefix suffix : option string)
    : option string :=
  propertyString ← match propertyKey with
                    | KString s => kebabCase s
                    | _ => encodeAttribute (String_of_key propertyKey)
                    end;
  before ← match prefix with
            | Some p => if String.eqb p "" then Some ""
                        else (fun p' => p' ++ "-") <$> kebabCase p
            | None => Some ""
            end;
  after ← match suffix with
           | Some s => if String.eqb s "" then Some ""
                       else (fun s' => "-" ++ s') <$> kebabCase s
           | None => Some ""
           end;
  Some (before ++ propertyString ++ after).
End Names.

(** What a kebab-cased string is made of: no white space and no capital. *)
Definition kebab_char (c : ascii) : bool := negb (is_space c) && negb (has_lower_case c).

(** What an encoded attribute name is made of: small letters, digits,
    underscores and dashes. *)
Definition attribute_char (c : ascii) : bool :=
  (is_word c && negb (is_upper c)) || bool_decide (c = dash).

(** The string ends in a character that is not white space, if it ends. *)
Definition ends_well (s : list ascii) : Prop :=
  match last s with
  | Some c => is_space c = false
  | None => True
  end.

(** ** The focus monitor ([FocusMonitor]) *)

(** [FocusChangeEventDetail.type]. *)
Inductive FocusChangeType :=
| Focusin
| Focusout.

(** A [FocusEvent], named by a number, with the node that gains or loses
    the focus on the other side, if there is one. *)
Record FocusEvent := {
  event_id : nat;
  relatedTarget : option nat;
}.

(** The monitor: its field and the [focus-changed] events it has
    dispatched, with their details. *)
Record FocusMonitor := {
  hasFocus : bool;
  dispatched : list (FocusChangeType * FocusEvent);
}.

(** A monitor as constructed. *)
Definition monitor : FocusMonitor := {| hasFocus := false; dispatched := [] |}.

Section FocusMonitor.
(** The nodes the monitored element contains, itself included. *)
Variable contains : nat -> bool.

(** [handleFocusIn]. *)
Definition handleFocusIn (event : FocusEvent) (m : FocusMonitor) : FocusMonitor :=
  if negb (hasFocus m)
  then {| hasFocus := true; dispatched := dispatched m ++ [(Focusin, event)] |}
  else m.

(** [handleFocusOut]. *)
Definition handleFocusOut (event : FocusEvent) (m : FocusMonitor) : FocusMonitor :=
  if match relatedTarget event with
     | Some node => contains node
     | None => false
     end
  then m
  else if hasFocus m
       then {| hasFocus := false; dispatched := dispatched m ++ [(Focusout, event)] |}
       else m.

(** The events the two listeners of [attach] receive. *)
Inductive FocusInput :=
| FocusinEvent (event : FocusEvent)
| FocusoutEvent (event : FocusEvent).

Definition handle (m : FocusMonitor) (input : FocusInput) : FocusMonitor :=
  match input with
  | FocusinEvent event => handleFocusIn event m
  | FocusoutEvent event => handleFocusOut event m
  end.

Definition monitored (inputs : list FocusInput) : FocusMonitor :=
  fold_left handle inputs monitor.
End FocusMonitor.

(** The types of a list of changes that starts with [first] and
    alternates. *)
Fixpoint alternating (first : FocusChangeType) (n : nat) : list FocusChangeType :=
  match n with
  | 0 => []
  | S n' => first :: alternating (match first with Focusin => Focusout | Focusout => Focusin end) n'
  end.

(** ** The stack of active overlays ([Overlay], static part)

    Overlays are named by numbers. *)

Inductive OverlayError :=
| ALREADY_INITIALIZED_ERROR
| ALREADY_REGISTERED_ERROR (overlay : nat)
| NOT_REGISTERED_ERROR (overlay : nat).

(** The static fields the functions below read: the keys of
    [registeredOverlays] and the set [activeOverlays], in insertion order. *)
Record OverlayRegistry := {
  registeredOverlays : list nat;
  activeOverlays : list nat;
}.

Section Overlay.
(** [overlay.config.stacked], [overlay.open], and whether the overlay is or
    contains [document.activeElement]. *)
Variables stacked open focused : nat -> bool.
Variable registry : OverlayRegistry.

(** [isOverlayRegistered]. *)
Definition isOverlayRegistered (overlay : nat) : bool :=
  bool_decide (overlay ∈ registeredOverlays registry).

(** [isOverlayFocused]. *)
Definition isOverlayFocused (overlay : nat) : OverlayError + bool :=
  if negb (isOverlayRegistered overlay) then inl (NOT_REGISTERED_ERROR overlay)
  else inr (focused overlay).

(** The loop of [isOverlayActive]. *)
Fixpoint isOverlayActive_loop (overlay : nat) (isFound : bool) (active : list nat)
    : OverlayError + bool :=
  match active with
  | [] => inr false
  | current :: rest =>
      let isFound := isFound || bool_decide (current = overlay) in
      if isFound then
        match isOverlayFocused current with
        | inl e => inl e
        | inr true => inr true
        | inr false => isOverlayActive_loop overlay isFound rest
        end
      else isOverlayActive_loop overlay isFound rest
  end.

(** [isOverlayActive]. *)
Definition isOverlayActive (overlay : nat) : OverlayError + bool :=
  if negb (isOverlayRegistered overlay) then inl (NOT_REGISTERED_ERROR overlay)
  else if stacked overlay && open overlay
       then isOverlayActive_loop overlay false (activeOverlays registry)
       else inr false.

(** The loop of [getParentOverlay]. *)
Fixpoint getParentOverlay_loop (overlay : nat) (parent : option nat) (active : list nat)
    : option nat :=
  match active with
  | [] => None
  | current :: rest =>
      if bool_decide (current = overlay) then parent
      else getParentOverlay_loop overlay (Some current) rest
  end.

(** [getParentOverlay]. *)
Definition getParentOverlay (overlay : nat) : OverlayError + option nat :=
  if negb (isOverlayRegistered overlay) then inl (NOT_REGISTERED_ERROR overlay)
  else if stacked overlay && open overlay
       then inr (getParentOverlay_loop overlay None (activeOverlays registry))
       else inr None.
End Overlay.

(** * Properties *)

(** ** Reasoning about computations *)

Section Keeps.
Context (R : relation Instance) `{!PreOrder R}.

Lemma keeps_ret {A} (a : A) : keeps R (ret a).
Proof. intros i. reflexivity. Qed.

Lemma keeps_throw {A} (e : Error) : keeps R (@throw A e).
Proof. intros i. reflexivity. Qed.

Lemma keeps_gets {A} (f : Instance -> A) : keeps R (gets f).
Proof. intros i. reflexivity. Qed.

Lemma keeps_modify (f : Instance -> Instance) :
  (forall i, R i (f i)) -> keeps R (modify f).
Proof. intros H i. apply H. Qed.

Lemma keeps_bind {A B} (c : M A) (k : A -> M B) :
  keeps R c -> (forall a, keeps R (k a)) -> keeps R (bind c k).
Proof.
  intros Hc Hk i. unfold bind. specialize (Hc i).
  destruct (c i) as [a i'|e i']; simpl in *; [|exact Hc].
  transitivity i'; [exact Hc | apply Hk].
Qed.

Lemma keeps_rethrow_as {A} (e : Error) (c : M A) :
  keeps R c -> keeps R (rethrow_as e c).
Proof.
  intros Hc i. unfold rethrow_as. specialize (Hc i).
  destruct (c i); exact Hc.
Qed.

Lemma keeps_when (b : bool) (c : M unit) : keeps R c -> keeps R (when b c).
Proof. intros Hc. destruct b; [exact Hc | apply keeps_ret]. Qed.
End Keeps.

(** One step of a proof that a composite computation keeps a relation. *)
Ltac keeps_step :=
  lazymatch goal with
  | |- keeps _ (ret _) => apply keeps_ret
  | |- keeps _ (throw _) => apply keeps_throw
  | |- keeps _ (gets _) => apply keeps_gets
  | |- keeps _ (when _ _) => apply keeps_when
  | |- keeps _ (rethrow_as _ _) => apply keeps_rethrow_as
  | |- keeps _ (bind _ _) => apply keeps_bind; [.. | intros ?]
  end;
  try apply _.

Section SyncClosed.
Context (R : relation Instance) `{!SyncClosed R}.
Variable cls : CustomElementClass.

Lemma keeps_emit (e : Effect) : quiet_effect e = true -> keeps R (emit e).
Proof. intros He. apply keeps_modify; try apply _. intros i. by apply sync_effect. Qed.

Lemma keeps_set_storage (f : Instance -> gmap PropertyKey Value) :
  keeps R (modify (fun i => set_storage (f i) i)).
Proof. apply keeps_modify; try apply _. intros i. apply sync_storage. Qed.

Lemma keeps_set_dom (f : Instance -> gmap string string) :
  keeps R (modify (fun i => set_dom (f i) i)).
Proof. apply keeps_modify; try apply _. intros i. apply sync_dom. Qed.

Lemma keeps_set_property k v : keeps R (set_property cls k v).
Proof.
  unfold set_property. destruct (_getPropertyDeclaration cls k).
  - repeat keeps_step; first [apply keeps_set_storage | apply sync_requestUpdate].
  - apply keeps_set_storage.
Qed.

Section WithCallback.
Variable callback : string -> option string -> option string -> M unit.
Hypothesis keeps_callback : forall n o v, keeps R (callback n o v).

Lemma keeps_reaction (c : M unit) : keeps R c -> keeps R (reaction c).
Proof.
  intros Hc i. unfold reaction. specialize (Hc i).
  destruct (c i) as [a i'|e i']; simpl in *; [exact Hc|].
  transitivity i'; [exact Hc | by apply sync_effect].
Qed.

Lemma keeps_setAttribute n v : keeps R (setAttribute cls callback n v).
Proof.
  unfold setAttribute.
  repeat keeps_step;
    first [apply keeps_set_dom | by apply keeps_emit
           | apply keeps_reaction, keeps_callback].
Qed.

Lemma keeps_removeAttribute n : keeps R (removeAttribute cls callback n).
Proof.
  unfold removeAttribute.
  keeps_step; [keeps_step|]. keeps_step; [by apply keeps_emit|].
  match goal with o : option string |- _ => destruct o end;
    repeat keeps_step;
    first [apply keeps_set_dom | apply keeps_reaction, keeps_callback].
Qed.

Lemma keeps_run_action a : keeps R (run_action cls callback a).
Proof.
  destruct a; simpl.
  - apply keeps_set_property.
  - apply keeps_setAttribute.
  - apply keeps_removeAttribute.
  - repeat keeps_step. apply sync_requestUpdate.
  - keeps_step.
Qed.

Lemma keeps_run_script s : keeps R (run_script cls callback s).
Proof.
  induction s as [|a s IH]; simpl.
  - keeps_step.
  - keeps_step; [apply keeps_run_action | exact IH].
Qed.

Lemma keeps_call_method key a b c : keeps R (call_method cls callback key a b c).
Proof.
  unfold call_method. destruct (methods cls !! key).
  - keeps_step; [by apply keeps_emit | apply keeps_run_script].
  - keeps_step.
Qed.

Lemma keeps__reflectAttribute n o v : keeps R (_reflectAttribute cls n o v).
Proof.
  unfold _reflectAttribute.
  destruct (attributes cls !! n) as [propertyKey|]; [|keeps_step].
  destruct (_getPropertyDeclaration cls propertyKey) as [d|]; [|keeps_step].
  destruct (fromAttribute _ v); [|keeps_step].
  apply keeps_set_property.
Qed.
End WithCallback.
End SyncClosed.

Section GuardClosed.
Context (R : relation Instance) `{!GuardClosed R}.
Variable cls : CustomElementClass.

Lemma keeps_set_isReflecting b : keeps R (modify (set_isReflecting b)).
Proof. apply keeps_modify; try apply _. intros i. apply guard_flag. Qed.

Lemma keeps_reflectAttribute callback n o v :
  (forall n o v, keeps R (callback n o v)) ->
  keeps R (reflectAttribute cls callback n o v).
Proof.
  intros Hcb. unfold reflectAttribute.
  destruct (negb _); [by apply keeps_emit; try apply _|].
  destruct (_ ≫= _) as [d|]; [|keeps_step].
  keeps_step. keeps_step; [apply keeps_set_isReflecting|].
  keeps_step; [|apply keeps_set_isReflecting].
  destruct (reflectAttribute_option d).
  - apply keeps__reflectAttribute; apply _.
  - keeps_step. apply keeps_call_method; [apply _ | exact Hcb].
  - repeat keeps_step; [by apply keeps_emit; try apply _|].
    apply keeps_run_script; [apply _ | exact Hcb].
Qed.

Lemma keeps_attributeChangedCallbackN depth n o v :
  keeps R (attributeChangedCallbackN cls depth n o v).
Proof.
  revert n o v. induction depth as [|depth IH]; intros n o v; simpl.
  - keeps_step.
  - unfold attributeChangedCallback_body. keeps_step; [keeps_step|].
    match goal with b : bool |- _ => destruct b end; [keeps_step|].
    keeps_step. by apply keeps_reflectAttribute.
Qed.

Lemma keeps_attributeChangedCallback n o v :
  keeps R (attributeChangedCallback cls n o v).
Proof. apply keeps_attributeChangedCallbackN. Qed.

Lemma keeps_script s : keeps R (run_script cls (attributeChangedCallback cls) s).
Proof. apply keeps_run_script; [apply _ | apply keeps_attributeChangedCallback]. Qed.
End GuardClosed.

(** Unfolds a call of [requestUpdate] into the cases of its control flow. *)
Ltac requestUpdate_cases :=
  unfold requestUpdate, hasChanged, _enqueueUpdate, bind, gets, modify, when, ret, throw;
  repeat case_match; simplify_eq/=.

#[global] Instance guarded_preorder : PreOrder guarded.
Proof.
  split.
  - intros i H. done.
  - intros i1 i2 i3 H12 H23 H. destruct (H12 H) as [H2 E2].
    destruct (H23 H2) as [H3 E3]. split; congruence.
Qed.

#[global] Instance guarded_sync : SyncClosed guarded.
Proof.
  split; try apply _.
  - intros i f H. done.
  - intros i d H. done.
  - intros i e _ H. done.
  - intros cls k o v i H. requestUpdate_cases; try done; by rewrite H in *.
Qed.

#[global] Instance coalesced_preorder : PreOrder coalesced.
Proof.
  split.
  - intros i. unfold coalesced. tauto.
  - intros i1 i2 i3 (S12 & P12 & H12) (S23 & P23 & H23).
    split; [congruence|]. split; [congruence|].
    destruct H12 as [(J & F & A & U)|(F & F' & J & A & U)];
      destruct H23 as [(J2 & F2 & A2 & U2)|(G & G' & J2 & A2 & U2)].
    + left. repeat split; congruence.
    + right. rewrite J2, A2, U2, G'. rewrite <- F, J, A, U. done.
    + right. rewrite J2, F2, A2, U2. done.
    + congruence.
Qed.

#[global] Instance coalesced_sync : SyncClosed coalesced.
Proof.
  split; try apply _.
  - intros i f. unfold coalesced. simpl. tauto.
  - intros i d. unfold coalesced. simpl. tauto.
  - intros i e _. unfold coalesced. simpl. tauto.
  - intros cls k o v i. unfold coalesced.
    requestUpdate_cases; repeat split; try done; try (left; done);
      right; repeat split; try done;
      match goal with H : negb ?b = true |- ?b = false => by destruct b end.
Qed.

#[global] Instance coalesced_guard : GuardClosed coalesced.
Proof. split; [apply _|]. intros i b. unfold coalesced. simpl. tauto. Qed.

(** *** The host never re-enters more than twice *)

Lemma attributeChangedCallback_body_reflecting cls callback :
  returns_when_reflecting (attributeChangedCallback_body cls callback).
Proof.
  intros n o v i H. unfold attributeChangedCallback_body, bind, gets. by rewrite H.
Qed.

Lemma returns_when_reflecting_guarded callback n o v :
  returns_when_reflecting callback -> keeps guarded (callback n o v).
Proof. intros Hcb i H. by rewrite Hcb. Qed.

Section TwoLevels.
Variable cls : CustomElementClass.
Variables callback1 callback2 : string -> option string -> option string -> M unit.
Hypothesis guard1 : returns_when_reflecting callback1.
Hypothesis guard2 : returns_when_reflecting callback2.

Lemma run_action_reflecting a i :
  _isReflecting i = true ->
  run_action cls callback1 a i = run_action cls callback2 a i.
Proof.
  intros H. destruct a; simpl; try done.
  - unfold setAttribute, bind, gets, modify, emit, when, modify, reaction; simpl.
    case_bool_decide; [|done]. by rewrite guard1, guard2.
  - unfold removeAttribute, bind, gets, modify, emit, when, modify, reaction; simpl.
    destruct (dom i !! n); simpl; [|done].
    case_bool_decide; [|done]. by rewrite guard1, guard2.
Qed.

Lemma run_script_reflecting s i :
  _isReflecting i = true ->
  run_script cls callback1 s i = run_script cls callback2 s i.
Proof.
  revert i. induction s as [|a s IH]; intros i H; simpl; [done|].
  unfold bind. rewrite (run_action_reflecting a i H).
  pose proof (keeps_run_action guarded cls callback2
                (fun n o v => returns_when_reflecting_guarded _ n o v guard2) a i H) as [G _].
  destruct (run_action cls callback2 a i); simpl in *; [by apply IH | done].
Qed.

Lemma reflectAttribute_callback n o v i :
  reflectAttribute cls callback1 n o v i = reflectAttribute cls callback2 n o v i.
Proof.
  unfold reflectAttribute. destruct (negb _); [done|].
  destruct (_ ≫= _) as [d|]; [|done].
  destruct (handler_truthy _); simpl; [|done].
  unfold bind at 1 3. simpl.
  destruct (reflectAttribute_option d); [done| |].
  - unfold bind at 1 3, rethrow_as, call_method, emit, modify, bind. simpl.
    destruct (methods cls !! k); [|done]. by rewrite run_script_reflecting.
  - unfold bind at 1 3, rethrow_as, emit, modify, bind. simpl.
    by rewrite run_script_reflecting.
Qed.
End TwoLevels.

(** Any bound of at least two gives the callback of bound two. *)
Lemma attributeChangedCallbackN_stable cls depth n o v i :
  attributeChangedCallbackN cls (S (S depth)) n o v i = attributeChangedCallback cls n o v i.
Proof.
  unfold attributeChangedCallback.
  change (attributeChangedCallback_body cls (attributeChangedCallbackN cls (S depth)) n o v i
          = attributeChangedCallback_body cls (attributeChangedCallbackN cls 1) n o v i).
  unfold attributeChangedCallback_body, bind, gets.
  destruct (_isReflecting i); [done|]. unfold when.
  destruct (negb _); [|done].
  apply reflectAttribute_callback; apply attributeChangedCallback_body_reflecting.
Qed.

Lemma attributeChangedCallback_reflecting cls :
  returns_when_reflecting (attributeChangedCallback cls).
Proof. apply attributeChangedCallback_body_reflecting. Qed.

(** ** The schedule *)

Lemma scheduler_invariant_constructed : scheduler_invariant constructed.
Proof.
  split; simpl; try (intros; set_solver); try lia.
  - constructor.
  - intros p b H. apply lookup_singleton_Some in H. lia.
Qed.

Lemma scheduler_invariant_coalesced i i' :
  coalesced i i' -> scheduler_invariant i -> scheduler_invariant i'.
Proof.
  intros (S & P & [(J & F & A & U)|(F & F' & J & A & U)]) [I0 I1 I2 I3 I4 I5 I6 I7 I8].
  - split; rewrite ?J, ?F, ?A, ?U, ?S, ?P; done.
  - assert (Hnone : forall j, j ∈ jobs i -> unfinished j = false).
    { intros j Hj. destruct (unfinished j) eqn:E; [|done].
      destruct (I3 j Hj E). congruence. }
    assert (Hfresh : settled i !! allocated i = None).
    { destruct (settled i !! allocated i) eqn:E; [|done].
      destruct (I8 _ _ E) as [Z|Z]; [lia|]. apply I7 in Z. lia. }
    split; rewrite ?J, ?F', ?A, ?U, ?S, ?P.
    + lia.
    + intros j [Hj|Hj]%elem_of_app.
      * specialize (I1 j Hj). lia.
      * apply list_elem_of_singleton in Hj. subst j. simpl. lia.
    + rewrite fmap_app. apply NoDup_app. split; [done|]. split; [|apply NoDup_singleton].
      intros x Hx Hx'. simpl in Hx'. apply list_elem_of_singleton in Hx'. subst x.
      apply list_elem_of_fmap in Hx as (j & E & Hj). specialize (I1 j Hj). lia.
    + intros j [Hj|Hj]%elem_of_app Hu.
      * rewrite (Hnone j Hj) in Hu. done.
      * apply list_elem_of_singleton in Hj. by subst j.
    + intros _. eexists. split; [apply elem_of_app; right; apply list_elem_of_singleton; done|].
      done.
    + intros j [Hj|Hj]%elem_of_app Hp; [by apply I5|].
      apply list_elem_of_singleton in Hj. by subst j.
    + intros j [Hj|Hj]%elem_of_app; [by apply I6|].
      apply list_elem_of_singleton in Hj. subst j. simpl. split.
      * intros Hp%I7. lia.
      * intros [?|?]; done.
    + intros p Hp%I7. lia.
    + done.
Qed.

(** *** The update pass leaves the schedule alone *)
Section UpdateSchedule.
Variable cls : CustomElementClass.

Lemma coalesced_same i i' :
  jobs i' = jobs i -> _hasRequestedUpdate i' = _hasRequestedUpdate i ->
  allocated i' = allocated i -> _updateRequest i' = _updateRequest i ->
  settled i' = settled i -> passes i' = passes i ->
  coalesced i i'.
Proof. intros. unfold coalesced. tauto. Qed.

Lemma keeps_coalesced_emit e : keeps coalesced (emit e).
Proof. intros i. by apply coalesced_same. Qed.

Lemma keeps_coalesced__reflectProperty k o v : keeps coalesced (_reflectProperty cls k o v).
Proof.
  unfold _reflectProperty. destruct (_getPropertyDeclaration cls k) as [d|]; [|keeps_step].
  destruct (negb _); [keeps_step|].
  destruct (toAttribute _ v) as [[| |s]|]; try keeps_step.
  - apply keeps_removeAttribute; [apply _|]. apply keeps_attributeChangedCallback, _.
  - apply keeps_setAttribute; [apply _|]. apply keeps_attributeChangedCallback, _.
Qed.

Lemma keeps_coalesced_call_method key a b c :
  keeps coalesced (call_method cls (attributeChangedCallback cls) key a b c).
Proof. apply keeps_call_method; [apply _|]. apply keeps_attributeChangedCallback, _. Qed.

Lemma keeps_coalesced_reflectProperty k o v : keeps coalesced (reflectProperty cls k o v).
Proof.
  unfold reflectProperty. keeps_step; [apply keeps_coalesced_emit|].
  destruct (_getPropertyDeclaration cls k) as [d|]; [|keeps_step].
  keeps_step. keeps_step; [apply keeps_set_isReflecting, _|].
  keeps_step; [|apply keeps_set_isReflecting, _].
  destruct (reflectProperty_option d).
  - apply keeps_coalesced__reflectProperty.
  - keeps_step. apply keeps_coalesced_call_method.
  - repeat keeps_step; [apply keeps_coalesced_emit | apply keeps_script, _].
Qed.

Lemma keeps_coalesced_notifyProperty k o v : keeps coalesced (notifyProperty cls k o v).
Proof.
  unfold notifyProperty. keeps_step; [apply keeps_coalesced_emit|].
  destruct (_getPropertyDeclaration cls k) as [d|]; [|keeps_step].
  keeps_step. destruct (notify d).
  - apply keeps_coalesced_emit.
  - keeps_step. apply keeps_coalesced_call_method.
  - repeat keeps_step; [apply keeps_coalesced_emit | apply keeps_script, _].
Qed.

Lemma keeps_forEach (R : relation Instance) `{!PreOrder R} entries callback :
  (forall k o v, keeps R (callback k o v)) -> keeps R (forEach entries callback).
Proof.
  intros H. induction entries as [|[k o] entries IH]; simpl; repeat keeps_step; done.
Qed.

Lemma keeps_coalesced_update : keeps coalesced (update cls).
Proof.
  unfold update, render, updateCallback, _notifyLifecycle.
  repeat keeps_step;
    first [ apply keeps_coalesced_emit
          | apply keeps_forEach; [apply _|];
            first [apply keeps_coalesced_reflectProperty | apply keeps_coalesced_notifyProperty]
          | (intros i; by apply coalesced_same) ].
Qed.

Lemma keeps_coalesced_watch_loop previous entries :
  keeps coalesced (watch_loop cls previous entries).
Proof.
  induction entries as [|[k o] entries IH]; simpl; [keeps_step|].
  keeps_step; [|keeps_step; [keeps_step|exact IH]].
  - destruct (map_get previous k); [|keeps_step].
    intros i. unfold hasChanged. repeat case_match; reflexivity.
  - intros i. by apply coalesced_same.
Qed.

Lemma keeps_coalesced_watch executor : keeps coalesced (watch cls executor).
Proof.
  unfold watch. repeat keeps_step;
    first [apply keeps_script, _ | apply keeps_coalesced_watch_loop].
Qed.
End UpdateSchedule.

(** *** The scheduler steps keep the invariant *)

Lemma find_job_Some p i j :
  find_job p i = Some j -> j ∈ jobs i /\ ownRequest j = p.
Proof.
  unfold find_job. intros H. apply find_some in H as [Hin Hp].
  apply list_elem_of_In in Hin. by apply bool_decide_eq_true in Hp.
Qed.

Lemma nodup_job_eq (l : list Job) j1 j2 :
  NoDup (ownRequest <$> l) -> j1 ∈ l -> j2 ∈ l ->
  ownRequest j1 = ownRequest j2 -> j1 = j2.
Proof.
  induction l as [|j l IH]; simpl; intros Hnd H1 H2 E; [by apply elem_of_nil in H1|].
  apply NoDup_cons in Hnd as [Hj Hnd].
  apply elem_of_cons in H1 as [->|H1]; apply elem_of_cons in H2 as [->|H2]; try done.
  - exfalso. apply Hj. rewrite E. apply list_elem_of_fmap. eauto.
  - exfalso. apply Hj. rewrite <- E. apply list_elem_of_fmap. eauto.
  - by apply IH.
Qed.

Lemma set_phase_ids p ph i :
  ownRequest <$> jobs (set_phase p ph i) = ownRequest <$> jobs i.
Proof.
  unfold set_phase. simpl. rewrite <- list_fmap_compose.
  apply list_fmap_ext. intros ? j _. simpl. by case_bool_decide.
Qed.

Lemma set_phase_elem p ph i j0 j' :
  NoDup (ownRequest <$> jobs i) -> find_job p i = Some j0 ->
  j' ∈ jobs (set_phase p ph i) ->
  j' = with_phase ph j0 \/ (j' ∈ jobs i /\ ownRequest j' <> p).
Proof.
  intros Hnd [H0 E0]%find_job_Some Hj'. unfold set_phase in Hj'. simpl in Hj'.
  apply list_elem_of_fmap in Hj' as (j & -> & Hj). case_bool_decide as E.
  - left. assert (j = j0) as ->; [|done].
    apply (nodup_job_eq (jobs i)); try done. congruence.
  - by right.
Qed.

Lemma set_phase_elem_of p ph i j :
  j ∈ jobs i ->
  exists j', j' ∈ jobs (set_phase p ph i) /\ ownRequest j' = ownRequest j /\
             (ownRequest j = p -> phase j' = ph) /\ (ownRequest j <> p -> j' = j).
Proof.
  intros Hj. exists (if bool_decide (ownRequest j = p) then with_phase ph j else j).
  split.
  - unfold set_phase. simpl. apply list_elem_of_fmap. exists j. done.
  - case_bool_decide; simpl; done.
Qed.

Lemma scheduler_invariant_resume_previous p i :
  scheduler_invariant i -> scheduler_invariant (resume_previous p i).
Proof.
  intros Hi. unfold resume_previous.
  destruct (find_job p i) as [j0|] eqn:Hfind; [|done].
  destruct (phase j0) eqn:Hph; try done.
  destruct (settled i !! previousRequest j0); [|done].
  destruct Hi as [I0 I1 I2 I3 I4 I5 I6 I7 I8].
  destruct (find_job_Some _ _ _ Hfind) as [H0 E0].
  assert (Hel := fun j' => set_phase_elem p AwaitingFrame i j0 j' I2 Hfind).
  split; try done.
  - intros j' [->|[Hj _]]%Hel; [apply (I1 j0 H0) | by apply I1].
  - by rewrite set_phase_ids.
  - intros j' [->|[Hj _]]%Hel Hu; [|by apply I3].
    apply (I3 j0 H0). unfold unfinished. by rewrite Hph.
  - intros F. destruct (I4 F) as (j & Hj & E & Hu).
    destruct (set_phase_elem_of p AwaitingFrame i j Hj) as (j' & Hj' & E' & Hp & Hnp).
    exists j'. split; [done|]. split; [simpl; congruence|].
    destruct (decide (ownRequest j = p)) as [Ep|Ep].
    + unfold unfinished. by rewrite (Hp Ep).
    + by rewrite (Hnp Ep).
  - intros j' [->|[Hj _]]%Hel Hr; [|by apply I5].
    apply (I5 j0 H0). by rewrite Hph.
  - intros j' [->|[Hj _]]%Hel; [|by apply I6].
    simpl. rewrite (I6 j0 H0), Hph. split; intros [?|?]; done.
Qed.

Lemma scheduler_invariant_resume_result p i :
  scheduler_invariant i -> scheduler_invariant (resume_result p i).
Proof.
  intros Hi. unfold resume_result.
  destruct (find_job p i) as [j0|] eqn:Hfind; [|done].
  destruct (phase j0) eqn:Hph; try done.
  destruct Hi as [I0 I1 I2 I3 I4 I5 I6 I7 I8].
  destruct (find_job_Some _ _ _ Hfind) as [H0 E0].
  set (i1 := set_settled _ i).
  assert (Hel := fun j' => set_phase_elem p Resolved i1 j0 j' I2 Hfind).
  split; try done.
  - intros j' [->|[Hj _]]%Hel; [apply (I1 j0 H0) | by apply I1].
  - by rewrite set_phase_ids.
  - intros j' [->|[Hj _]]%Hel Hu; [done|by apply I3].
  - intros F. destruct (I4 F) as (j & Hj & E & Hu).
    destruct (set_phase_elem_of p Resolved i1 j Hj) as (j' & Hj' & E' & Hp & Hnp).
    exists j'. split; [done|]. split; [simpl; congruence|].
    destruct (decide (ownRequest j = p)) as [Ep|Ep]; [|by rewrite (Hnp Ep)].
    assert (j = j0) as -> by (apply (nodup_job_eq (jobs i)); try done; congruence).
    unfold unfinished in Hu. by rewrite Hph in Hu.
  - intros j' [->|[Hj Hne]]%Hel Hr; [done|].
    simpl. rewrite lookup_insert_ne; [by apply I5 | done].
  - intros j' [->|[Hj _]]%Hel; [|by apply I6].
    simpl. rewrite (I6 j0 H0), Hph. split; intros _; [by right | by left].
  - simpl. intros q b Hq. destruct (decide (q = p)) as [->|Hne].
    + right. rewrite <- E0. apply (I6 j0 H0). by left.
    + rewrite lookup_insert_ne in Hq; [by eapply I8 | done].
Qed.

Lemma _scheduleUpdate_callback_cases cls i :
  _scheduleUpdate_callback cls i =
  match update cls i with
  | Normal _ u => Normal tt (cleaned u)
  | Abrupt e u => Abrupt e u
  end.
Proof.
  unfold _scheduleUpdate_callback, bind, modify. by destruct (update cls i).
Qed.

(** While an update is requested, the pass body cannot touch the schedule. *)
Lemma update_requested cls i :
  _hasRequestedUpdate i = true ->
  let u := final (update cls i) in
  jobs u = jobs i /\ _hasRequestedUpdate u = true /\ allocated u = allocated i /\
  _updateRequest u = _updateRequest i /\ settled u = settled i /\ passes u = passes i.
Proof.
  intros F u. subst u.
  destruct (keeps_coalesced_update cls i) as (S & P & [(J & F' & A & U)|(F' & _)]).
  - repeat split; try done. congruence.
  - congruence.
Qed.

Lemma scheduler_invariant_animation_frame cls p i :
  scheduler_invariant i -> scheduler_invariant (animation_frame cls p i).
Proof.
  intros Hi. unfold animation_frame.
  destruct (find_job p i) as [j0|] eqn:Hfind; [|done].
  destruct (phase j0) eqn:Hph; try done.
  destruct Hi as [I0 I1 I2 I3 I4 I5 I6 I7 I8].
  destruct (find_job_Some _ _ _ Hfind) as [H0 E0].
  assert (Hu0 : unfinished j0 = true) by (unfold unfinished; by rewrite Hph).
  destruct (I3 j0 H0 Hu0) as [EU F].
  destruct (update_requested cls i F) as (J & F' & A & U & S & P).
  rewrite _scheduleUpdate_callback_cases.
  destruct (update cls i) as [[] u|e u]; simpl in *.
  - set (i1 := set_passes _ _).
    assert (Hfind1 : find_job p i1 = Some j0) by (unfold find_job; simpl; by rewrite J).
    assert (Hnd1 : NoDup (ownRequest <$> jobs i1)) by (simpl; by rewrite J).
    assert (Hel := fun j' => set_phase_elem p AwaitingResult i1 j0 j' Hnd1 Hfind1).
    split.
    + simpl. by rewrite A.
    + simpl allocated. rewrite A. intros j' [->|[Hj _]]%Hel; [apply (I1 j0 H0)|].
      simpl in Hj. rewrite J in Hj. by apply I1.
    + rewrite set_phase_ids. simpl. by rewrite J.
    + intros j' [->|[Hj Hne]]%Hel Hu; [done|]. simpl in Hj. rewrite J in Hj.
      destruct (I3 j' Hj Hu) as [E _]. congruence.
    + done.
    + simpl settled. rewrite S. intros j' [->|[Hj _]]%Hel Hr; [by apply (I5 j0 H0); rewrite Hph|].
      simpl in Hj. rewrite J in Hj. by apply I5.
    + simpl passes. rewrite P. intros j' [->|[Hj Hne]]%Hel.
      * simpl. split; [by left|]. intros _. apply elem_of_app. right.
        apply list_elem_of_singleton. done.
      * simpl in Hj. rewrite J in Hj. rewrite <- (I6 j' Hj). rewrite elem_of_app.
        split; [|by left]. intros [?|Hq%list_elem_of_singleton]; done.
    + simpl passes. simpl allocated. rewrite P, A. intros q [Hq|Hq%list_elem_of_singleton]%elem_of_app; [by apply I7|].
      subst q. rewrite <- E0. apply (I1 j0 H0).
    + simpl passes. simpl settled. rewrite S, P. intros q b Hq. destruct (I8 q b Hq) as [?|?]; [by left|].
      right. apply elem_of_app. by left.
  - assert (Hfind1 : find_job p u = Some j0) by (unfold find_job; by rewrite J).
    assert (Hnd1 : NoDup (ownRequest <$> jobs u)) by (by rewrite J).
    assert (Hel := fun j' => set_phase_elem p Aborted u j0 j' Hnd1 Hfind1).
    split.
    + simpl. by rewrite A.
    + simpl allocated. rewrite A. intros j' [->|[Hj _]]%Hel; [apply (I1 j0 H0)|].
      rewrite J in Hj. by apply I1.
    + rewrite set_phase_ids. by rewrite J.
    + simpl _updateRequest. simpl _hasRequestedUpdate. rewrite U, F'.
      intros j' [->|[Hj Hne]]%Hel Hu; [done|]. rewrite J in Hj.
      split; [by apply I3 | done].
    + intros _. simpl _updateRequest. rewrite U.
      destruct (set_phase_elem_of p Aborted u j0) as (j' & Hj' & E' & Hp & _);
        [by rewrite J|].
      exists j'. split; [done|]. split; [congruence|].
      unfold unfinished. by rewrite (Hp E0).
    + simpl settled. rewrite S.
      intros j' [->|[Hj _]]%Hel Hr; [by apply (I5 j0 H0); rewrite Hph|].
      rewrite J in Hj. by apply I5.
    + simpl passes. rewrite P. intros j' [->|[Hj Hne]]%Hel.
      * simpl. rewrite (I6 j0 H0), Hph. split; intros [?|?]; done.
      * rewrite J in Hj. by apply I6.
    + simpl passes. simpl allocated. rewrite P, A. done.
    + simpl passes. simpl settled. rewrite S, P. done.
Qed.

Lemma scheduler_invariant_react cls s i :
  scheduler_invariant i -> scheduler_invariant (react cls s i).
Proof.
  intros Hi. destruct s; simpl.
  - eapply scheduler_invariant_coalesced; [|done]. apply keeps_script, _.
  - eapply scheduler_invariant_coalesced; [|done]. apply keeps_coalesced_watch.
  - by apply scheduler_invariant_resume_previous.
  - by apply scheduler_invariant_animation_frame.
  - by apply scheduler_invariant_resume_result.
Qed.

Lemma scheduler_invariant_run cls l i :
  scheduler_invariant i -> scheduler_invariant (run cls l i).
Proof.
  revert i. induction l as [|s l IH]; intros i Hi; simpl; [done|].
  apply IH. by apply scheduler_invariant_react.
Qed.

Lemma scheduled_unfinished j : scheduled j = true -> unfinished j = true.
Proof. unfold scheduled, unfinished. by destruct (phase j). Qed.

Lemma at_most_one_scheduled (l : list Job) r :
  NoDup (ownRequest <$> l) ->
  (forall j, j ∈ l -> scheduled j = true -> ownRequest j = r) ->
  length (List.filter scheduled l) <= 1.
Proof.
  induction l as [|j l IH]; simpl; intros Hnd H; [lia|].
  apply NoDup_cons in Hnd as [Hj Hnd].
  assert (IH' := IH Hnd (fun j' Hj' => H j' (list_elem_of_further _ _ _ Hj'))).
  destruct (scheduled j) eqn:E; [|done]. simpl.
  assert (List.filter scheduled l = []) as ->; [|simpl; lia].
  destruct (List.filter scheduled l) as [|j' ?] eqn:Ef; [done|]. exfalso.
  assert (Hin : In j' (List.filter scheduled l)) by (rewrite Ef; by left).
  apply filter_In in Hin as [Hin Hs]. apply list_elem_of_In in Hin.
  apply Hj. apply list_elem_of_fmap. exists j'. split; [|done].
  rewrite (H j (list_elem_of_here _ _) E).
  symmetry. apply H; [by apply list_elem_of_further | done].
Qed.

Lemma scheduler_invariant_pending i :
  scheduler_invariant i -> pending_passes i <= 1.
Proof.
  intros [I0 I1 I2 I3 I4 I5 I6 I7 I8].
  apply (at_most_one_scheduled _ (_updateRequest i)); [done|].
  intros j Hj Hs. by apply I3, scheduled_unfinished.
Qed.

Lemma resume_previous_requested p i :
  _hasRequestedUpdate (resume_previous p i) = _hasRequestedUpdate i.
Proof. unfold resume_previous. by repeat case_match. Qed.

Lemma resume_result_requested p i :
  _hasRequestedUpdate (resume_result p i) = _hasRequestedUpdate i.
Proof. unfold resume_result. by repeat case_match. Qed.

(** The pass that lowers [_hasRequestedUpdate] is the one that completes. *)
Lemma react_lowers_requested cls s i :
  _hasRequestedUpdate i = true -> _hasRequestedUpdate (react cls s i) = false ->
  exists p, s = AnimationFrame p /\ passes (react cls s i) = (passes i ++ [p])%list.
Proof.
  intros F F'. destruct s as [s|ex|p|p|p]; simpl in *.
  - destruct (keeps_script coalesced cls s i) as (_ & _ & [(_ & E & _)|(E & _)]); congruence.
  - destruct (keeps_coalesced_watch cls ex i) as (_ & _ & [(_ & E & _)|(E & _)]); congruence.
  - rewrite resume_previous_requested in F'. congruence.
  - exists p. split; [done|]. unfold animation_frame in *.
    destruct (find_job p i) as [j0|]; [|congruence].
    destruct (phase j0); try congruence.
    destruct (update_requested cls i F) as (J & Fu & A & U & S & P).
    rewrite _scheduleUpdate_callback_cases in *.
    destruct (update cls i) as [[] u|e u]; simpl in *; congruence.
  - rewrite resume_result_requested in F'. congruence.
Qed.

(** A synchronous turn enqueues at most one job. *)
Lemma turn_enqueues_once cls (s : Script) i :
  scheduler_invariant i -> _hasRequestedUpdate i = false ->
  let i' := react cls (Turn s) i in
  (jobs i' = jobs i /\ _hasRequestedUpdate i' = false) \/
  (exists j, jobs i' = (jobs i ++ [j])%list /\ phase j = AwaitingPrevious /\
             _hasRequestedUpdate i' = true /\ pending_passes i' = 1).
Proof.
  intros Hi F i'.
  assert (Hi' : scheduler_invariant i') by (by apply scheduler_invariant_react).
  destruct (keeps_script coalesced cls s i) as (_ & _ & [(J & E & _)|(_ & E & J & _)]).
  - left. split; [done|]. subst i'. simpl. congruence.
  - right. eexists. split; [exact J|]. split; [done|]. split; [done|].
    apply Nat.le_antisymm; [by apply scheduler_invariant_pending|].
    unfold pending_passes. subst i'. simpl. rewrite J, List.filter_app, length_app.
    simpl. lia.
Qed.

(** A request that passes its guard raises [_hasRequestedUpdate]. *)
Lemma requestUpdate_effective cls k o v i p i' :
  requestUpdate cls k o v i = Normal p i' ->
  opt_key_truthy k = false \/
    (exists key, k = Some key /\ hasChanged cls key o v i = Normal true i) ->
  _hasRequestedUpdate i' = true /\ p = _updateRequest i'.
Proof.
  intros H [Hk|(key & -> & Hc)]; revert H.
  - destruct k as [key|]; simpl in Hk; unfold requestUpdate; rewrite ?Hk;
      unfold bind, gets, when, _enqueueUpdate, bind, gets, modify, ret;
      intros; repeat case_match; simplify_eq/=; try done;
      match goal with H : negb ?b = false |- ?b = true /\ _ => by destruct b end.
  - unfold requestUpdate. destruct (key_truthy key).
    + unfold bind at 1. rewrite Hc. simpl.
      unfold bind, gets, when, _enqueueUpdate, bind, gets, modify, ret;
        intros; repeat case_match; simplify_eq/=; try done;
        match goal with H : negb ?b = false |- ?b = true /\ _ => by destruct b end.
    + unfold bind, gets, when, _enqueueUpdate, bind, gets, modify, ret;
        intros; repeat case_match; simplify_eq/=; try done;
        match goal with H : negb ?b = false |- ?b = true /\ _ => by destruct b end.
Qed.

Lemma requestUpdate_returns cls k o v i p i' :
  requestUpdate cls k o v i = Normal p i' -> p = _updateRequest i'.
Proof.
  unfold requestUpdate, hasChanged, _enqueueUpdate, bind, gets, modify, when, ret, throw.
  intros H. repeat case_match; simplify_eq/=; done.
Qed.

Lemma requestUpdate_unchanged cls key o v i :
  key_truthy key = true -> hasChanged cls key o v i = Normal false i ->
  requestUpdate cls (Some key) o v i = Normal (_updateRequest i) i.
Proof.
  intros Hk Hc. unfold requestUpdate. rewrite Hk. unfold bind at 1. by rewrite Hc.
Qed.

(** Only the continuation of [await result] settles a promise, with the
    negation of the flag it reads. *)
Lemma react_settles cls s i p b :
  settled i !! p = None -> settled (react cls s i) !! p = Some b ->
  s = ResumeResult p /\ b = negb (_hasRequestedUpdate i).
Proof.
  intros Hn Hs. destruct s as [s|ex|q|q|q]; simpl in *.
  - destruct (keeps_script coalesced cls s i) as (E & _). congruence.
  - destruct (keeps_coalesced_watch cls ex i) as (E & _). congruence.
  - unfold resume_previous in Hs. repeat case_match; simpl in *; congruence.
  - unfold animation_frame in Hs.
    destruct (find_job q i) as [j|]; [|congruence].
    destruct (phase j); try congruence.
    destruct (keeps_coalesced_update cls i) as (E & _).
    rewrite _scheduleUpdate_callback_cases in Hs.
    destruct (update cls i) as [[] u|e u]; simpl in *; congruence.
  - unfold resume_result in Hs. repeat case_match; simpl in *; try congruence.
    destruct (decide (q = p)) as [->|Hne].
    + rewrite lookup_insert_eq in Hs. by simplify_eq.
    + rewrite lookup_insert_ne in Hs; [congruence | done].
Qed.

(** ** Update scheduling *)

(** C2.  On every instance, after any sequence of turns, [watch] calls and
    scheduler steps: at most one update pass is pending; while
    [_hasRequestedUpdate] is set, a [requestUpdate] call enqueues nothing and
    keeps the promise of the pass already scheduled, so a pass is enqueued
    only when the flag is clear; the flag, once set, is cleared only by the
    animation frame that completes that pass; a synchronous turn started
    with the flag clear either requests nothing or ends with exactly one job
    enqueued and exactly one pass pending, whatever the number of writes in
    it, a request that passes its guard being enough to set the flag; and a
    turn started with the flag set enqueues nothing. *)
Theorem C2_at_most_one_pending_pass (cls : CustomElementClass) (l : list Stimulus) :
  let i := run cls l constructed in
  pending_passes i <= 1
  /\ (forall k o v, _hasRequestedUpdate i = true ->
        let i' := final (requestUpdate cls k o v i) in
        jobs i' = jobs i /\ _hasRequestedUpdate i' = true /\
        _updateRequest i' = _updateRequest i)
  /\ (forall k o v, jobs (final (requestUpdate cls k o v i)) <> jobs i ->
        _hasRequestedUpdate i = false)
  /\ (forall s, _hasRequestedUpdate i = true ->
        _hasRequestedUpdate (react cls s i) = false ->
        exists p, s = AnimationFrame p /\ passes (react cls s i) = (passes i ++ [p])%list)
  /\ (forall s : Script, _hasRequestedUpdate i = false ->
        let i' := react cls (Turn s) i in
        (jobs i' = jobs i /\ _hasRequestedUpdate i' = false) \/
        (exists j, jobs i' = (jobs i ++ [j])%list /\ phase j = AwaitingPrevious /\
                   _hasRequestedUpdate i' = true /\ pending_passes i' = 1))
  /\ (forall k o v p i', requestUpdate cls k o v i = Normal p i' ->
        opt_key_truthy k = false \/
          (exists key, k = Some key /\ hasChanged cls key o v i = Normal true i) ->
        _hasRequestedUpdate i' = true)
  /\ (forall s : Script, _hasRequestedUpdate i = true ->
        let i' := react cls (Turn s) i in
        jobs i' = jobs i /\ _hasRequestedUpdate i' = true /\
        _updateRequest i' = _updateRequest i).
Proof.
  intros i.
  assert (Hi : scheduler_invariant i)
    by apply scheduler_invariant_run, scheduler_invariant_constructed.
  split; [by apply scheduler_invariant_pending|].
  split; [|split; [|split; [|split; [|split]]]].
  6:{ intros s F i'. subst i'. simpl.
      destruct (keeps_script coalesced cls s i) as (_ & _ & [(J & E & _ & U)|(E & _)]);
        [|congruence].
      repeat split; congruence. }
  - intros k o v F i'.
    destruct (sync_requestUpdate (R := coalesced) cls k o v i)
      as (_ & _ & [(J & E & _ & U)|(E & _)]); [|congruence].
    subst i'. repeat split; congruence.
  - intros k o v H. destruct (_hasRequestedUpdate i) eqn:F; [|done].
    destruct (sync_requestUpdate (R := coalesced) cls k o v i)
      as (_ & _ & [(J & _)|(E & _)]); congruence.
  - intros s. apply react_lowers_requested.
  - intros s. by apply turn_enqueues_once.
  - intros k o v p i' H He. by destruct (requestUpdate_effective _ _ _ _ _ _ _ H He).
Qed.

(** Two writes in one turn of a fresh counter: one job, one pending pass. *)
Lemma C2_at_most_one_pending_pass_witness :
  let i' := react Counter (Turn [ActSetProperty (KString "count") (VNumber 5);
                                 ActSetProperty (KString "count") (VNumber 7)])
                  (run Counter [] constructed) in
  exists j, jobs i' = [j] /\ phase j = AwaitingPrevious /\
            _hasRequestedUpdate i' = true /\ pending_passes i' = 1.
Proof.
  destruct (C2_at_most_one_pending_pass Counter []) as (_ & _ & _ & _ & H & _).
  destruct (H [ActSetProperty (KString "count") (VNumber 5);
               ActSetProperty (KString "count") (VNumber 7)] eq_refl)
    as [[_ F]|Hj]; [discriminate F | exact Hj].
Defined.

(** C5, the claim as stated fails: a request whose change is not detected
    returns the promise the instance was constructed with, which is settled
    although no pass has run. *)
Lemma C5_counterexample :
  requestUpdate Counter (Some (KString "count")) (VNumber 1) (VNumber 1) constructed
    = Normal 0 constructed
  /\ settled constructed !! 0 = Some true
  /\ passes constructed = [].
Proof. vm_compute. done. Qed.

(** A request made while the pass runs is not signalled either: the
    notifier of [a] writes [b] during the pass; the write is in the map the
    update hook receives, but the pass then clears it, no pass is pending
    for it, attribute [b] is never set, and the promise is settled with
    [true]. *)
Lemma pass_drops_requests_made_during_it :
  let i := react Echo (Watch [ActSetProperty (KString "a") (VString "x")]) constructed in
  let i' := run Echo (pass 1) i in
  get_property (KString "b") i' = VString "x"
  /\ FxUpdateCallback [(KString "a", VUndefined); (KString "b", VUndefined)] true
       ∈ effects i'
  /\ _changedProperties i' = [] /\ _reflectingProperties i' = []
  /\ pending_passes i' = 0 /\ _hasRequestedUpdate i' = false
  /\ dom i' !! "a" = Some "x" /\ dom i' !! "b" = None
  /\ settled i' !! 1 = Some true.
Proof. vm_compute. repeat split; try done. repeat constructor. Qed.

(** A request that arrives after the frame callback and before the
    continuation of [await result] is the one the promise signals, with
    [false]. *)
Lemma promise_signals_request_after_pass :
  let i := run Counter [Turn [ActSetProperty (KString "count") (VNumber 0)];
                        ResumePrevious 1; AnimationFrame 1;
                        Turn [ActSetProperty (KString "count") (VNumber 5)];
                        ResumeResult 1] constructed in
  settled i !! 1 = Some false /\ pending_passes i = 1 /\ _updateRequest i = 2.
Proof. vm_compute. done. Qed.

(** The frame that completes a pass clears the request flag and the three
    maps, whatever was requested while the pass ran. *)
Lemma animation_frame_clears cls q i :
  passes (animation_frame cls q i) <> passes i ->
  passes (animation_frame cls q i) = (passes i ++ [q])%list
  /\ _hasRequestedUpdate (animation_frame cls q i) = false
  /\ _changedProperties (animation_frame cls q i) = []
  /\ _reflectingProperties (animation_frame cls q i) = []
  /\ _notifyingProperties (animation_frame cls q i) = [].
Proof.
  unfold animation_frame. destruct (find_job q i) as [j|]; [|done].
  destruct (phase j); try done.
  rewrite _scheduleUpdate_callback_cases.
  destruct (keeps_coalesced_update cls i) as (_ & P & _).
  destruct (update cls i) as [[] u|e u]; simpl in *; [|done].
  intros _. by rewrite P.
Qed.

(** C5, amended.  On every instance, after any sequence of turns, [watch]
    calls and scheduler steps, a [requestUpdate] call that returns, returns
    [_updateRequest].  When the call has no truthy key or its change is
    detected, that promise is pending and its pass has not run; it is then
    settled only after its pass has completed, by the continuation of
    [await result] and with the negation of [_hasRequestedUpdate] as read
    there: [true] when no update has been requested since the pass cleared
    the flag, [false] when one has.  When the key is truthy and no change is
    detected, the call changes nothing and returns the current promise.  The
    frame that completes a pass leaves [_hasRequestedUpdate] cleared and the
    three maps empty, so what was requested while the pass ran is cleared
    with it and is not what the promise signals. *)
Theorem C5_promise_of_next_pass (cls : CustomElementClass) (l : list Stimulus)
    (k : option PropertyKey) (o v : Value) (p : nat) (i' : Instance) :
  let i := run cls l constructed in
  requestUpdate cls k o v i = Normal p i' ->
  p = _updateRequest i'
  /\ (opt_key_truthy k = false \/
        (exists key, k = Some key /\ hasChanged cls key o v i = Normal true i) ->
      settled i' !! p = None /\ (p ∉ passes i') /\
      forall l', let i'' := run cls l' i' in
        (forall b, settled i'' !! p = Some b -> p ∈ passes i'') /\
        (forall s b, settled i'' !! p = None ->
                     settled (react cls s i'') !! p = Some b ->
                     s = ResumeResult p /\ b = negb (_hasRequestedUpdate i'')))
  /\ (forall key, k = Some key -> key_truthy key = true ->
        hasChanged cls key o v i = Normal false i ->
        i' = i /\ p = _updateRequest i)
  /\ (forall l' q,
        let i'' := run cls l' i' in
        let i3 := react cls (AnimationFrame q) i'' in
        passes i3 <> passes i'' ->
        passes i3 = (passes i'' ++ [q])%list
        /\ _hasRequestedUpdate i3 = false
        /\ _changedProperties i3 = []
        /\ _reflectingProperties i3 = []
        /\ _notifyingProperties i3 = []).
Proof.
  intros i H.
  assert (Hi : scheduler_invariant i)
    by apply scheduler_invariant_run, scheduler_invariant_constructed.
  assert (Hi' : scheduler_invariant i').
  { eapply scheduler_invariant_coalesced; [|exact Hi].
    pose proof (sync_requestUpdate (R := coalesced) cls k o v i) as Hc.
    by rewrite H in Hc. }
  split; [by eapply requestUpdate_returns|]. split; [|split].
  3:{ intros l' q i'' i3. apply animation_frame_clears. }
  - intros He. destruct (requestUpdate_effective _ _ _ _ _ _ _ H He) as [F ->].
    destruct (inv_current _ Hi' F) as (j & Hj & E & Hu).
    assert (phase j <> Resolved /\ phase j <> AwaitingResult) as [Hr Ha].
    { unfold unfinished in Hu. by destruct (phase j). }
    split; [rewrite <- E; by apply (inv_pending _ Hi' j Hj)|].
    split.
    { rewrite <- E. intros Hp. apply (inv_passes _ Hi' j Hj) in Hp. tauto. }
    intros l' i''.
    assert (Hi'' : scheduler_invariant i'') by (by apply scheduler_invariant_run).
    split; [|intros s b; apply react_settles].
    intros b Hb. destruct (inv_settled _ Hi'' _ _ Hb) as [Z|?]; [|done].
    pose proof (inv_ids _ Hi' j Hj). lia.
  - intros key -> Hk Hc. rewrite (requestUpdate_unchanged _ _ _ _ _ Hk Hc) in H.
    by simplify_eq.
Qed.

(** A counter set to [0] and updated, then asked for an update: the promise
    returned is pending, its pass settles it with [true], and the frame of
    that pass leaves the request flag cleared. *)
Lemma C5_promise_of_next_pass_witness :
  let i := run Counter (Turn [ActSetProperty (KString "count") (VNumber 0)] :: pass 1)
             constructed in
  let i' := final (requestUpdate Counter (Some (KString "count")) (VNumber 0) (VNumber 5) i) in
  settled i' !! 2 = None /\ (2 ∉ passes i') /\
  (2 ∈ passes (run Counter (pass 2) i')) /\
  settled (run Counter (pass 2) i') !! 2 = Some true /\
  _hasRequestedUpdate (run Counter [ResumePrevious 2; AnimationFrame 2] i') = false.
Proof.
  intros i i'.
  assert (Hreq : requestUpdate Counter (Some (KString "count")) (VNumber 0) (VNumber 5) i = Normal 2 i') by (vm_compute; reflexivity).
  assert (He : opt_key_truthy (Some (KString "count")) = false \/
               (exists key, Some (KString "count") = Some key /\
                  hasChanged Counter key (VNumber 0) (VNumber 5) i = Normal true i))
    by (right; eexists; split; [reflexivity | vm_compute; reflexivity]).
  destruct (C5_promise_of_next_pass Counter
              (Turn [ActSetProperty (KString "count") (VNumber 0)] :: pass 1)
              (Some (KString "count")) (VNumber 0) (VNumber 5) 2 i' Hreq) as (_ & H & _ & Hc).
  destruct (H He) as (Hn & Hp & Hl).
  split; [exact Hn|]. split; [exact Hp|].
  split; [|split; [vm_compute; reflexivity|]].
  - destruct (Hl (pass 2)) as [Hs _]. apply (Hs true). vm_compute. reflexivity.
  - destruct (Hc [ResumePrevious 2] 2) as (_ & F & _); [vm_compute; discriminate | exact F].
Defined.

(** ** Change detection *)

(** The default detector reports no value as changed against itself, [NaN]
    included. *)
Lemma DEFAULT_PROPERTY_CHANGE_DETECTOR_same v :
  DEFAULT_PROPERTY_CHANGE_DETECTOR v v = Some false.
Proof.
  unfold DEFAULT_PROPERTY_CHANGE_DETECTOR, strict_eq.
  destruct v; simpl; try done; by rewrite bool_decide_eq_true_2.
Qed.

(** C7, the claim as stated fails for a falsy key: the declared property
    named by the empty string has a detector that reports no difference
    between [1] and [1], and still the request enqueues a pass and returns a
    new promise. *)
Lemma C7_counterexample :
  hasChanged Blank (KString "") (VNumber 1) (VNumber 1) constructed = Normal false constructed
  /\ exists p i', requestUpdate Blank (Some (KString "")) (VNumber 1) (VNumber 1) constructed
                  = Normal p i'
       /\ p <> _updateRequest constructed
       /\ jobs i' <> jobs constructed
       /\ pending_passes i' = 1.
Proof.
  split; [vm_compute; reflexivity|]. eexists _, _.
  split; [vm_compute; reflexivity|]. simpl. done.
Qed.

(** C7, amended.  For every truthy property key (any key but the empty
    string and zero) and every value [v], [requestUpdate(key, v, v)] under a
    change detector that reports no difference leaves the instance as it is,
    so no pass is scheduled and no dirty set changes, and returns the current
    [_updateRequest]. *)
Theorem C7_unchanged_request_is_noop (cls : CustomElementClass) (key : PropertyKey)
    (v : Value) (i : Instance) :
  key_truthy key = true ->
  hasChanged cls key v v i = Normal false i ->
  requestUpdate cls (Some key) v v i = Normal (_updateRequest i) i
  /\ let i' := final (requestUpdate cls (Some key) v v i) in
     jobs i' = jobs i /\ pending_passes i' = pending_passes i
     /\ _changedProperties i' = _changedProperties i
     /\ _reflectingProperties i' = _reflectingProperties i
     /\ _notifyingProperties i' = _notifyingProperties i.
Proof.
  intros Hk Hc. rewrite (requestUpdate_unchanged _ _ _ _ _ Hk Hc). done.
Qed.

Lemma C7_unchanged_request_is_noop_witness :
  requestUpdate Counter (Some (KString "count")) (VNumber 1) (VNumber 1) constructed
  = Normal 0 constructed.
Proof.
  apply (C7_unchanged_request_is_noop Counter (KString "count") (VNumber 1) constructed);
    vm_compute; reflexivity.
Defined.

(** C10, the claim as stated fails for a falsy key: the empty string has no
    declaration in [Counter], and a request carrying it enqueues a pass, as
    the key-less request does. *)
Lemma C10_counterexample :
  properties Counter !! KString "" = None
  /\ exists p i', requestUpdate Counter (Some (KString "")) (VNumber 0) (VNumber 1) constructed
                  = Normal p i'
       /\ p <> _updateRequest constructed
       /\ jobs i' <> jobs constructed
       /\ pending_passes i' = 1.
Proof.
  split; [vm_compute; reflexivity|]. eexists _, _.
  split; [vm_compute; reflexivity|]. simpl. done.
Qed.

(** C10, amended.  For a property key with no declaration, or whose
    declaration's [observe] is not a function ([true] included),
    [hasChanged] returns [false]; when the key is truthy (not the empty
    string, not zero), [requestUpdate] with it leaves the instance as it is
    and returns the current [_updateRequest].  A request without a key,
    made while no update is requested, enqueues a pass. *)
Theorem C10_unobserved_request_is_noop (cls : CustomElementClass) (key : PropertyKey)
    (o v : Value) (i : Instance) :
  unobserved cls key ->
  hasChanged cls key o v i = Normal false i
  /\ (key_truthy key = true ->
      requestUpdate cls (Some key) o v i = Normal (_updateRequest i) i)
  /\ (_hasRequestedUpdate i = false ->
      let i' := final (requestUpdate cls None o v i) in
      jobs i' = (jobs i ++ [{| previousRequest := _updateRequest i;
                               ownRequest := allocated i;
                               phase := AwaitingPrevious |}])%list
      /\ _hasRequestedUpdate i' = true).
Proof.
  intros Hu.
  assert (Hc : hasChanged cls key o v i = Normal false i).
  { unfold unobserved in Hu. unfold hasChanged, _getPropertyDeclaration.
    destruct (properties cls !! key) as [d|]; [|done].
    by destruct (observe d). }
  split; [done|]. split.
  - intros Hk. by apply requestUpdate_unchanged.
  - intros F. unfold requestUpdate, bind, gets, when, _enqueueUpdate, bind, gets, modify, ret.
    rewrite F. simpl. done.
Qed.

Lemma C10_unobserved_request_is_noop_witness :
  requestUpdate Counter (Some (KString "size")) (VNumber 0) (VNumber 1) constructed
  = Normal 0 constructed.
Proof.
  assert (Hu : unobserved Counter (KString "size")) by (vm_compute; exact I).
  destruct (C10_unobserved_request_is_noop Counter (KString "size") (VNumber 0) (VNumber 1)
              constructed Hu) as (_ & H & _).
  apply H. reflexivity.
Defined.

(** ** Batched writes *)

Lemma map_get_set {K V} `{EqDecision K} (m : JsMap K V) k v :
  map_get (map_set m k v) k = Some v.
Proof.
  induction m as [|[k' v'] m IH]; simpl.
  - by rewrite decide_True.
  - destruct (decide (k' = k)) as [->|Hne]; simpl.
    + by rewrite decide_True.
    + by rewrite decide_False.
Qed.

Lemma map_get_set_ne {K V} `{EqDecision K} (m : JsMap K V) k k' v :
  k <> k' -> map_get (map_set m k v) k' = map_get m k'.
Proof.
  intros Hne. induction m as [|[k0 v0] m IH]; simpl.
  - by rewrite decide_False.
  - destruct (decide (k0 = k)) as [->|Hne0]; simpl.
    + by rewrite !decide_False.
    + destruct (decide (k0 = k')); done.
Qed.

(** C3, the claim as stated fails: the counter holds [0]; after the writes
    [5] and [7] in one turn the entry for [count] is [5], the value the last
    write replaced, and not [0]. *)
Lemma C3_counterexample :
  let i := run Counter (Turn [ActSetProperty (KString "count") (VNumber 0)] :: pass 1)
             constructed in
  let i' := react Counter (Turn [ActSetProperty (KString "count") (VNumber 5);
                                 ActSetProperty (KString "count") (VNumber 7)]) i in
  get_property (KString "count") i = VNumber 0
  /\ _changedProperties i = []
  /\ get_property (KString "count") i' = VNumber 7
  /\ map_get (_changedProperties i') (KString "count") = Some (VNumber 5)
  /\ map_get (_changedProperties i') (KString "count") <> Some (VNumber 0).
Proof. vm_compute. repeat split; done. Qed.

Lemma set_property_detected cls key d name f detect v i :
  key_truthy key = true ->
  properties cls !! key = Some d ->
  observe d = ObserveFunction name f ->
  (forall a b, f a b = Some (detect a b)) ->
  exists i', set_property cls key v i = Normal tt i'
    /\ get_property key i' = v
    /\ map_get (_changedProperties i') key =
       (if detect (get_property key i) v then Some (get_property key i)
        else map_get (_changedProperties i) key).
Proof.
  intros Hk Hd Ho Hf.
  destruct (set_property cls key v i) as [[] i1|e i1] eqn:E; revert E;
    unfold set_property, requestUpdate, hasChanged, _getPropertyDeclaration;
    rewrite Hd, Hk, Ho;
    unfold bind, gets, modify, when, _enqueueUpdate, bind, gets, modify, ret, throw;
    simpl; rewrite Hf; intros E.
  - exists i1. split; [done|].
    destruct (detect (get_property key i) v); repeat case_match; simplify_eq/=;
      unfold get_property; simpl; rewrite lookup_insert_eq, ?map_get_set; done.
  - repeat case_match; simplify_eq/=.
Qed.

Lemma last_cons_default {A} (l : list A) (x d : A) :
  List.last (x :: l) d = List.last l x.
Proof.
  revert x d. induction l as [|y l IH]; intros x d; [done|].
  change (List.last (y :: l) d = List.last (y :: l) x). by rewrite !IH.
Qed.

(** C3, amended.  For every sequence of synchronous writes to one declared
    property with a truthy key, the writes all complete and the property
    holds the last value written; the entry of [_changedProperties] for the
    key is the value the property held just before the most recent write the
    detector reported as a change, and is the entry from before the batch
    when no write was so reported.  It is not the oldest value of the
    batch. *)
Theorem C3_changedProperties_holds_latest_old (cls : CustomElementClass)
    (key : PropertyKey) (d : PropertyDeclaration) (name : string)
    (f : Value -> Value -> option bool) (detect : Value -> Value -> bool)
    (writes : list Value) (i : Instance) :
  key_truthy key = true ->
  properties cls !! key = Some d ->
  observe d = ObserveFunction name f ->
  (forall a b, f a b = Some (detect a b)) ->
  exists i',
    run_script cls (attributeChangedCallback cls) (map (ActSetProperty key) writes) i
      = Normal tt i'
    /\ get_property key i' = List.last writes (get_property key i)
    /\ map_get (_changedProperties i') key =
       recorded_old detect (get_property key i) writes (map_get (_changedProperties i) key).
Proof.
  intros Hk Hd Ho Hf. revert i.
  induction writes as [|v writes IH]; intros i.
  - exists i. done.
  - destruct (set_property_detected cls key d name f detect v i Hk Hd Ho Hf)
      as (i1 & Hset & Hget & Hrec).
    destruct (IH i1) as (i' & Hrun & Hget' & Hrec').
    exists i'. split; [|split].
    + change (map (ActSetProperty key) (v :: writes))
        with (ActSetProperty key v :: map (ActSetProperty key) writes).
      simpl. unfold bind. by rewrite Hset.
    + rewrite Hget', Hget. by rewrite last_cons_default.
    + rewrite Hrec', Hget, Hrec. done.
Qed.

(** The counter of the scenario: the entry is [5], the value is [7]. *)
Lemma C3_changedProperties_holds_latest_old_witness :
  let i := run Counter (Turn [ActSetProperty (KString "count") (VNumber 0)] :: pass 1)
             constructed in
  exists i',
    run_script Counter (attributeChangedCallback Counter)
      [ActSetProperty (KString "count") (VNumber 5);
       ActSetProperty (KString "count") (VNumber 7)] i = Normal tt i'
    /\ get_property (KString "count") i' = VNumber 7
    /\ map_get (_changedProperties i') (KString "count") = Some (VNumber 5).
Proof.
  intros i.
  assert (Hd : properties Counter !! KString "count"
               = Some (declaration "count" AttributeConverterDefault))
    by (vm_compute; reflexivity).
  destruct (C3_changedProperties_holds_latest_old Counter (KString "count") _
              "DEFAULT_PROPERTY_CHANGE_DETECTOR" DEFAULT_PROPERTY_CHANGE_DETECTOR
              (fun a b => negb (strict_eq a b) && (strict_eq a a || strict_eq b b))
              [VNumber 5; VNumber 7] i eq_refl Hd eq_refl (fun a b => eq_refl))
    as (i' & Hrun & Hget & Hrec).
  exists i'. split; [exact Hrun|]. split; [exact Hget|].
  rewrite Hrec. vm_compute. reflexivity.
Defined.

(** ** Reflection *)

Lemma quiet_same i i' :
  effects i' = effects i -> _notifyingProperties i' = _notifyingProperties i ->
  _hasUpdated i' = _hasUpdated i -> _changedProperties i' = _changedProperties i ->
  quiet i i'.
Proof.
  intros E N U C. split; [|by rewrite C].
  exists []. by rewrite E, app_nil_r.
Qed.

Lemma map_has_set {K V} `{EqDecision K} (m : JsMap K V) k v k' :
  map_has m k' = true -> map_has (map_set m k v) k' = true.
Proof.
  unfold map_has. destruct (decide (k = k')) as [->|Hne].
  - by rewrite map_get_set.
  - by rewrite map_get_set_ne.
Qed.

#[global] Instance quiet_preorder : PreOrder quiet.
Proof.
  split.
  - intros i. by apply quiet_same.
  - intros i1 i2 i3 ((es1 & E1 & Q1) & N1 & U1 & C1) ((es2 & E2 & Q2) & N2 & U2 & C2).
    split; [|split; [congruence|split; [congruence|auto]]].
    exists (es1 ++ es2)%list. rewrite E2, E1, <- app_assoc, forallb_app, Q1, Q2. done.
Qed.

#[global] Instance quiet_sync : SyncClosed quiet.
Proof.
  split; try apply _.
  - intros i f. by apply quiet_same.
  - intros i d. by apply quiet_same.
  - intros i e He. split; [|done]. exists [e]. simpl. by rewrite He.
  - intros cls k o v i.
    requestUpdate_cases; try (by apply quiet_same);
      (split; [by exists []; rewrite app_nil_r|]); simpl;
      (split; [done|]); (split; [done|]); intros k'; apply map_has_set.
Qed.

#[global] Instance quiet_guard : GuardClosed quiet.
Proof. split; [apply _|]. intros i b. by apply quiet_same. Qed.

(** The host callback never queues a reflection. *)
Lemma reflectAttribute_keeps_reflectingProperties cls callback n o v i :
  returns_when_reflecting callback ->
  _reflectingProperties (final (reflectAttribute cls callback n o v i))
  = _reflectingProperties i.
Proof.
  intros Hcb.
  assert (Hg : forall n o v, keeps guarded (callback n o v))
    by (intros; by apply returns_when_reflecting_guarded).
  unfold reflectAttribute. destruct (negb _); [done|].
  destruct (_ ≫= _) as [d|]; [|done].
  destruct (handler_truthy _); [|done]. simpl.
  unfold bind at 1. simpl.
  set (i1 := set_isReflecting true i).
  assert (H1 : _isReflecting i1 = true) by done.
  unfold bind at 1.
  destruct (reflectAttribute_option d) as [b|key|name f].
  - destruct (keeps__reflectAttribute guarded cls n o v i1 H1) as [_ E].
    destruct (_reflectAttribute cls n o v i1); simpl in *; done.
  - unfold rethrow_as.
    destruct (keeps_call_method guarded cls callback Hg key (VString n) (attr_value o)
                (attr_value v) i1 H1) as [_ E].
    destruct (call_method _ _ _ _ _ _ i1); simpl in *; done.
  - unfold rethrow_as, bind at 1, emit, modify.
    set (i2 := set_effects _ i1).
    destruct (keeps_run_script guarded cls callback Hg
                (f (VString n) (attr_value o) (attr_value v)) i2 H1) as [_ E].
    destruct (run_script _ _ _ i2); simpl in *; done.
Qed.

Lemma attributeChangedCallback_keeps_reflectingProperties cls n o v i :
  _reflectingProperties (final (attributeChangedCallback cls n o v i))
  = _reflectingProperties i.
Proof.
  unfold attributeChangedCallback. simpl.
  unfold attributeChangedCallback_body, bind, gets.
  destruct (_isReflecting i); [done|]. unfold when. destruct (negb _); [|done].
  apply reflectAttribute_keeps_reflectingProperties.
  apply attributeChangedCallback_body_reflecting.
Qed.

(** The DOM calls of a reflector running under the guard. *)
Lemma setAttribute_reflecting cls n s i :
  _isReflecting i = true ->
  setAttribute cls (attributeChangedCallback cls) n s i
  = Normal tt (set_effects (effects i ++ [FxSetAttribute n s]) (set_dom (<[n := s]> (dom i)) i)).
Proof.
  intros H. unfold setAttribute, bind, gets, modify, emit, when, modify, reaction. simpl.
  case_bool_decide; [|done]. by rewrite attributeChangedCallback_reflecting.
Qed.

Lemma removeAttribute_reflecting cls n i :
  _isReflecting i = true ->
  removeAttribute cls (attributeChangedCallback cls) n i
  = Normal tt (set_effects (effects i ++ [FxRemoveAttribute n]) (set_dom (delete n (dom i)) i)).
Proof.
  intros H. unfold removeAttribute, bind, gets, modify, emit, when, modify, reaction. simpl.
  destruct (dom i !! n) eqn:E; simpl.
  - case_bool_decide; [|done]. by rewrite attributeChangedCallback_reflecting.
  - rewrite (delete_id _ _ E). by destruct i.
Qed.

(** C4.  For a property whose two directions of reflection both use the
    default handlers, reflecting a value [X] that converts to the string [s]
    sets the attribute to [s], reflecting one that converts to [null]
    removes the attribute, and neither does anything else: the host's call of
    [attributeChangedCallback] for that very change returns at once, so the
    property, the dirty sets and the schedule are as before and the guard is
    down again afterwards.  In general [attributeChangedCallback] returns
    without doing anything whenever [_isReflecting] is set, and whatever it
    does otherwise, the default reflector's property write included, adds
    nothing to [_reflectingProperties]. *)
Theorem C4_no_reflection_feedback (cls : CustomElementClass) (k : PropertyKey)
    (d : PropertyDeclaration) (name s : string) (X : Value) (i : Instance) :
  properties cls !! k = Some d ->
  reflectProperty_option d = HandlerBool true ->
  reflectAttribute_option d = HandlerBool true ->
  attribute d = AttributeName name -> name <> "" ->
  attributes cls !! name = Some k ->
  name ∈ observedAttributes cls ->
  toAttribute (converter d) X = Some (AttrString s) ->
  (forall old, exists i',
      reflectProperty cls k old X i = Normal tt i'
      /\ dom i' = <[name := s]> (dom i)
      /\ effects i' = (effects i ++ [FxReflectProperty k old X; FxSetAttribute name s])%list
      /\ storage i' = storage i
      /\ _changedProperties i' = _changedProperties i
      /\ _reflectingProperties i' = _reflectingProperties i
      /\ _notifyingProperties i' = _notifyingProperties i
      /\ jobs i' = jobs i
      /\ _hasRequestedUpdate i' = _hasRequestedUpdate i
      /\ _isReflecting i' = false)
  /\ (forall old Y, toAttribute (converter d) Y = Some AttrNull -> exists i',
      reflectProperty cls k old Y i = Normal tt i'
      /\ dom i' = delete name (dom i)
      /\ effects i' = (effects i ++ [FxReflectProperty k old Y; FxRemoveAttribute name])%list
      /\ storage i' = storage i
      /\ _changedProperties i' = _changedProperties i
      /\ _reflectingProperties i' = _reflectingProperties i
      /\ _notifyingProperties i' = _notifyingProperties i
      /\ jobs i' = jobs i
      /\ _hasRequestedUpdate i' = _hasRequestedUpdate i
      /\ _isReflecting i' = false)
  /\ (forall n o v i0, _isReflecting i0 = true ->
        attributeChangedCallback cls n o v i0 = Normal tt i0)
  /\ (forall n o v i0,
        _reflectingProperties (final (attributeChangedCallback cls n o v i0))
        = _reflectingProperties i0).
Proof.
  intros Hd Hrp _ Ha Hne _ _ Hto. split; [|split; [|split]].
  2:{ intros old Y HY. eexists. split.
      + unfold reflectProperty, _getPropertyDeclaration. rewrite Hd, Hrp. simpl.
        unfold bind at 1, emit, modify. unfold bind at 1. simpl.
        unfold _reflectProperty, _getPropertyDeclaration. rewrite Hd, Ha. simpl.
        assert (String.eqb name "" = false) as -> by (by apply String.eqb_neq).
        simpl. rewrite HY. unfold bind. rewrite removeAttribute_reflecting by done.
        reflexivity.
      + simpl. rewrite <- app_assoc. done. }
  - intros old. eexists. split.
    + unfold reflectProperty, _getPropertyDeclaration. rewrite Hd, Hrp. simpl.
      unfold bind at 1, emit, modify. unfold bind at 1. simpl.
      unfold _reflectProperty, _getPropertyDeclaration. rewrite Hd, Ha. simpl.
      assert (String.eqb name "" = false) as -> by (by apply String.eqb_neq).
      simpl. rewrite Hto. unfold bind. rewrite setAttribute_reflecting by done.
      reflexivity.
    + simpl. rewrite <- app_assoc. done.
  - apply attributeChangedCallback_reflecting.
  - apply attributeChangedCallback_keeps_reflectingProperties.
Qed.

(** Reflecting [checked = true] on the checkbox sets the attribute and
    leaves the property alone. *)
Lemma C4_no_reflection_feedback_witness :
  exists i',
    reflectProperty Checkbox (KString "checked") (VBool false) (VBool true) constructed
      = Normal tt i'
    /\ dom i' = <["checked" := "true"]> (dom constructed)
    /\ storage i' = storage constructed
    /\ _changedProperties i' = []
    /\ _isReflecting i' = false.
Proof.
  assert (Hd : properties Checkbox !! KString "checked"
               = Some (declaration "checked" AttributeConverterBoolean))
    by (vm_compute; reflexivity).
  assert (Ha : attributes Checkbox !! "checked" = Some (KString "checked"))
    by (vm_compute; reflexivity).
  assert (Ho : "checked" ∈ observedAttributes Checkbox)
    by (apply list_elem_of_singleton; reflexivity).
  destruct (C4_no_reflection_feedback Checkbox (KString "checked") _ "checked" "true"
              (VBool true) constructed Hd eq_refl eq_refl eq_refl
              ltac:(discriminate) Ha Ho eq_refl) as (H & _).
  destruct (H (VBool false)) as (i' & Hr & Hdom & _ & Hs & Hc & _ & _ & _ & _ & Hf).
  exists i'. done.
Defined.

Lemma setAttribute_effects cls n s i :
  exists es, effects (final (setAttribute cls (attributeChangedCallback cls) n s i))
             = (effects i ++ FxSetAttribute n s :: es)%list.
Proof.
  unfold setAttribute, bind, gets, modify, emit, modify. simpl.
  set (i1 := set_effects _ _). unfold when. case_bool_decide.
  - destruct (keeps_attributeChangedCallback quiet cls n (dom i !! n) (Some s) i1)
      as ((es & E & _) & _).
    unfold reaction. destruct (attributeChangedCallback _ _ _ _ i1); simpl in *.
    + exists es. rewrite E. simpl. by rewrite <- app_assoc.
    + eexists. rewrite E. simpl. rewrite <- !app_assoc. reflexivity.
  - exists []. done.
Qed.

Lemma removeAttribute_effects cls n i :
  exists es, effects (final (removeAttribute cls (attributeChangedCallback cls) n i))
             = (effects i ++ FxRemoveAttribute n :: es)%list.
Proof.
  unfold removeAttribute, bind, gets, modify, emit, modify. simpl.
  destruct (dom i !! n) eqn:Hn; simpl; [|by exists []].
  set (i1 := set_dom _ _). unfold when. case_bool_decide; [|by exists []].
  destruct (keeps_attributeChangedCallback quiet cls n (Some s) None i1)
    as ((es & E & _) & _).
  unfold reaction. destruct (attributeChangedCallback _ _ _ _ i1); simpl in *.
  - exists es. rewrite E. simpl. by rewrite <- app_assoc.
  - eexists. rewrite E. simpl. rewrite <- !app_assoc. reflexivity.
Qed.

(** C9.  The default property reflector does nothing when the declaration's
    [attribute] is falsy.  Otherwise it converts the new value: on
    [undefined] it does nothing; on [null] it calls [removeAttribute] with
    the attribute name; on a string it calls [setAttribute] with the name and
    that string.  That DOM call is the first thing it does, and under the
    guard, where [reflectProperty] runs it, the only thing: the attribute is
    removed, or set to the string, and the rest of the instance is as
    before. *)
Theorem C9_default_property_reflector (cls : CustomElementClass) (k : PropertyKey)
    (d : PropertyDeclaration) (old new : Value) (i : Instance) :
  _getPropertyDeclaration cls k = Some d ->
  let name := attribute_string (attribute d) in
  (attribute_truthy (attribute d) = false ->
     _reflectProperty cls k old new i = Normal tt i)
  /\ (attribute_truthy (attribute d) = true ->
      (toAttribute (converter d) new = Some AttrUndefined ->
         _reflectProperty cls k old new i = Normal tt i)
      /\ (toAttribute (converter d) new = Some AttrNull ->
          (exists es, effects (final (_reflectProperty cls k old new i))
                      = (effects i ++ FxRemoveAttribute name :: es)%list)
          /\ (_isReflecting i = true ->
              _reflectProperty cls k old new i
              = Normal tt (set_effects (effects i ++ [FxRemoveAttribute name])
                             (set_dom (delete name (dom i)) i))))
      /\ (forall s, toAttribute (converter d) new = Some (AttrString s) ->
          (exists es, effects (final (_reflectProperty cls k old new i))
                      = (effects i ++ FxSetAttribute name s :: es)%list)
          /\ (_isReflecting i = true ->
              _reflectProperty cls k old new i
              = Normal tt (set_effects (effects i ++ [FxSetAttribute name s])
                             (set_dom (<[name := s]> (dom i)) i))))).
Proof.
  intros Hd name. unfold _reflectProperty. rewrite Hd. split.
  - intros ->. done.
  - intros ->. simpl. split; [|split].
    + intros ->. done.
    + intros ->. split; [apply removeAttribute_effects|apply removeAttribute_reflecting].
    + intros s ->. split; [apply setAttribute_effects|apply setAttribute_reflecting].
Qed.

(** The checkbox under the guard: [true] sets the attribute to ["true"],
    [false] removes it. *)
Lemma C9_default_property_reflector_witness :
  let i := set_isReflecting true constructed in
  dom (final (_reflectProperty Checkbox (KString "checked") (VBool false) (VBool true) i))
    = <["checked" := "true"]> (dom i)
  /\ dom (final (_reflectProperty Checkbox (KString "checked") (VBool true) (VBool false) i))
    = delete "checked" (dom i).
Proof.
  intros i.
  assert (Hd : _getPropertyDeclaration Checkbox (KString "checked")
               = Some (declaration "checked" AttributeConverterBoolean))
    by (vm_compute; reflexivity).
  split.
  - destruct (C9_default_property_reflector Checkbox (KString "checked") _ (VBool false)
                (VBool true) i Hd) as (_ & H).
    destruct (H eq_refl) as (_ & _ & Hs).
    destruct (Hs "true" eq_refl) as (_ & E). by rewrite (E eq_refl).
  - destruct (C9_default_property_reflector Checkbox (KString "checked") _ (VBool true)
                (VBool false) i Hd) as (_ & H).
    destruct (H eq_refl) as (_ & (_ & E) & _); [reflexivity|]. by rewrite (E eq_refl).
Defined.

(** ** A reflector that throws *)

(** A reflection that returns has lowered the guard. *)
Lemma reflectAttribute_returns_lowers_guard cls callback n o v i i' :
  reflectAttribute cls callback n o v i = Normal tt i' ->
  _isReflecting i' = _isReflecting i \/ _isReflecting i' = false.
Proof.
  unfold reflectAttribute. destruct (negb _).
  { intros H. left. unfold emit, modify in H. by simplify_eq. }
  destruct (_ ≫= _) as [d|]; [|done].
  destruct (handler_truthy _); simpl.
  - unfold bind, modify. intros H. right. repeat case_match; by simplify_eq.
  - intros H. left. unfold ret in H. by simplify_eq.
Qed.

(** A custom attribute reflector that throws: the error names it, and the
    guard stays up. *)
Lemma reflectAttribute_throws_keeps_guard cls callback n o v i k d name f e i1 :
  attributes cls !! n = Some k -> key_truthy k = true ->
  properties cls !! k = Some d ->
  reflectAttribute_option d = HandlerFunction name f ->
  returns_when_reflecting callback ->
  run_script cls callback (f (VString n) (attr_value o) (attr_value v))
    (set_effects (effects i ++ [FxCall (IdFunction name) (VString n) (attr_value o) (attr_value v)])
       (set_isReflecting true i)) = Abrupt e i1 ->
  reflectAttribute cls callback n o v i
    = Abrupt (ATTRIBUTE_REFLECTOR_ERROR (IdFunction name)) i1
  /\ _isReflecting i1 = true.
Proof.
  intros Ha Hk Hd Hr Hcb Hrun. split.
  - unfold reflectAttribute, _getPropertyDeclaration. rewrite Ha. simpl. rewrite Hk, Hd, Hr.
    simpl. unfold bind at 1, modify at 1. unfold bind at 1, rethrow_as.
    unfold bind at 1, emit, modify. simpl effects. by rewrite Hrun.
  - assert (Hg : forall n o v, keeps guarded (callback n o v))
      by (intros; by apply returns_when_reflecting_guarded).
    pose proof (keeps_run_script guarded cls callback Hg
                  (f (VString n) (attr_value o) (attr_value v))) as G.
    match type of Hrun with _ _ _ _ ?i2 = _ => specialize (G i2) end.
    rewrite Hrun in G. by destruct (G eq_refl).
Qed.

(** C1, on the code: the host reports a change of attribute [p] to a fresh
    [Fragile] element.  The custom reflector throws, the call throws the
    attribute reflector error naming it, and [_isReflecting] is left set.
    The later write to [q] is then recorded as changed but not queued for
    reflection, and the pass leaves attribute [q] unset; on an element where
    no reflector has thrown the same write gives attribute [q] its value. *)
Theorem C1_thrown_reflector_leaves_guard_set :
  let r := attributeChangedCallback Fragile "p" None (Some "x") constructed in
  let write := Turn [ActSetProperty (KString "q") (VString "v")] :: pass 1 in
  (exists i1, r = Abrupt (ATTRIBUTE_REFLECTOR_ERROR (IdFunction "boom")) i1
              /\ _isReflecting i1 = true)
  /\ _isReflecting (run Fragile write (final r)) = true
  /\ get_property (KString "q") (run Fragile write (final r)) = VString "v"
  /\ dom (run Fragile write (final r)) !! "q" = None
  /\ dom (run Fragile write constructed) !! "q" = Some "v".
Proof. vm_compute. split; [eexists; split; reflexivity|]. done. Qed.

(** ** [watch] *)


Lemma map_set_keys {K V} `{EqDecision K} (m : JsMap K V) k v :
  NoDup m.*1 -> NoDup (map_set m k v).*1.
Proof.
  induction m as [|[k' v'] m IH]; simpl; intros Hnd.
  - apply NoDup_singleton.
  - apply NoDup_cons in Hnd as [Hk Hnd]. destruct (decide (k' = k)) as [->|Hne]; simpl.
    + by apply NoDup_cons.
    + apply NoDup_cons. split; [|by apply IH].
      intros Hin. apply list_elem_of_fmap in Hin as ([k0 v0] & E & Hin). simpl in E. subst k0.
      clear IH Hnd. induction m as [|[k1 v1] m IHm]; simpl in *.
      * apply list_elem_of_singleton in Hin. by simplify_eq.
      * destruct (decide (k1 = k)) as [->|Hne1].
        -- apply elem_of_cons in Hin as [Hin|Hin].
           ++ by simplify_eq.
           ++ apply Hk. right. apply list_elem_of_fmap. by exists (k', v0).
        -- apply elem_of_cons in Hin as [Hin|Hin].
           ++ simplify_eq. apply Hk. by left.
           ++ apply IHm; [|done]. intros Hk'. apply Hk. by right.
Qed.

#[global] Instance unique_keys_preorder : PreOrder unique_keys.
Proof. split; unfold unique_keys; [by intros i | intros i1 i2 i3; auto]. Qed.

#[global] Instance unique_keys_sync : SyncClosed unique_keys.
Proof.
  split; try apply _.
  - by intros i f H.
  - by intros i d H.
  - by intros i e _ H.
  - intros cls k o v i H. requestUpdate_cases; try done; by apply map_set_keys.
Qed.

#[global] Instance unique_keys_guard : GuardClosed unique_keys.
Proof. split; [apply _|]. by intros i b H. Qed.


Section Watch.
Variable cls : CustomElementClass.
Variable detect : PropertyKey -> Value -> Value -> bool.
Hypothesis detect_hasChanged :
  forall k a b i, hasChanged cls k a b i = Normal (detect k a b) i.

End Watch.




(** ** The update pass *)

Lemma calls_quiet es : forallb quiet_effect es = true -> calls es = [].
Proof.
  induction es as [|e es IH]; [done|]. simpl. intros [He Hes]%andb_true_iff.
  unfold calls in *. simpl. destruct e; try done; by apply IH.
Qed.

Lemma quiet_steps i i' : quiet i i' -> steps [] i i'.
Proof.
  intros ((es & E & Q) & N & U & C). split; [|done].
  unfold calls. rewrite E, omap_app. fold (calls es). by rewrite (calls_quiet es Q).
Qed.

Lemma steps_trans c1 c2 i1 i2 i3 :
  steps c1 i1 i2 -> steps c2 i2 i3 -> steps (c1 ++ c2) i1 i3.
Proof.
  intros (E1 & N1 & U1 & C1) (E2 & N2 & U2 & C2).
  split; [by rewrite E2, E1, app_assoc|].
  split; [congruence|]. split; [congruence|auto].
Qed.

Lemma steps_emit e c i :
  call_of e = Some c -> steps [c] i (set_effects (effects i ++ [e]) i).
Proof.
  intros He. split; [|done]. simpl. unfold calls. rewrite omap_app. simpl. by rewrite He.
Qed.

Section PassKeeps.
Context (R : relation Instance) `{!GuardClosed R}.
Variable cls : CustomElementClass.

Lemma keeps__reflectProperty k o v : keeps R (_reflectProperty cls k o v).
Proof.
  unfold _reflectProperty. destruct (_getPropertyDeclaration cls k) as [d|]; [|keeps_step].
  destruct (negb _); [keeps_step|].
  destruct (toAttribute _ v) as [[| |s]|]; try keeps_step.
  - apply keeps_removeAttribute; [apply _|]. apply keeps_attributeChangedCallback, _.
  - apply keeps_setAttribute; [apply _|]. apply keeps_attributeChangedCallback, _.
Qed.

Lemma keeps_method key a b c :
  keeps R (call_method cls (attributeChangedCallback cls) key a b c).
Proof. apply keeps_call_method; [apply _|]. apply keeps_attributeChangedCallback, _. Qed.

Lemma reflectProperty_after_marker k o v i :
  R (set_effects (effects i ++ [FxReflectProperty k o v]) i)
    (final (reflectProperty cls k o v i)).
Proof.
  unfold reflectProperty, bind at 1, emit at 1, modify at 1.
  generalize (set_effects (effects i ++ [FxReflectProperty k o v]) i). clear i.
  change (keeps R
    match _getPropertyDeclaration cls k with
    | Some propertyDeclaration =>
        when (handler_truthy (reflectProperty_option propertyDeclaration))
          (modify (set_isReflecting true);;
           match reflectProperty_option propertyDeclaration with
           | HandlerBool _ => _reflectProperty cls k o v
           | HandlerKey key =>
               rethrow_as (PROPERTY_REFLECTOR_ERROR (IdKey key))
                 (call_method cls (attributeChangedCallback cls) key (key_value k) o v)
           | HandlerFunction name f =>
               rethrow_as (PROPERTY_REFLECTOR_ERROR (IdFunction name))
                 (emit (FxCall (IdFunction name) (key_value k) o v);;
                  run_script cls (attributeChangedCallback cls) (f (key_value k) o v))
           end;;
           modify (set_isReflecting false))
    | None => ret tt
    end).
  destruct (_getPropertyDeclaration cls k) as [d|]; [|keeps_step].
  keeps_step. keeps_step; [apply keeps_set_isReflecting, _|].
  keeps_step; [|apply keeps_set_isReflecting, _].
  destruct (reflectProperty_option d).
  - apply keeps__reflectProperty.
  - keeps_step. apply keeps_method.
  - repeat keeps_step; [by apply keeps_emit; try apply _ | apply keeps_script, _].
Qed.

Lemma notifyProperty_after_marker k o v i :
  R (set_effects (effects i ++ [FxNotifyProperty k o v]) i)
    (final (notifyProperty cls k o v i)).
Proof.
  unfold notifyProperty, bind at 1, emit at 1, modify at 1.
  generalize (set_effects (effects i ++ [FxNotifyProperty k o v]) i). clear i.
  change (keeps R
    match _getPropertyDeclaration cls k with
    | Some propertyDeclaration =>
        when (handler_truthy (notify propertyDeclaration))
          match notify propertyDeclaration with
          | HandlerBool _ => _notifyProperty k o v
          | HandlerKey key =>
              rethrow_as (PROPERTY_NOTIFIER_ERROR (IdKey key))
                (call_method cls (attributeChangedCallback cls) key (key_value k) o v)
          | HandlerFunction name f =>
              rethrow_as (PROPERTY_NOTIFIER_ERROR (IdFunction name))
                (emit (FxCall (IdFunction name) (key_value k) o v);;
                 run_script cls (attributeChangedCallback cls) (f (key_value k) o v))
          end
    | None => ret tt
    end).
  destruct (_getPropertyDeclaration cls k) as [d|]; [|keeps_step].
  keeps_step. destruct (notify d).
  - by apply keeps_emit; try apply _.
  - keeps_step. apply keeps_method.
  - repeat keeps_step; [by apply keeps_emit; try apply _ | apply keeps_script, _].
Qed.
End PassKeeps.

Section PassOrder.
Variable cls : CustomElementClass.

Lemma reflectProperty_steps k o v i :
  steps [CallReflectProperty k o] i (final (reflectProperty cls k o v i)).
Proof.
  apply (steps_trans [CallReflectProperty k o] [] i _ _
           (steps_emit (FxReflectProperty k o v) _ i eq_refl)).
  apply quiet_steps, reflectProperty_after_marker, _.
Qed.

Lemma notifyProperty_steps k o v i :
  steps [CallNotifyProperty k o] i (final (notifyProperty cls k o v i)).
Proof.
  apply (steps_trans [CallNotifyProperty k o] [] i _ _
           (steps_emit (FxNotifyProperty k o v) _ i eq_refl)).
  apply quiet_steps, notifyProperty_after_marker, _.
Qed.

Lemma forEach_steps (callback : PropertyKey -> Value -> Value -> M unit)
    (mk : PropertyKey -> Value -> Call) :
  (forall k o v i, steps [mk k o] i (final (callback k o v i))) ->
  forall entries i i',
    forEach entries callback i = Normal tt i' ->
    steps (map (fun e => mk e.1 e.2) entries) i i'.
Proof.
  intros Hcb entries. induction entries as [|[k o] entries IH]; intros i i' H; simpl in *.
  - unfold ret in H. simplify_eq. by apply quiet_steps.
  - unfold bind at 1, gets at 1 in H. unfold bind at 1 in H.
    pose proof (Hcb k o (get_property k i) i) as Hs.
    destruct (callback k o (get_property k i) i) as [[] i1|]; [|done].
    apply (steps_trans [mk k o] _ i i1 i'); [exact Hs | by apply IH].
Qed.

(** The callbacks of the two loops of [update] do not write the map their
    loop runs over. *)
Lemma notifyProperty_keeps_notifyingProperties k o v i :
  _notifyingProperties (final (notifyProperty cls k o v i)) = _notifyingProperties i.
Proof. by destruct (notifyProperty_steps k o v i) as (_ & N & _). Qed.

Lemma reflectProperty_keeps_reflectingProperties k o v i :
  _reflectingProperties (final (reflectProperty cls k o v i)) = _reflectingProperties i.
Proof.
  assert (Hg : forall n o v, keeps guarded (attributeChangedCallback cls n o v))
    by (intros; apply returns_when_reflecting_guarded, attributeChangedCallback_reflecting).
  unfold reflectProperty, bind at 1, emit at 1, modify at 1.
  destruct (_getPropertyDeclaration cls k) as [d|] eqn:Hd; [|done].
  destruct (handler_truthy _); [|done]. simpl.
  unfold bind at 1. simpl. set (i1 := set_isReflecting true _).
  assert (H1 : _isReflecting i1 = true) by done.
  change (_reflectingProperties i) with (_reflectingProperties i1).
  unfold bind at 1.
  destruct (reflectProperty_option d) as [b|key|name f].
  - assert (keeps guarded (_reflectProperty cls k o v)) as Hk.
    { unfold _reflectProperty. rewrite Hd. destruct (negb _); [keeps_step|].
      destruct (toAttribute _ v) as [[| |s]|]; try keeps_step.
      - by apply keeps_removeAttribute; [apply _|].
      - by apply keeps_setAttribute; [apply _|]. }
    destruct (Hk i1 H1) as [_ E].
    destruct (_reflectProperty cls k o v i1); simpl in *; done.
  - unfold rethrow_as.
    destruct (keeps_call_method guarded cls _ Hg key (key_value k) o v i1 H1) as [_ E].
    destruct (call_method _ _ _ _ _ _ i1); simpl in *; done.
  - unfold rethrow_as, bind at 1, emit, modify. set (i2 := set_effects _ i1).
    destruct (keeps_run_script guarded cls _ Hg (f (key_value k) o v) i2 H1) as [_ E].
    destruct (run_script _ _ _ i2); simpl in *; done.
Qed.

Lemma update_calls i u :
  update cls i = Normal tt u ->
  calls (effects u) =
    (calls (effects i)
     ++ [CallRender]
     ++ map (fun e => CallReflectProperty e.1 e.2) (_reflectingProperties i)
     ++ map (fun e => CallNotifyProperty e.1 e.2) (_notifyingProperties i)
     ++ [CallUpdateCallback (_changedProperties u) (negb (_hasUpdated i))])%list
  /\ (forall k, map_has (_changedProperties i) k = true ->
                map_has (_changedProperties u) k = true)
  /\ _hasUpdated u = true.
Proof.
  unfold update. intros H.
  (* render *)
  unfold bind at 1 in H.
  assert (Hr : steps [CallRender] i (final (render cls i))).
  { unfold render, bind, emit, modify, when, ret. simpl.
    destruct (hasTemplate cls); simpl.
    - apply (steps_trans [CallRender] [] i _ _ (steps_emit FxTemplate _ i eq_refl)).
      apply quiet_steps. split; [|done]. by exists [FxRender].
    - apply (steps_emit FxTemplate _ i eq_refl). }
  assert (Er : _reflectingProperties (final (render cls i)) = _reflectingProperties i).
  { unfold render, bind, emit, modify, when, ret. simpl. by destruct (hasTemplate cls). }
  destruct (render cls i) as [[] i1|]; [|done]. simpl in Hr, Er.
  (* the reflectors *)
  unfold bind at 1, gets at 1 in H. unfold bind at 1 in H. rewrite Er in H.
  destruct (forEach (_reflectingProperties i) (reflectProperty cls) i1) as [[] i2|] eqn:H2;
    [|done].
  apply (forEach_steps _ CallReflectProperty reflectProperty_steps) in H2.
  (* the notifiers *)
  unfold bind at 1, gets at 1 in H. unfold bind at 1 in H.
  assert (En : _notifyingProperties i2 = _notifyingProperties i).
  { destruct Hr as (_ & N1 & _), H2 as (_ & N2 & _). congruence. }
  rewrite En in H.
  destruct (forEach (_notifyingProperties i) (notifyProperty cls) i2) as [[] i3|] eqn:H3;
    [|done].
  apply (forEach_steps _ CallNotifyProperty notifyProperty_steps) in H3.
  (* the hook *)
  unfold bind, gets, updateCallback, _notifyLifecycle, bind, emit, modify in H.
  simpl in H. simplify_eq.
  pose proof (steps_trans _ _ _ _ _ Hr (steps_trans _ _ _ _ _ H2 H3)) as (E & _ & U & C).
  split; [|done]. simpl. unfold calls in *. rewrite !omap_app, E. simpl.
  rewrite U, app_nil_r, <- !app_assoc. simpl. by rewrite <- !app_assoc.
Qed.
Lemma forEach_steps_prefix (callback : PropertyKey -> Value -> Value -> M unit)
    (mk : PropertyKey -> Value -> Call) :
  (forall k o v i, steps [mk k o] i (final (callback k o v i))) ->
  forall entries i, exists c,
    c `prefix_of` map (fun e => mk e.1 e.2) entries
    /\ steps c i (final (forEach entries callback i)).
Proof.
  intros Hcb entries. induction entries as [|[k o] entries IH]; intros i; simpl.
  - exists []. split; [done|]. by apply quiet_steps.
  - unfold bind at 1, gets at 1. unfold bind at 1.
    pose proof (Hcb k o (get_property k i) i) as Hs.
    destruct (callback k o (get_property k i) i) as [[] i1|e i1]; simpl in *.
    + destruct (IH i1) as (c & Hp & Hc). exists (mk k o :: c).
      split; [by apply prefix_cons|]. by apply (steps_trans [mk k o] c i i1).
    + exists [mk k o]. split; [apply prefix_cons, prefix_nil | done].
Qed.


End PassOrder.



(** * Further properties *)

Lemma promise_chain_constructed : promise_chain constructed.
Proof.
  split; simpl; try done; try (intros; set_solver).
Qed.

Lemma promise_chain_coalesced i i' :
  coalesced i i' -> promise_chain i -> promise_chain i'.
Proof.
  intros (S & P & [(J & F & A & U)|(F & F' & J & A & U)]) [C0 C1 C2 C3 C4 C5 C6 C7 C8].
  - split; rewrite ?J, ?F, ?A, ?U, ?S, ?P; done.
  - split; rewrite ?J, ?F', ?A, ?U, ?S, ?P; try done.
    + rewrite fmap_app, length_app, C1. simpl. rewrite Nat.add_1_r, seq_S.
      simpl. by rewrite C2.
    + rewrite length_app. simpl. lia.
    + intros j [Hj|Hj]%elem_of_app; [by apply C3|].
      apply list_elem_of_singleton in Hj. by subst j.
    + intros j [Hj|Hj]%elem_of_app; [by apply C6|].
      apply list_elem_of_singleton in Hj. by subst j.
    + intros j [Hj|Hj]%elem_of_app; [by apply C7|].
      apply list_elem_of_singleton in Hj. by subst j.
Qed.

Lemma set_phase_length p ph i : length (jobs (set_phase p ph i)) = length (jobs i).
Proof. unfold set_phase. simpl. by rewrite length_map. Qed.

Lemma promise_chain_resume_previous p i :
  scheduler_invariant i -> promise_chain i -> promise_chain (resume_previous p i).
Proof.
  intros Hi Hc. unfold resume_previous.
  destruct (find_job p i) as [j0|] eqn:Hfind; [|done].
  destruct (phase j0) eqn:Hph; try done.
  destruct (settled i !! previousRequest j0) eqn:Hs; [|done].
  destruct Hc as [C0 C1 C2 C3 C4 C5 C6 C7 C8].
  destruct (find_job_Some _ _ _ Hfind) as [H0 E0].
  assert (Hel := fun j' => set_phase_elem p AwaitingFrame i j0 j' (inv_nodup _ Hi) Hfind).
  split; try done.
  - by rewrite set_phase_ids, set_phase_length.
  - by rewrite set_phase_length.
  - intros j' [->|[Hj _]]%Hel; [exact (C3 j0 H0) | by apply C3].
  - intros j' [->|[Hj _]]%Hel Hp; [simpl; rewrite Hs; by eexists | by apply C6].
  - intros j' [->|[Hj _]]%Hel Hp; [done | by apply C7].
Qed.

Lemma promise_chain_resume_result p i :
  scheduler_invariant i -> promise_chain i -> promise_chain (resume_result p i).
Proof.
  intros Hi Hc. unfold resume_result.
  destruct (find_job p i) as [j0|] eqn:Hfind; [|done].
  destruct (phase j0) eqn:Hph; try done.
  destruct Hc as [C0 C1 C2 C3 C4 C5 C6 C7 C8].
  destruct (find_job_Some _ _ _ Hfind) as [H0 E0].
  set (i1 := set_settled _ i).
  assert (Hel := fun j' => set_phase_elem p Resolved i1 j0 j' (inv_nodup _ Hi) Hfind).
  assert (Hmono : forall q, is_Some (settled i !! q) ->
                            is_Some (<[p := negb (_hasRequestedUpdate i)]> (settled i) !! q)).
  { intros q Hq. apply lookup_insert_is_Some. destruct (decide (p = q)); [by left|by right]. }
  split; try done.
  - by rewrite set_phase_ids, set_phase_length.
  - by rewrite set_phase_length.
  - intros j' [->|[Hj _]]%Hel; [exact (C3 j0 H0) | by apply C3].
  - simpl. by apply Hmono.
  - simpl. intros j' [->|[Hj _]]%Hel Hp; [done | by apply Hmono, C6].
  - simpl. intros j' [->|[Hj _]]%Hel Hp.
    + simpl. rewrite E0. rewrite lookup_insert_eq. done.
    + by apply Hmono, C7.
  - simpl. intros q q' Hq Hlt. by eapply Hmono, C8.
Qed.

Lemma elem_of_seq_1 n x : x ∈ seq 1 n <-> 1 <= x <= n.
Proof. rewrite elem_of_seq. lia. Qed.

(** The job of the frame is the one after the passes that have completed. *)
Lemma frame_is_next i j0 :
  scheduler_invariant i -> promise_chain i ->
  j0 ∈ jobs i -> phase j0 = AwaitingFrame ->
  ownRequest j0 = S (length (passes i)).
Proof.
  intros Hi [C0 C1 C2 C3 C4 C5 C6 C7 C8] H0 Hph.
  assert (Hu0 : unfinished j0 = true) by (unfold unfinished; by rewrite Hph).
  destruct (inv_unfinished _ Hi j0 H0 Hu0) as [EU F].
  assert (Hnot : ownRequest j0 ∉ passes i).
  { intros Hp. apply (inv_passes _ Hi j0 H0) in Hp. rewrite Hph in Hp. by destruct Hp. }
  assert (Hle : length (passes i) < ownRequest j0).
  { destruct (length (passes i)) as [|n] eqn:En; [pose proof (inv_ids _ Hi j0 H0); lia|].
    assert (Hin : S n ∈ passes i) by (rewrite C4; apply elem_of_seq_1; lia).
    pose proof (inv_passes_ids _ Hi _ Hin).
    destruct (decide (S n = ownRequest j0)) as [E|E]; [by rewrite E in Hin|]. lia. }
  destruct (C6 j0 H0 Hph) as [b Hb].
  pose proof (C3 j0 H0) as Hprev.
  destruct (inv_settled _ Hi _ _ Hb) as [Z|Hp]; [lia|].
  rewrite C4 in Hp. apply elem_of_seq_1 in Hp. lia.
Qed.

Lemma promise_chain_animation_frame cls p i :
  scheduler_invariant i -> promise_chain i -> promise_chain (animation_frame cls p i).
Proof.
  intros Hi Hc. unfold animation_frame.
  destruct (find_job p i) as [j0|] eqn:Hfind; [|done].
  destruct (phase j0) eqn:Hph; try done.
  destruct (find_job_Some _ _ _ Hfind) as [H0 E0].
  pose proof (frame_is_next i j0 Hi Hc H0 Hph) as Hnext.
  destruct Hc as [C0 C1 C2 C3 C4 C5 C6 C7 C8].
  assert (Hu0 : unfinished j0 = true) by (unfold unfinished; by rewrite Hph).
  destruct (inv_unfinished _ Hi j0 H0 Hu0) as [EU F].
  destruct (update_requested cls i F) as (J & F' & A & U & S & P).
  rewrite _scheduleUpdate_callback_cases.
  destruct (update cls i) as [[] u|e u]; simpl in *.
  - set (i1 := set_passes _ _).
    assert (Hfind1 : find_job p i1 = Some j0) by (unfold find_job; simpl; by rewrite J).
    assert (Hnd1 : NoDup (ownRequest <$> jobs i1)) by (simpl; rewrite J; apply Hi).
    assert (Hel := fun j' => set_phase_elem p AwaitingResult i1 j0 j' Hnd1 Hfind1).
    split.
    + simpl. by rewrite A, U.
    + rewrite set_phase_ids, set_phase_length. simpl. by rewrite J.
    + rewrite set_phase_length. simpl. by rewrite A, J.
    + intros j' [->|[Hj _]]%Hel; [exact (C3 j0 H0)|]. simpl in Hj. rewrite J in Hj. by apply C3.
    + simpl passes. rewrite P, length_app. simpl. rewrite Nat.add_1_r, seq_S, <- C4.
      simpl. congruence.
    + simpl settled. by rewrite S.
    + simpl settled. rewrite S. intros j' [->|[Hj _]]%Hel Hp; [done|].
      simpl in Hj. rewrite J in Hj. by apply C6.
    + simpl settled. rewrite S. intros j' [->|[Hj _]]%Hel Hp; [done|].
      simpl in Hj. rewrite J in Hj. by apply C7.
    + simpl settled. simpl passes. rewrite S, P.
      intros q q' [Hq|Hq%list_elem_of_singleton]%elem_of_app Hlt; [by eapply C8|].
      subst q. pose proof (C3 j0 H0) as Hprev.
      destruct (decide (q' = previousRequest j0)) as [->|Hne]; [by apply C6|].
      apply (C8 (previousRequest j0)); [|lia].
      rewrite C4. apply elem_of_seq_1. lia.
  - assert (Hfind1 : find_job p u = Some j0) by (unfold find_job; by rewrite J).
    assert (Hnd1 : NoDup (ownRequest <$> jobs u)) by (rewrite J; apply Hi).
    assert (Hel := fun j' => set_phase_elem p Aborted u j0 j' Hnd1 Hfind1).
    split.
    + simpl. by rewrite A, U.
    + rewrite set_phase_ids, set_phase_length. by rewrite J.
    + rewrite set_phase_length. simpl. by rewrite A, J.
    + intros j' [->|[Hj _]]%Hel; [exact (C3 j0 H0)|]. rewrite J in Hj. by apply C3.
    + simpl passes. by rewrite P.
    + simpl settled. by rewrite S.
    + simpl settled. rewrite S. intros j' [->|[Hj _]]%Hel Hp; [done|].
      rewrite J in Hj. by apply C6.
    + simpl settled. rewrite S. intros j' [->|[Hj _]]%Hel Hp; [done|].
      rewrite J in Hj. by apply C7.
    + simpl settled. simpl passes. rewrite S, P. done.
Qed.

Lemma promise_chain_react cls s i :
  scheduler_invariant i -> promise_chain i -> promise_chain (react cls s i).
Proof.
  intros Hi Hc. destruct s; simpl.
  - eapply promise_chain_coalesced; [|done]. apply keeps_script, _.
  - eapply promise_chain_coalesced; [|done]. apply keeps_coalesced_watch.
  - by apply promise_chain_resume_previous.
  - by apply promise_chain_animation_frame.
  - by apply promise_chain_resume_result.
Qed.

Lemma promise_chain_run cls l i :
  scheduler_invariant i -> promise_chain i -> promise_chain (run cls l i).
Proof.
  revert i. induction l as [|s l IH]; intros i Hi Hc; simpl; [done|].
  apply IH; [by apply scheduler_invariant_react | by apply promise_chain_react].
Qed.

(** X1. The promises [_enqueueUpdate] creates form one chain: they are
    numbered in the order of their creation, each job awaits the promise
    created just before its own, the passes complete in that order, at most
    one job has not completed its pass, and every promise before a completed
    pass is settled. *)
Theorem passes_run_in_request_order (cls : CustomElementClass) (l : list Stimulus) :
  let i := run cls l constructed in
  ownRequest <$> jobs i = seq 1 (length (jobs i))
  /\ (forall j, j ∈ jobs i -> S (previousRequest j) = ownRequest j)
  /\ passes i = seq 1 (length (passes i))
  /\ length (passes i) <= length (jobs i) <= S (length (passes i))
  /\ (forall p q, p ∈ passes i -> q < p -> is_Some (settled i !! q)).
Proof.
  intros i.
  assert (Hi : scheduler_invariant i)
    by apply scheduler_invariant_run, scheduler_invariant_constructed.
  assert (Hc : promise_chain i)
    by (apply promise_chain_run;
        [apply scheduler_invariant_constructed | apply promise_chain_constructed]).
  destruct Hc as [C0 C1 C2 C3 C4 C5 C6 C7 C8].
  split; [done|]. split; [done|]. split; [done|]. split; [|done].
  split.
  - destruct (length (passes i)) as [|n] eqn:En; [lia|].
    assert (Hin : S n ∈ passes i) by (rewrite C4; apply elem_of_seq_1; lia).
    pose proof (inv_passes_ids _ Hi _ Hin). lia.
  - destruct (length (jobs i)) as [|[|m]] eqn:Em; [lia|lia|].
    assert (Hin : S m ∈ ownRequest <$> jobs i) by (rewrite C1; apply elem_of_seq_1; lia).
    apply list_elem_of_fmap in Hin as (j & Ej & Hj).
    destruct (unfinished j) eqn:Hu.
    { destruct (inv_unfinished _ Hi j Hj Hu) as [E _]. lia. }
    assert (Hp : ownRequest j ∈ passes i).
    { apply (inv_passes _ Hi j Hj). unfold unfinished in Hu. destruct (phase j); auto; done. }
    rewrite C4 in Hp. apply elem_of_seq_1 in Hp. lia.
Qed.

Lemma find_job_set_phase p ph i j :
  find_job p i = Some j -> find_job p (set_phase p ph i) = Some (with_phase ph j).
Proof.
  unfold find_job, set_phase. simpl. induction (jobs i) as [|j0 l IH]; simpl; [done|].
  case_bool_decide as E; simpl.
  - rewrite bool_decide_eq_true_2 by done. intros. by simplify_eq.
  - rewrite bool_decide_eq_false_2 by done. exact IH.
Qed.

Lemma find_job_set_phase_ne p q ph i :
  p <> q -> find_job p (set_phase q ph i) = find_job p i.
Proof.
  intros Hne. unfold find_job, set_phase. simpl.
  induction (jobs i) as [|j0 l IH]; simpl; [done|].
  destruct (decide (ownRequest j0 = q)) as [E|E].
  - rewrite (bool_decide_eq_true_2 _ E). simpl.
    rewrite !bool_decide_eq_false_2 by congruence. exact IH.
  - rewrite (bool_decide_eq_false_2 _ E). by rewrite IH.
Qed.

Lemma find_job_elem (l : list Job) i j :
  NoDup (ownRequest <$> jobs i) -> j ∈ jobs i -> find_job (ownRequest j) i = Some j.
Proof.
  intros Hnd Hj. unfold find_job.
  destruct (List.find _ (jobs i)) as [j'|] eqn:E.
  - apply find_some in E as [Hin Hp]. apply list_elem_of_In in Hin.
    apply bool_decide_eq_true in Hp. f_equal. by apply (nodup_job_eq (jobs i)).
  - apply list_elem_of_In in Hj. pose proof (find_none _ _ E _ Hj) as Hn. simpl in Hn.
    by rewrite bool_decide_eq_true_2 in Hn.
Qed.

Lemma stalled_react cls s i :
  scheduler_invariant i -> stalled i ->
  stalled (react cls s i) /\ passes (react cls s i) = passes i
  /\ _updateRequest (react cls s i) = _updateRequest i
  /\ length (jobs (react cls s i)) = length (jobs i).
Proof.
  intros Hi (F & (ja & Ha & Ea & Pa) & Hns).
  assert (Hsync : forall i', coalesced i i' ->
            stalled i' /\ passes i' = passes i /\ _updateRequest i' = _updateRequest i
            /\ length (jobs i') = length (jobs i)).
  { intros i' (_ & P & [(J & F' & _ & U)|(F' & _)]); [|congruence].
    split; [|by rewrite P, U, J]. unfold stalled. rewrite J, F', U.
    split; [done|]. split; [|done]. eauto. }
  assert (Hsame : stalled i /\ passes i = passes i /\ _updateRequest i = _updateRequest i
                  /\ length (jobs i) = length (jobs i)).
  { split; [|done]. split; [done|]. split; [|done]. eauto. }
  destruct s as [s|ex|p|p|p]; simpl.
  - apply Hsync, keeps_script, _.
  - apply Hsync, keeps_coalesced_watch.
  - unfold resume_previous. destruct (find_job p i) as [j0|] eqn:Hfind; [|done].
    destruct (find_job_Some _ _ _ Hfind) as [H0 E0].
    pose proof (Hns j0 H0) as Hn. unfold scheduled in Hn.
    destruct (phase j0); done.
  - unfold animation_frame. destruct (find_job p i) as [j0|] eqn:Hfind; [|done].
    destruct (find_job_Some _ _ _ Hfind) as [H0 E0].
    pose proof (Hns j0 H0) as Hn. unfold scheduled in Hn.
    destruct (phase j0); done.
  - unfold resume_result. destruct (find_job p i) as [j0|] eqn:Hfind; [|done].
    destruct (find_job_Some _ _ _ Hfind) as [H0 E0].
    destruct (phase j0) eqn:Hph; try done.
    set (i1 := set_settled _ i).
    assert (Hel := fun j' => set_phase_elem p Resolved i1 j0 j' (inv_nodup _ Hi) Hfind).
    split; [|by rewrite set_phase_length].
    split; [done|]. split.
    + destruct (set_phase_elem_of p Resolved i1 ja Ha) as (j' & Hj' & E' & _ & Hnp).
      exists j'. split; [done|].
      assert (Hne : ownRequest ja <> p).
      { intros E. assert (ja = j0) as -> by (apply (nodup_job_eq (jobs i)); try done; [apply Hi|congruence]).
        congruence. }
      rewrite (Hnp Hne). done.
    + intros j' [->|[Hj _]]%Hel; [done | by apply Hns].
Qed.

Lemma stalled_run cls l i :
  scheduler_invariant i -> stalled i ->
  stalled (run cls l i) /\ passes (run cls l i) = passes i
  /\ _updateRequest (run cls l i) = _updateRequest i
  /\ length (jobs (run cls l i)) = length (jobs i).
Proof.
  revert i. induction l as [|s l IH]; intros i Hi Hs; simpl; [done|].
  destruct (stalled_react cls s i Hi Hs) as (Hs' & P & U & L).
  destruct (IH _ (scheduler_invariant_react cls s i Hi) Hs') as (Hs'' & P' & U' & L').
  split; [done|]. split; [congruence|]. split; congruence.
Qed.

(** A frame callback that throws leaves the instance stalled. *)
Lemma aborted_frame_stalled cls p i j e u :
  scheduler_invariant i -> find_job p i = Some j -> phase j = AwaitingFrame ->
  update cls i = Abrupt e u ->
  stalled (animation_frame cls p i)
  /\ passes (animation_frame cls p i) = passes i
  /\ _updateRequest (animation_frame cls p i) = p
  /\ length (jobs (animation_frame cls p i)) = length (jobs i).
Proof.
  intros Hi Hfind Hph Hu. unfold animation_frame. rewrite Hfind, Hph.
  rewrite _scheduleUpdate_callback_cases, Hu.
  destruct (find_job_Some _ _ _ Hfind) as [H0 E0].
  assert (Hu0 : unfinished j = true) by (unfold unfinished; by rewrite Hph).
  destruct (inv_unfinished _ Hi j H0 Hu0) as [EU F].
  pose proof (update_requested cls i F) as Hreq. rewrite Hu in Hreq. simpl in Hreq.
  destruct Hreq as (J & F' & A & U & S & P).
  assert (Hfind1 : find_job p u = Some j) by (unfold find_job; by rewrite J).
  assert (Hnd1 : NoDup (ownRequest <$> jobs u)) by (rewrite J; apply Hi).
  assert (Hel := fun j' => set_phase_elem p Aborted u j j' Hnd1 Hfind1).
  split; [|by rewrite set_phase_length; simpl; rewrite ?P, ?U, ?J; repeat split; congruence].
  split; [done|]. split.
  - destruct (set_phase_elem_of p Aborted u j) as (j' & Hj' & E' & Hp & _); [by rewrite J|].
    exists j'. split; [done|]. split; [simpl; congruence|]. by apply Hp.
  - intros j' [->|[Hj Hne]]%Hel; [done|]. rewrite J in Hj.
    destruct (scheduled j') eqn:Hs; [|done].
    destruct (inv_unfinished _ Hi j' Hj (scheduled_unfinished _ Hs)) as [E _]. congruence.
Qed.

(** X3. After a pass that [update] ended by throwing, no pass runs again:
    whatever happens next, no pass completes, none is pending, the request
    flag stays set, the current promise stays the one of the failed pass and
    is never settled, and [requestUpdate] enqueues no new job. *)
Theorem aborted_pass_stalls_the_instance (cls : CustomElementClass) (l l' : list Stimulus)
    (p : nat) (j : Job) (e : Error) (u : Instance) :
  let i := run cls l constructed in
  find_job p i = Some j -> phase j = AwaitingFrame ->
  update cls i = Abrupt e u ->
  let i' := run cls l' (react cls (AnimationFrame p) i) in
  passes i' = passes i
  /\ pending_passes i' = 0
  /\ _hasRequestedUpdate i' = true
  /\ _updateRequest i' = p
  /\ settled i' !! p = None
  /\ length (jobs i') = length (jobs i)
  /\ (forall k o v, jobs (final (requestUpdate cls k o v i')) = jobs i').
Proof.
  intros i Hfind Hph Hu i'.
  assert (Hi : scheduler_invariant i)
    by apply scheduler_invariant_run, scheduler_invariant_constructed.
  destruct (aborted_frame_stalled cls p i j e u Hi Hfind Hph Hu) as (Hs & P & U & L).
  assert (Hi1 : scheduler_invariant (react cls (AnimationFrame p) i))
    by (by apply scheduler_invariant_react).
  destruct (stalled_run cls l' _ Hi1 Hs) as (Hs' & P' & U' & L').
  assert (Hi' : scheduler_invariant i') by (by apply scheduler_invariant_run).
  destruct Hs' as (F & (ja & Ha & Ea & Pa) & Hns).
  assert (EP : passes i' = passes i) by (etransitivity; [exact P' | exact P]).
  assert (EU : _updateRequest i' = p) by (etransitivity; [exact U' | exact U]).
  assert (EL : length (jobs i') = length (jobs i)) by (etransitivity; [exact L' | exact L]).
  fold i' in F, Ha, Ea, Hns.
  split; [done|].
  split.
  { unfold pending_passes. fold i'.
    assert (List.filter scheduled (jobs i') = []) as ->; [|done].
    destruct (List.filter scheduled (jobs i')) as [|j' ?] eqn:Ef; [done|]. exfalso.
    assert (Hin : In j' (List.filter scheduled (jobs i'))) by (rewrite Ef; by left).
    apply filter_In in Hin as [Hin Hsch]. apply list_elem_of_In in Hin.
    rewrite (Hns j' Hin) in Hsch. done. }
  split; [done|]. split; [done|].
  split.
  { assert (p = ownRequest ja) as -> by congruence.
    apply (inv_pending _ Hi' ja Ha). by rewrite Pa. }
  split; [done|].
  intros k o v.
  destruct (sync_requestUpdate (R := coalesced) cls k o v i')
    as (_ & _ & [(J & _)|(E & _)]); [done | congruence].
Qed.

Lemma aborted_pass_stalls_the_instance_witness :
  let i := run Brittle [Turn [ActSetProperty (KString "p") (VNumber 1)]; ResumePrevious 1]
             constructed in
  let i' := run Brittle [Turn [ActSetProperty (KString "p") (VNumber 2)]; AnimationFrame 1;
                         ResumeResult 1]
              (react Brittle (AnimationFrame 1) i) in
  passes i' = [] /\ pending_passes i' = 0 /\ _hasRequestedUpdate i' = true
  /\ settled i' !! 1 = None.
Proof.
  intros i i'.
  assert (Hu : exists e u, update Brittle i = Abrupt e u).
  { destruct (update Brittle i) as [[] u|e u] eqn:E; [vm_compute in E; discriminate E|eauto]. }
  destruct Hu as (e & u & Hu).
  destruct (aborted_pass_stalls_the_instance Brittle
              [Turn [ActSetProperty (KString "p") (VNumber 1)]; ResumePrevious 1]
              [Turn [ActSetProperty (KString "p") (VNumber 2)]; AnimationFrame 1; ResumeResult 1]
              1 {| previousRequest := 0; ownRequest := 1; phase := AwaitingFrame |} e u
              ltac:(vm_compute; reflexivity) eq_refl Hu)
    as (P & Q & F & _ & S & _).
  split; [exact P|]. split; [exact Q|]. split; [exact F | exact S].
Defined.

Lemma with_phase_same j : with_phase (phase j) j = j.
Proof. by destruct j. Qed.

Lemma resume_result_passes p i : passes (resume_result p i) = passes i.
Proof. unfold resume_result. by repeat case_match. Qed.

Lemma resume_previous_passes p i : passes (resume_previous p i) = passes i.
Proof. unfold resume_previous. by repeat case_match. Qed.

Lemma pending_passes_lowered i :
  scheduler_invariant i -> _hasRequestedUpdate i = false -> pending_passes i = 0.
Proof.
  intros Hi F. unfold pending_passes.
  destruct (List.filter scheduled (jobs i)) as [|j' ?] eqn:Ef; [done|]. exfalso.
  assert (Hin : In j' (List.filter scheduled (jobs i))) by (rewrite Ef; by left).
  apply filter_In in Hin as [Hin Hsch]. apply list_elem_of_In in Hin.
  destruct (inv_unfinished _ Hi j' Hin (scheduled_unfinished _ Hsch)). congruence.
Qed.

(** The promise a scheduled job awaits is settled once the continuation of
    the job before it has run. *)
Lemma previous_settles i j :
  scheduler_invariant i -> promise_chain i -> j ∈ jobs i -> scheduled j = true ->
  let i1 := resume_result (previousRequest j) i in
  is_Some (settled i1 !! previousRequest j) /\ find_job (ownRequest j) i1 = Some j.
Proof.
  intros Hi Hc Hj Hs i1.
  destruct (inv_unfinished _ Hi j Hj (scheduled_unfinished _ Hs)) as [EU F].
  pose proof (chain_previous _ Hc j Hj) as Hprev.
  pose proof (find_job_elem (jobs i) i j (inv_nodup _ Hi) Hj) as Hfj.
  subst i1. unfold resume_result.
  destruct (find_job (previousRequest j) i) as [j0|] eqn:Hfind.
  - destruct (find_job_Some _ _ _ Hfind) as [H0 E0].
    assert (Hfin : unfinished j0 = false).
    { destruct (unfinished j0) eqn:Hu0; [|done].
      destruct (inv_unfinished _ Hi j0 H0 Hu0). lia. }
    unfold unfinished in Hfin. destruct (phase j0) eqn:Hph; try done.
    + split.
      * simpl. rewrite lookup_insert_eq. done.
      * rewrite find_job_set_phase_ne by lia. exact Hfj.
    + split; [|done]. rewrite <- E0. by apply (chain_resolved _ Hc).
  - split; [|done].
    destruct (previousRequest j) as [|n] eqn:En; [by apply (chain_initial _ Hc)|].
    exfalso.
    assert (Hin : S n ∈ ownRequest <$> jobs i).
    { rewrite (chain_jobs _ Hc). apply elem_of_seq_1.
      pose proof (inv_ids _ Hi j Hj). pose proof (chain_allocated _ Hc). lia. }
    apply list_elem_of_fmap in Hin as (j0 & E0 & H0).
    pose proof (find_job_elem (jobs i) i j0 (inv_nodup _ Hi) H0) as Hf0.
    congruence.
Qed.

(** X2. A scheduled pass runs: once the continuation of the job before it and
    its own continuation of [await previousRequest] have run, the job awaits
    its frame; the frame runs [update]; when [update] returns, the pass is
    the next to complete and the job's continuation of [await result] then
    settles its promise with [true]. *)
Theorem scheduled_pass_runs (cls : CustomElementClass) (l : list Stimulus) (j : Job) :
  let i := run cls l constructed in
  j ∈ jobs i -> scheduled j = true ->
  let p := ownRequest j in
  let i2 := run cls [ResumeResult (previousRequest j); ResumePrevious p] i in
  find_job p i2 = Some (with_phase AwaitingFrame j)
  /\ (forall u, update cls i2 = Normal tt u ->
        let i3 := run cls [AnimationFrame p; ResumeResult p] i2 in
        passes i3 = (passes i ++ [p])%list
        /\ settled i3 !! p = Some true
        /\ _changedProperties i3 = [] /\ _reflectingProperties i3 = []
        /\ _notifyingProperties i3 = []
        /\ _hasRequestedUpdate i3 = false /\ pending_passes i3 = 0)
  /\ (forall e u, update cls i2 = Abrupt e u ->
        find_job p (react cls (AnimationFrame p) i2) = Some (with_phase Aborted j)).
Proof.
  intros i Hj Hs p i2.
  assert (Hi : scheduler_invariant i)
    by apply scheduler_invariant_run, scheduler_invariant_constructed.
  assert (Hc : promise_chain i)
    by (apply promise_chain_run;
        [apply scheduler_invariant_constructed | apply promise_chain_constructed]).
  destruct (previous_settles i j Hi Hc Hj Hs) as [[b Hb] Hf1].
  set (i1 := resume_result (previousRequest j) i) in *.
  assert (Hi1 : scheduler_invariant i1) by (by apply scheduler_invariant_resume_result).
  assert (Hf2 : find_job p i2 = Some (with_phase AwaitingFrame j)).
  { subst i2. simpl. fold i1. unfold resume_previous. fold p in Hf1. rewrite Hf1.
    unfold scheduled in Hs. destruct (phase j) eqn:Hph; try done.
    - rewrite Hb. by apply find_job_set_phase.
    - by rewrite <- Hph, with_phase_same. }
  assert (Hi2 : scheduler_invariant i2) by (by apply scheduler_invariant_resume_previous).
  destruct (find_job_Some _ _ _ Hf2) as [H2 _].
  destruct (inv_unfinished _ Hi2 _ H2 eq_refl) as [EU2 F2].
  destruct (update_requested cls i2 F2) as (J & Fu & A & U & S & P).
  assert (P2 : passes i2 = passes i).
  { etransitivity; [apply resume_previous_passes | apply resume_result_passes]. }
  split; [done|]. split.
  - intros u Hu i3.
    assert (Hi3 : scheduler_invariant i3) by (by apply scheduler_invariant_run).
    assert (E3 : i3 = resume_result p
                   (set_phase p AwaitingResult
                      (set_passes (passes (cleaned u) ++ [p]) (cleaned u)))).
    { subst i3. simpl. unfold animation_frame. rewrite Hf2. simpl.
      by rewrite _scheduleUpdate_callback_cases, Hu. }
    rewrite Hu in J, Fu, A, U, S, P. simpl in J, Fu, A, U, S, P.
    set (i' := set_passes _ _) in E3.
    assert (Hf' : find_job p (set_phase p AwaitingResult i')
                  = Some (with_phase AwaitingResult (with_phase AwaitingFrame j))).
    { apply find_job_set_phase. unfold find_job. simpl. rewrite J. exact Hf2. }
    unfold resume_result in E3. rewrite Hf' in E3. simpl in E3.
    assert (F3 : _hasRequestedUpdate i3 = false) by (by rewrite E3).
    rewrite E3. simpl. rewrite lookup_insert_eq.
    repeat split; try done.
    + by rewrite P, P2.
    + rewrite <- E3. by apply pending_passes_lowered.
  - intros e u Hu. simpl. unfold animation_frame. rewrite Hf2. simpl.
    rewrite _scheduleUpdate_callback_cases, Hu.
    rewrite Hu in J. simpl in J.
    change (with_phase Aborted j) with (with_phase Aborted (with_phase AwaitingFrame j)).
    apply find_job_set_phase. unfold find_job. rewrite J. exact Hf2.
Qed.

Lemma scheduled_pass_runs_witness :
  let i := run Counter [Turn [ActSetProperty (KString "count") (VNumber 0)]] constructed in
  let i2 := run Counter [ResumeResult 0; ResumePrevious 1] i in
  let i3 := run Counter [AnimationFrame 1; ResumeResult 1] i2 in
  passes i3 = [1] /\ settled i3 !! 1 = Some true /\ _hasRequestedUpdate i3 = false.
Proof.
  intros i i2 i3.
  assert (Hj : {| previousRequest := 0; ownRequest := 1; phase := AwaitingPrevious |} ∈ jobs i)
    by (vm_compute; apply list_elem_of_here).
  assert (Hu : exists u, update Counter i2 = Normal tt u)
    by (vm_compute; eexists; reflexivity).
  destruct Hu as (u & Hu).
  destruct (scheduled_pass_runs Counter [Turn [ActSetProperty (KString "count") (VNumber 0)]]
              _ Hj eq_refl) as (_ & H & _).
  destruct (H u Hu) as (P & S & _ & _ & _ & F & _).
  split; [|split; [exact S | exact F]].
  etransitivity; [exact P|]. vm_compute. reflexivity.
Defined.

Lemma hook_flag_prefix (c l : list Call) :
  c `prefix_of` l -> omap hook_flag l = [] -> omap hook_flag c = [].
Proof.
  intros [k ->]. rewrite omap_app. intros H. by apply app_eq_nil in H as [-> _].
Qed.

Lemma hook_flag_map (mk : PropertyKey -> Value -> Call) (l : JsMap PropertyKey Value) :
  (forall k o, hook_flag (mk k o) = None) ->
  omap hook_flag (map (fun e => mk e.1 e.2) l) = [].
Proof.
  intros H. induction l as [|[k o] l IH]; [done|]. simpl. by rewrite H.
Qed.

(** A pass that throws has not reached [updateCallback]. *)
Lemma update_aborted cls i e u :
  update cls i = Abrupt e u ->
  exists c, steps c i u /\ omap hook_flag c = [].
Proof.
  unfold update. unfold bind at 1.
  assert (Hr : steps [CallRender] i (final (render cls i))).
  { unfold render, bind, emit, modify, when, ret. simpl.
    destruct (hasTemplate cls); simpl.
    - apply (steps_trans [CallRender] [] i _ _ (steps_emit FxTemplate _ i eq_refl)).
      apply quiet_steps. split; [|done]. by exists [FxRender].
    - apply (steps_emit FxTemplate _ i eq_refl). }
  assert (Er : _reflectingProperties (final (render cls i)) = _reflectingProperties i).
  { unfold render, bind, emit, modify, when, ret. simpl. by destruct (hasTemplate cls). }
  destruct (render cls i) as [[] i1|]; simpl in Hr, Er.
  2:{ intros Hu. simplify_eq. by exists [CallRender]. }
  unfold bind at 1, gets at 1. unfold bind at 1. rewrite Er.
  destruct (forEach_steps_prefix _ CallReflectProperty (reflectProperty_steps cls)
              (_reflectingProperties i) i1) as (c2 & P2 & S2).
  destruct (forEach (_reflectingProperties i) (reflectProperty cls) i1) as [[] i2|e2 i2] eqn:H2;
    simpl in S2.
  2:{ intros Hu. simplify_eq. exists ([CallRender] ++ c2)%list.
      split; [by apply (steps_trans _ _ _ _ _ Hr S2)|].
      simpl. apply (hook_flag_prefix _ _ P2). by apply hook_flag_map. }
  apply (forEach_steps _ CallReflectProperty (reflectProperty_steps cls)) in H2.
  unfold bind at 1, gets at 1. unfold bind at 1.
  assert (En : _notifyingProperties i2 = _notifyingProperties i).
  { destruct Hr as (_ & N1 & _), H2 as (_ & N2 & _). congruence. }
  rewrite En.
  destruct (forEach_steps_prefix _ CallNotifyProperty (notifyProperty_steps cls)
              (_notifyingProperties i) i2) as (c3 & P3 & S3).
  destruct (forEach (_notifyingProperties i) (notifyProperty cls) i2) as [[] i3|e3 i3] eqn:H3;
    simpl in S3.
  2:{ intros Hu. simplify_eq.
      eexists. split; [exact (steps_trans _ _ _ _ _ Hr (steps_trans _ _ _ _ _ H2 S3))|].
      simpl. rewrite omap_app, (hook_flag_map CallReflectProperty) by done.
      simpl. apply (hook_flag_prefix _ _ P3). by apply hook_flag_map. }
  unfold bind, gets, updateCallback, _notifyLifecycle, bind, emit, modify. simpl. done.
Qed.

Lemma hasChanged_final cls k o v i : final (hasChanged cls k o v i) = i.
Proof. unfold hasChanged. by repeat case_match. Qed.

Lemma watch_loop_trace cls previous entries i :
  let i' := final (watch_loop cls previous entries i) in
  effects i' = effects i /\ _hasUpdated i' = _hasUpdated i.
Proof.
  revert i. induction entries as [|[k o] entries IH]; intros i; simpl; [done|].
  unfold bind at 1.
  assert (Hm : forall c : M bool, (forall i, final (c i) = i) ->
             let i' := final (match c i with
                       | Normal a i0 =>
                           (when a (modify (fun i1 => set_notifyingProperties
                              (map_set (_notifyingProperties i1) k o) i1));;
                            watch_loop cls previous entries) i0
                       | Abrupt e i0 => Abrupt e i0
                       end) in
             effects i' = effects i /\ _hasUpdated i' = _hasUpdated i).
  { intros c Hc. specialize (Hc i). destruct (c i) as [a i0|e i0]; simpl in *; subst i0; [|done].
    unfold bind, when, modify, ret. destruct a; simpl; [|apply IH].
    by destruct (IH (set_notifyingProperties (map_set (_notifyingProperties i) k o) i)). }
  destruct (map_get previous k).
  - apply Hm. apply hasChanged_final.
  - apply Hm. done.
Qed.

Lemma quiet_flags i i' :
  quiet i i' ->
  firstUpdate_flags (effects i') = firstUpdate_flags (effects i)
  /\ _hasUpdated i' = _hasUpdated i.
Proof.
  intros Hq. destruct (quiet_steps _ _ Hq) as (E & _ & U & _).
  split; [|done]. unfold firstUpdate_flags. by rewrite E, app_nil_r.
Qed.

Lemma watch_flags cls executor i :
  let i' := final (watch cls executor i) in
  firstUpdate_flags (effects i') = firstUpdate_flags (effects i)
  /\ _hasUpdated i' = _hasUpdated i.
Proof.
  cbv zeta. unfold watch, bind, gets.
  pose proof (keeps_script quiet cls executor i) as Hq. apply quiet_flags in Hq.
  destruct (run_script _ _ executor i) as [[] i1|e i1]; [|exact Hq].
  simpl in Hq.
  destruct (watch_loop_trace cls (_changedProperties i) (_changedProperties i1) i1) as [E U].
  destruct Hq as [Hf Hu]. split; [by rewrite E | congruence].
Qed.

Lemma told_first_react cls s i :
  scheduler_invariant i -> promise_chain i -> told_first i -> told_first (react cls s i).
Proof.
  intros Hi Hc [Hf Hu]. destruct s as [s|ex|p|p|p]; simpl.
  - destruct (quiet_flags _ _ (keeps_script quiet cls s i)) as [E U].
    destruct (keeps_script coalesced cls s i) as (_ & P & _).
    split; [by rewrite E, P | by rewrite U, P].
  - destruct (watch_flags cls ex i) as [E U].
    destruct (keeps_coalesced_watch cls ex i) as (_ & P & _).
    split; [by rewrite E, P | by rewrite U, P].
  - unfold resume_previous. by repeat case_match.
  - unfold animation_frame.
    destruct (find_job p i) as [j0|] eqn:Hfind; [|done].
    destruct (phase j0) eqn:Hph; try done.
    destruct (find_job_Some _ _ _ Hfind) as [H0 E0].
    pose proof (frame_is_next i j0 Hi Hc H0 Hph) as Hnext.
    assert (Hu0 : unfinished j0 = true) by (unfold unfinished; by rewrite Hph).
    destruct (inv_unfinished _ Hi j0 H0 Hu0) as [EU F].
    destruct (update_requested cls i F) as (_ & _ & _ & _ & _ & P).
    rewrite _scheduleUpdate_callback_cases.
    destruct (update cls i) as [[] u|e u] eqn:Hup; simpl in *.
    + destruct (update_calls cls i u Hup) as (E & _ & U).
      split; simpl.
      * unfold firstUpdate_flags in *. rewrite E, !omap_app. simpl.
        rewrite (hook_flag_map CallReflectProperty), (hook_flag_map CallNotifyProperty) by done.
        simpl. rewrite Hf, P, fmap_app. simpl. f_equal. f_equal.
        rewrite Hu. rewrite <- E0, Hnext.
        destruct (passes i); simpl; repeat case_bool_decide; simpl in *; done || lia.
      * rewrite U. symmetry. apply bool_decide_eq_true_2. by destruct (passes u).
    + destruct (update_aborted cls i e u Hup) as (c & (E & _ & U & _) & Hc0).
      split; simpl.
      * unfold firstUpdate_flags in *. by rewrite E, omap_app, Hc0, app_nil_r, P.
      * by rewrite U, P.
  - unfold resume_result. by repeat case_match.
Qed.

(** X4. [updateCallback] is called once per completed pass, with
    [firstUpdate] set in the first of them only; [_hasUpdated] is set from
    the first completed pass on. *)
Theorem firstUpdate_in_first_pass_only (cls : CustomElementClass) (l : list Stimulus) :
  let i := run cls l constructed in
  firstUpdate_flags (effects i) = (fun p => bool_decide (p = 1)) <$> passes i
  /\ passes i = seq 1 (length (passes i))
  /\ _hasUpdated i = bool_decide (passes i <> []).
Proof.
  intros i.
  assert (H : scheduler_invariant i /\ promise_chain i /\ told_first i).
  { subst i. generalize constructed, scheduler_invariant_constructed,
      promise_chain_constructed, (conj eq_refl eq_refl : told_first constructed).
    induction l as [|s l IH]; intros i Hi Hc Ht; simpl; [done|].
    apply IH; [by apply scheduler_invariant_react | by apply promise_chain_react
              | by apply told_first_react]. }
  destruct H as (Hi & Hc & Hf & Hu). split; [done|]. split; [apply Hc | done].
Qed.

Lemma map_has_set_inv {K V} `{EqDecision K} (m : JsMap K V) k v k' :
  map_has (map_set m k v) k' = true -> k' = k \/ map_has m k' = true.
Proof.
  destruct (decide (k = k')) as [->|Hne]; [by left|].
  unfold map_has. rewrite map_get_set_ne by done. by right.
Qed.

Lemma map_has_set_here {K V} `{EqDecision K} (m : JsMap K V) k v :
  map_has (map_set m k v) k = true.
Proof. unfold map_has. by rewrite map_get_set. Qed.

Lemma within_same i i' :
  _changedProperties i' = _changedProperties i ->
  _reflectingProperties i' = _reflectingProperties i ->
  _notifyingProperties i' = _notifyingProperties i ->
  within i i'.
Proof. intros C R N [Hr Hn]. split; rewrite ?C, ?R, ?N; done. Qed.

#[global] Instance within_preorder : PreOrder within.
Proof. split; [by intros i H | intros i1 i2 i3 H12 H23 H; auto]. Qed.

#[global] Instance within_sync : SyncClosed within.
Proof.
  split; try apply _.
  - intros i f. by apply within_same.
  - intros i d. by apply within_same.
  - intros i e _. by apply within_same.
  - intros cls k o v i.
    requestUpdate_cases; try (by apply within_same);
      intros [Hr Hn]; split; simpl; intros k' Hk';
      repeat match goal with
             | H : map_has (map_set _ _ _) _ = true |- _ =>
                 apply map_has_set_inv in H as [->|H]
             end;
      first [apply map_has_set_here | apply map_has_set; auto].
Qed.

#[global] Instance within_guard : GuardClosed within.
Proof. split; [apply _|]. intros i b. by apply within_same. Qed.

Lemma keeps_within_emit e : keeps within (emit e).
Proof. intros i. by apply within_same. Qed.

Lemma keeps_within_reflectProperty cls k o v : keeps within (reflectProperty cls k o v).
Proof.
  intros i. transitivity (set_effects (effects i ++ [FxReflectProperty k o v]) i).
  - by apply within_same.
  - apply reflectProperty_after_marker, _.
Qed.

Lemma keeps_within_notifyProperty cls k o v : keeps within (notifyProperty cls k o v).
Proof.
  intros i. transitivity (set_effects (effects i ++ [FxNotifyProperty k o v]) i).
  - by apply within_same.
  - apply notifyProperty_after_marker, _.
Qed.

Lemma keeps_within_update cls : keeps within (update cls).
Proof.
  unfold update, render, updateCallback, _notifyLifecycle.
  repeat keeps_step;
    first [ apply keeps_within_emit
          | apply keeps_forEach; [apply _|];
            first [apply keeps_within_reflectProperty | apply keeps_within_notifyProperty]
          | (intros i; by apply within_same) ].
Qed.

Lemma watch_loop_within cls previous entries i :
  (forall k v, (k, v) ∈ entries -> map_has (_changedProperties i) k = true) ->
  within i (final (watch_loop cls previous entries i)).
Proof.
  revert i. induction entries as [|[k o] entries IH]; intros i Hin; simpl; [done|].
  unfold bind at 1.
  assert (Hm : forall c : M bool, (forall i, final (c i) = i) ->
             within i (final (match c i with
                       | Normal a i0 =>
                           (when a (modify (fun i1 => set_notifyingProperties
                              (map_set (_notifyingProperties i1) k o) i1));;
                            watch_loop cls previous entries) i0
                       | Abrupt e i0 => Abrupt e i0
                       end))).
  { intros c Hc. specialize (Hc i). destruct (c i) as [a i0|e i0]; simpl in *; subst i0; [|done].
    unfold bind, when, modify, ret. destruct a; simpl.
    - etransitivity; [|apply IH; simpl; intros; eapply Hin; by apply list_elem_of_further].
      intros [Hr Hn]. split; [done|]. simpl. intros k' [->|Hk']%map_has_set_inv; [|by apply Hn].
      eapply Hin, list_elem_of_here.
    - apply IH. intros; eapply Hin; by apply list_elem_of_further. }
  destruct (map_get previous k).
  - apply Hm. apply hasChanged_final.
  - apply Hm. done.
Qed.

Lemma map_has_elem {K V} `{EqDecision K} (m : JsMap K V) k v :
  (k, v) ∈ m -> map_has m k = true.
Proof.
  unfold map_has. induction m as [|[k' v'] m IH]; intros Hin; [by apply elem_of_nil in Hin|].
  simpl. destruct (decide (k' = k)); [done|].
  apply elem_of_cons in Hin as [?|Hin]; [by simplify_eq | by apply IH].
Qed.

Lemma keeps_within_watch cls executor : keeps within (watch cls executor).
Proof.
  intros i. unfold watch, bind, gets.
  pose proof (keeps_script within cls executor i) as Hs.
  destruct (run_script _ _ executor i) as [[] i1|e i1]; simpl in *; [|done].
  etransitivity; [exact Hs|]. apply watch_loop_within. intros k v. apply map_has_elem.
Qed.

Lemma dirty_within_react cls s i : dirty_within i -> dirty_within (react cls s i).
Proof.
  intros H. destruct s as [s|ex|p|p|p]; simpl.
  - by apply (keeps_script within cls s i).
  - by apply (keeps_within_watch cls ex i).
  - unfold resume_previous. by repeat case_match.
  - unfold animation_frame.
    destruct (find_job p i) as [j0|]; [|done].
    destruct (phase j0); try done.
    rewrite _scheduleUpdate_callback_cases.
    pose proof (keeps_within_update cls i H) as Hu.
    destruct (update cls i) as [[] u|e u]; simpl in *; [|done].
    split; done.
  - unfold resume_result. by repeat case_match.
Qed.

(** X5. Whatever has happened to an element, the properties queued for
    reflection and for notification are among the changed properties. *)
Theorem queues_within_changedProperties (cls : CustomElementClass) (l : list Stimulus)
    (k : PropertyKey) :
  let i := run cls l constructed in
  (map_has (_reflectingProperties i) k = true -> map_has (_changedProperties i) k = true)
  /\ (map_has (_notifyingProperties i) k = true -> map_has (_changedProperties i) k = true).
Proof.
  intros i.
  assert (H : dirty_within i).
  { subst i. generalize constructed, (conj (fun k H => H) (fun k H => H) : dirty_within constructed).
    induction l as [|s l IH]; intros i Hi; simpl; [done|].
    apply IH. by apply dirty_within_react. }
  destruct H as [Hr Hn]. split; [apply Hr | apply Hn].
Qed.

(** X6. For a declared property with a truthy key, a change detector that
    throws makes the request and the write throw the detector error; the
    write has stored the value by then, and nothing is recorded or
    scheduled. *)
Theorem throwing_detector_fails_the_write (cls : CustomElementClass) (key : PropertyKey)
    (d : PropertyDeclaration) (name : string) (f : Value -> Value -> option bool)
    (i : Instance) :
  properties cls !! key = Some d -> observe d = ObserveFunction name f ->
  key_truthy key = true ->
  (forall o v, f o v = None ->
     requestUpdate cls (Some key) o v i = Abrupt (CHANGE_DETECTOR_ERROR (IdFunction name)) i)
  /\ (forall v, f (get_property key i) v = None ->
        set_property cls key v i =
        Abrupt (CHANGE_DETECTOR_ERROR (IdFunction name))
          (set_storage (<[key := v]> (storage i)) i)).
Proof.
  intros Hd Ho Hk.
  assert (Hreq : forall o v i, f o v = None ->
            requestUpdate cls (Some key) o v i = Abrupt (CHANGE_DETECTOR_ERROR (IdFunction name)) i).
  { intros o v i0 Hf. unfold requestUpdate. rewrite Hk. unfold bind at 1, hasChanged.
    unfold _getPropertyDeclaration. by rewrite Hd, Ho, Hf. }
  split; [intros o v; apply Hreq|].
  intros v Hf. unfold set_property, _getPropertyDeclaration. rewrite Hd.
  unfold bind at 1, gets at 1. unfold bind at 1, modify at 1. unfold bind at 1.
  by rewrite Hreq.
Qed.

Lemma throwing_detector_fails_the_write_witness :
  set_property Picky (KString "p") (VNumber 1) constructed
  = Abrupt (CHANGE_DETECTOR_ERROR (IdFunction "picky"))
      (set_storage {[ KString "p" := VNumber 1 ]} constructed).
Proof.
  destruct (throwing_detector_fails_the_write Picky (KString "p") _ "picky" (fun _ _ => None)
              constructed eq_refl eq_refl eq_refl) as [_ H].
  rewrite (H (VNumber 1) eq_refl). reflexivity.
Defined.

(** X7. A change of an attribute with no property of its own, or whose
    property is named by a falsy key, is logged and otherwise ignored. *)
Theorem unowned_attribute_is_ignored (cls : CustomElementClass) (n : string)
    (o v : option string) (i : Instance) :
  opt_key_truthy (attributes cls !! n) = false -> o <> v -> _isReflecting i = false ->
  attributeChangedCallback cls n o v i
  = Normal tt (set_effects (effects i ++ [FxConsoleLog n]) i).
Proof.
  intros Hk Hne Hr. unfold attributeChangedCallback. simpl.
  unfold attributeChangedCallback_body, bind, gets. rewrite Hr.
  rewrite bool_decide_eq_false_2 by done. simpl.
  unfold reflectAttribute. by rewrite Hk.
Qed.

Lemma unowned_attribute_is_ignored_witness :
  attributeChangedCallback Blank "blank" None (Some "x") constructed
  = Normal tt (set_effects [FxConsoleLog "blank"] constructed).
Proof.
  apply (unowned_attribute_is_ignored Blank "blank" None (Some "x") constructed);
    [reflexivity | discriminate | reflexivity].
Defined.

Section BooleanRoundTrip.
Variable cls : CustomElementClass.
Variables (k : PropertyKey) (n : string).
Hypothesis declared : properties cls !! k = Some (declaration n AttributeConverterBoolean).
Hypothesis owned : attributes cls !! n = Some k.
Hypothesis truthy : key_truthy k = true.
Hypothesis named : n <> "".

Lemma boolean_reflectProperty o b i :
  exists i', reflectProperty cls k o (VBool b) i = Normal tt i'
    /\ dom i' = match boolean_attribute b with
                | Some s => <[n := s]> (dom i)
                | None => delete n (dom i)
                end
    /\ storage i' = storage i
    /\ _isReflecting i' = false.
Proof.
  unfold reflectProperty, bind at 1, emit at 1, modify at 1.
  unfold _getPropertyDeclaration. rewrite declared. simpl.
  unfold bind at 1, modify at 1. set (i1 := set_isReflecting true _).
  assert (H1 : _isReflecting i1 = true) by done.
  unfold bind at 1, _reflectProperty, _getPropertyDeclaration. rewrite declared. simpl.
  assert (Hn : negb (negb (String.eqb n "")) = false)
    by (destruct (String.eqb_spec n ""); done).
  rewrite Hn. destruct b; simpl.
  - rewrite (setAttribute_reflecting cls n "true" i1 H1). eexists. split; [reflexivity|]. done.
  - rewrite (removeAttribute_reflecting cls n i1 H1). eexists. split; [reflexivity|]. done.
Qed.

Lemma boolean_reflectAttribute o a i :
  o <> a -> _isReflecting i = false ->
  exists i', attributeChangedCallback cls n o a i = Normal tt i'
    /\ get_property k i' = VBool (bool_decide (a <> None))
    /\ dom i' = dom i
    /\ _reflectingProperties i' = _reflectingProperties i
    /\ _isReflecting i' = false.
Proof.
  intros Hne Hr. unfold attributeChangedCallback. simpl.
  unfold attributeChangedCallback_body, bind at 1, gets at 1. rewrite Hr.
  rewrite bool_decide_eq_false_2 by done. simpl.
  unfold reflectAttribute. rewrite owned. simpl. rewrite truthy. simpl.
  unfold _getPropertyDeclaration. rewrite declared. simpl.
  unfold bind at 1, modify at 1. set (i1 := set_isReflecting true i).
  unfold bind at 1, _reflectAttribute. rewrite owned.
  unfold _getPropertyDeclaration. rewrite declared. simpl.
  unfold set_property, _getPropertyDeclaration. rewrite declared.
  unfold bind at 1, gets at 1. unfold bind at 1, modify at 1. unfold bind at 1.
  set (i2 := set_storage _ i1).
  unfold requestUpdate. rewrite truthy.
  unfold bind at 1, hasChanged, _getPropertyDeclaration. rewrite declared. simpl.
  unfold ret.
  destruct (negb _ && _); simpl.
  - unfold bind, gets, modify, when, _enqueueUpdate, bind, gets, modify, ret. simpl.
    destruct (_hasRequestedUpdate i); simpl;
      (eexists; split; [reflexivity|]); simpl; unfold get_property; simpl;
      by rewrite lookup_insert_eq.
  - unfold bind, gets, modify, ret. simpl.
    eexists. split; [reflexivity|]. simpl. unfold get_property. simpl.
    by rewrite lookup_insert_eq.
Qed.
End BooleanRoundTrip.

(** X8. A boolean property and its attribute, there and back, for a
    property with a truthy key, declared with the boolean converter and the
    default reflectors under a non-empty attribute name that is observed and
    mapped to the key: reflecting the property sets the attribute for [true]
    and removes it for [false], and the attribute converts back to the value
    reflected; while the element is not reflecting, removing the attribute
    from outside makes the property [false] and setting it makes the
    property [true], and neither queues the property for reflection. *)
Theorem boolean_property_round_trip (cls : CustomElementClass) (k : PropertyKey) (n : string)
    (i : Instance) :
  properties cls !! k = Some (declaration n AttributeConverterBoolean) ->
  attributes cls !! n = Some k -> key_truthy k = true -> n <> "" ->
  n ∈ observedAttributes cls ->
  (forall o b, exists i',
     reflectProperty cls k o (VBool b) i = Normal tt i'
     /\ dom i' !! n = boolean_attribute b
     /\ get_property k i' = get_property k i
     /\ fromAttribute AttributeConverterBoolean (dom i' !! n) = Some (VBool b))
  /\ (forall s, _isReflecting i = false -> dom i !! n = Some s -> exists i',
        removeAttribute cls (attributeChangedCallback cls) n i = Normal tt i'
        /\ dom i' !! n = None
        /\ get_property k i' = VBool false
        /\ _reflectingProperties i' = _reflectingProperties i)
  /\ (forall s, _isReflecting i = false -> dom i !! n = None -> exists i',
        setAttribute cls (attributeChangedCallback cls) n s i = Normal tt i'
        /\ dom i' !! n = Some s
        /\ get_property k i' = VBool true
        /\ _reflectingProperties i' = _reflectingProperties i).
Proof.
  intros Hd Ha Hk Hn Hobs. split; [|split].
  - intros o b. destruct (boolean_reflectProperty cls k n Hd Hn o b i) as (i' & H & D & S & _).
    exists i'. split; [done|]. unfold get_property. rewrite S, D.
    destruct b; simpl; by rewrite ?lookup_insert_eq, ?lookup_delete_eq.
  - intros s Hr Hs. unfold removeAttribute, bind at 1, gets at 1. unfold bind at 1, emit at 1, modify at 1.
    rewrite Hs. unfold bind at 1, modify at 1. rewrite bool_decide_eq_true_2 by done. simpl.
    set (i1 := set_dom _ _).
    destruct (boolean_reflectAttribute cls k n Hd Ha Hk (Some s) None i1) as (i' & H & G & D & R & _);
      [done..|].
    exists i'. split; [unfold reaction; by rewrite H|]. rewrite D. simpl. rewrite lookup_delete_eq.
    rewrite G. split; [done|]. split; [|done]. by rewrite bool_decide_eq_false_2 by (by intros []).
  - intros s Hr Hs. unfold setAttribute, bind at 1, gets at 1. unfold bind at 1, modify at 1.
    unfold bind at 1, emit at 1, modify at 1.
    rewrite Hs. rewrite bool_decide_eq_true_2 by done. simpl.
    set (i1 := set_effects _ _).
    destruct (boolean_reflectAttribute cls k n Hd Ha Hk None (Some s) i1) as (i' & H & G & D & R & _);
      [done..|].
    exists i'. split; [unfold reaction; by rewrite H|]. rewrite D. simpl. rewrite lookup_insert_eq.
    rewrite G. split; [done|]. split; [|done]. by rewrite bool_decide_eq_true_2.
Qed.

Lemma boolean_property_round_trip_witness :
  (exists i', reflectProperty Checkbox (KString "checked") VUndefined (VBool true) constructed
              = Normal tt i' /\ dom i' !! "checked" = Some "true")
  /\ (exists i', removeAttribute Checkbox (attributeChangedCallback Checkbox) "checked"
                   (set_dom {[ "checked" := "true" ]} constructed) = Normal tt i'
                 /\ get_property (KString "checked") i' = VBool false).
Proof.
  split.
  - destruct (boolean_property_round_trip Checkbox (KString "checked") "checked" constructed
                eq_refl eq_refl eq_refl ltac:(discriminate) ltac:(apply list_elem_of_here))
      as (H & _).
    destruct (H VUndefined true) as (i' & E & D & _). exists i'. split; [exact E | exact D].
  - destruct (boolean_property_round_trip Checkbox (KString "checked") "checked"
                (set_dom {[ "checked" := "true" ]} constructed)
                eq_refl eq_refl eq_refl ltac:(discriminate) ltac:(apply list_elem_of_here))
      as (_ & H & _).
    destruct (H "true" eq_refl ltac:(vm_compute; reflexivity)) as (i' & E & _ & G & _).
    exists i'. split; [exact E | exact G].
Defined.

Lemma run_script_guarded cls s i e i1 :
  _isReflecting i = true ->
  run_script cls (attributeChangedCallback cls) s i = Abrupt e i1 ->
  _isReflecting i1 = true.
Proof.
  intros Hr Hrun.
  assert (Hg : forall n o v, keeps guarded (attributeChangedCallback cls n o v))
    by (intros; apply returns_when_reflecting_guarded, attributeChangedCallback_reflecting).
  pose proof (keeps_run_script guarded cls (attributeChangedCallback cls) Hg s i) as G.
  rewrite Hrun in G. by destruct (G Hr).
Qed.

(** X20. A custom property reflector or notifier that fails fails the call
    with the error of its kind naming the handler.  A reflector function
    that throws leaves [_isReflecting] set.  A reflector or notifier given as
    a truthy key the element has no method for is reported in the same way
    with nothing called: the reflector with the guard left set, the notifier
    with the guard as it was, and neither touches the stored properties or
    the attributes. *)
Theorem failing_property_handlers (cls : CustomElementClass) (k : PropertyKey)
    (d : PropertyDeclaration) (o v : Value) (i : Instance) :
  properties cls !! k = Some d ->
  (forall name f e i1,
     reflectProperty_option d = HandlerFunction name f ->
     run_script cls (attributeChangedCallback cls) (f (key_value k) o v)
       (set_effects ((effects i ++ [FxReflectProperty k o v])
                       ++ [FxCall (IdFunction name) (key_value k) o v])
          (set_isReflecting true i)) = Abrupt e i1 ->
     reflectProperty cls k o v i = Abrupt (PROPERTY_REFLECTOR_ERROR (IdFunction name)) i1
     /\ _isReflecting i1 = true)
  /\ (forall key,
        reflectProperty_option d = HandlerKey key -> key_truthy key = true ->
        methods cls !! key = None ->
        exists i1,
          reflectProperty cls k o v i = Abrupt (PROPERTY_REFLECTOR_ERROR (IdKey key)) i1
          /\ effects i1 = (effects i ++ [FxReflectProperty k o v])%list
          /\ _isReflecting i1 = true /\ storage i1 = storage i /\ dom i1 = dom i)
  /\ (forall key,
        notify d = HandlerKey key -> key_truthy key = true ->
        methods cls !! key = None ->
        exists i1,
          notifyProperty cls k o v i = Abrupt (PROPERTY_NOTIFIER_ERROR (IdKey key)) i1
          /\ effects i1 = (effects i ++ [FxNotifyProperty k o v])%list
          /\ _isReflecting i1 = _isReflecting i /\ storage i1 = storage i /\ dom i1 = dom i).
Proof.
  intros Hd. split; [|split].
  - intros name f e i1 Hr Hrun.
    assert (E : reflectProperty cls k o v i
                = Abrupt (PROPERTY_REFLECTOR_ERROR (IdFunction name)) i1).
    { unfold reflectProperty, _getPropertyDeclaration. rewrite Hd, Hr. simpl.
      unfold bind at 1, emit at 1, modify at 1. unfold bind at 1, modify at 1.
      unfold bind at 1, rethrow_as. unfold bind at 1, emit, modify.
      match goal with
      | |- context [run_script _ _ _ ?st] =>
          match type of Hrun with
          | run_script _ _ _ ?st' = _ => change st with st'
          end
      end.
      by rewrite Hrun. }
    split; [exact E|]. eapply run_script_guarded; [|exact Hrun]. reflexivity.
  - intros key Hr Hk Hm. eexists. split.
    + unfold reflectProperty, _getPropertyDeclaration. rewrite Hd, Hr.
      cbn [handler_truthy]. rewrite Hk.
      unfold when, bind, emit, modify, rethrow_as, call_method.
      match goal with
      | |- context [@lookup ?K ?A ?M ?I key (methods cls)] =>
          change (@lookup K A M I key (methods cls)) with (methods cls !! key)
      end.
      rewrite Hm. reflexivity.
    + done.
  - intros key Hn Hk Hm. eexists. split.
    + unfold notifyProperty, _getPropertyDeclaration. rewrite Hd, Hn.
      cbn [handler_truthy]. rewrite Hk.
      unfold when, bind, emit, modify, rethrow_as, call_method.
      match goal with
      | |- context [@lookup ?K ?A ?M ?I key (methods cls)] =>
          change (@lookup K A M I key (methods cls)) with (methods cls !! key)
      end.
      rewrite Hm. reflexivity.
    + done.
Qed.

(** The reflector of [Brittle] throws; [Dangling] names a method it does not
    have as reflector and as notifier. *)
Lemma failing_property_handlers_witness :
  (exists i1,
     reflectProperty Brittle (KString "p") VUndefined (VNumber 1) constructed
     = Abrupt (PROPERTY_REFLECTOR_ERROR (IdFunction "boom")) i1
     /\ _isReflecting i1 = true)
  /\ (exists i1,
        reflectProperty Dangling (KString "p") VUndefined (VNumber 1) constructed
        = Abrupt (PROPERTY_REFLECTOR_ERROR (IdKey (KString "missing"))) i1
        /\ effects i1 = [FxReflectProperty (KString "p") VUndefined (VNumber 1)]
        /\ _isReflecting i1 = true)
  /\ (exists i1,
        notifyProperty Dangling (KString "p") VUndefined (VNumber 1) constructed
        = Abrupt (PROPERTY_NOTIFIER_ERROR (IdKey (KString "missing"))) i1
        /\ effects i1 = [FxNotifyProperty (KString "p") VUndefined (VNumber 1)]
        /\ _isReflecting i1 = false).
Proof.
  split; [|split].
  - destruct (failing_property_handlers Brittle (KString "p") _ VUndefined (VNumber 1)
                constructed eq_refl) as (H & _).
    eexists. apply (H "boom" (fun _ _ _ => [ActThrow]) ScriptError).
    + reflexivity.
    + vm_compute. reflexivity.
  - destruct (failing_property_handlers Dangling (KString "p") _ VUndefined (VNumber 1)
                constructed eq_refl) as (_ & H & _).
    destruct (H (KString "missing") eq_refl eq_refl eq_refl) as (i1 & E & Fx & G & _).
    exists i1. split; [exact E|]. split; [exact Fx | exact G].
  - destruct (failing_property_handlers Dangling (KString "p") _ VUndefined (VNumber 1)
                constructed eq_refl) as (_ & _ & H).
    destruct (H (KString "missing") eq_refl eq_refl eq_refl) as (i1 & E & Fx & G & _).
    exists i1. split; [exact E|]. split; [exact Fx | exact G].
Defined.

Lemma unlisten_registered (ds : list InstanceListenerDeclaration.t) (rs : list Registration) :
  fold_left (fun rs d => removeEventListener d rs) ds rs
  = List.filter (fun r => bool_decide (r ∉ registration_of <$> ds)) rs.
Proof.
  revert rs. induction ds as [|d ds IH]; intros rs; simpl.
  - induction rs as [|r rs IHr]; simpl; [done|]. by rewrite <- IHr.
  - rewrite IH. unfold removeEventListener.
    induction rs as [|r rs IHr]; simpl; [done|].
    destruct (decide (r = registration_of d)) as [->|Hne].
    + rewrite (bool_decide_eq_false_2 (_ <> _)) by (by intros []).
      rewrite (bool_decide_eq_false_2 (_ ∉ _ :: _)); [done|].
      intros H. apply H, list_elem_of_here.
    + rewrite (bool_decide_eq_true_2 (_ <> _)) by done. simpl.
      rewrite IHr. apply (f_equal (fun b : bool => if b then _ else _)).
      apply bool_decide_ext. rewrite elem_of_cons. tauto.
Qed.

Section LifecycleFacts.
Variable cls : CustomElementClass.
Variable listeners : JsMap PropertyKey ListenerDeclaration.

Lemma disconnectedCallback_spec c i :
  disconnectedCallback c i
  = Returned (_unlisten (set_isConnected false c),
              set_effects (effects i ++ [FxLifecycle "disconnected" None]) i).
Proof. done. Qed.

Lemma unlisten_elem c r :
  r ∈ registered (_unlisten c) <->
  r ∈ registered c /\ forall d, d ∈ _listenerDeclarations c -> r <> registration_of d.
Proof.
  unfold _unlisten. simpl. rewrite unlisten_registered.
  rewrite list_elem_of_In, filter_In, <- list_elem_of_In.
  rewrite bool_decide_eq_true. split; intros [Hr Hn]; (split; [done|]).
  - intros d Hd ->. apply Hn. apply list_elem_of_fmap. eauto.
  - intros (d & -> & Hd)%list_elem_of_fmap. by apply (Hn d).
Qed.

Lemma listen_entries_spec entries :
  (forall k d, (k, d) ∈ entries ->
     is_Some (methods cls !! k) /\
     forall f, target d = TargetFunction f -> forall c, is_Some (f c)) ->
  forall c, fresh c ->
  exists new,
    _listen_entries cls entries c =
      Returned {| _isConnected := _isConnected c;
                  _listenerDeclarations := _listenerDeclarations c ++ new;
                  registered := registered c ++ (registration_of <$> new);
                  bound := bound c + length entries |}
    /\ bound_declarations entries (bound c) new.
Proof.
  induction entries as [|[k d] entries IH]; intros Hb c Hf; simpl.
  - exists []. simpl. rewrite !app_nil_r, Nat.add_0_r. split; [by destruct c | done].
  - destruct (Hb k d (list_elem_of_here _ _)) as [[m Hm] Ht]. rewrite Hm.
    set (c1 := {| _isConnected := _isConnected c; _listenerDeclarations := _ ;
                  registered := _; bound := S (bound c) |}).
    assert (Hres : exists t, match target d with
                             | TargetUndefined => Some ThisElement
                             | TargetFunction f => f c1
                             | TargetObject t => Some t
                             end = Some t).
    { destruct (target d) as [|f|t] eqn:Et; eauto. destruct (Ht f eq_refl c1); eauto. }
    destruct Hres as [t ->].
    set (decl := {| InstanceListenerDeclaration.event := event d; InstanceListenerDeclaration.options := options d;
                    InstanceListenerDeclaration.listener := bound c; InstanceListenerDeclaration.target := t |}).
    assert (Hnew : registration_of decl ∉ registered c).
    { intros Hin. apply Hf in Hin. simpl in Hin. lia. }
    unfold addEventListener. simpl. rewrite (bool_decide_eq_false_2 _ Hnew).
    set (c2 := {| _isConnected := _ |}).
    destruct (IH (fun k' d' H => Hb k' d' (list_elem_of_further _ _ _ H)) c2)
      as (new & E & Hev & Hop & Hli).
    { intros r [Hr|Hr%list_elem_of_singleton]%elem_of_app; simpl.
      - apply Hf in Hr. lia.
      - subst r. simpl. lia. }
    exists (decl :: new). split.
    + rewrite E. subst c2. simpl. rewrite <- !app_assoc. simpl.
      f_equal. f_equal. lia.
    + split; [|split]; simpl; by f_equal.
Qed.

Lemma requestUpdate_keyless i :
  exists p i', requestUpdate cls None VUndefined VUndefined i = Normal p i'
    /\ _hasRequestedUpdate i' = true /\ effects i' = effects i /\ coalesced i i'.
Proof.
  pose proof (sync_requestUpdate (R := coalesced) cls None VUndefined VUndefined i) as Hc.
  revert Hc. unfold requestUpdate, bind, gets, when, _enqueueUpdate, bind, gets, modify, ret.
  destruct (_hasRequestedUpdate i) eqn:F; simpl; intros Hc; eexists _, _; (split; [reflexivity|]);
    simpl; done.
Qed.

Lemma connectedCallback_returns c c1 i :
  _listen_entries cls listeners (set_isConnected true c) = Returned c1 ->
  exists i',
    connectedCallback cls listeners c i = Returned (c1, i')
    /\ _hasRequestedUpdate i' = true
    /\ coalesced i i'
    /\ effects i' = (effects i ++ [FxLifecycle "connected" None])%list.
Proof.
  intros E. unfold connectedCallback, _listen. rewrite E. unfold bind.
  destruct (requestUpdate_keyless i) as (p & i1 & Hr & F & Ef & Hc). rewrite Hr.
  eexists. split; [reflexivity|]. simpl. split; [done|]. split; [|by rewrite Ef].
  destruct Hc as (Hs & Hp & Hc). done.
Qed.
End LifecycleFacts.

(** X10. Disconnecting takes every listener the element has ever bound off the
    page and nothing else; the declarations themselves are kept. *)
Theorem disconnectedCallback_unbinds (c : Connection) (i : Instance) :
  exists c' i',
    disconnectedCallback c i = Returned (c', i')
    /\ isConnected c' = false
    /\ (forall r, r ∈ registered c' <->
          r ∈ registered c /\ forall d, d ∈ _listenerDeclarations c -> r <> registration_of d)
    /\ _listenerDeclarations c' = _listenerDeclarations c
    /\ i' = set_effects (effects i ++ [FxLifecycle "disconnected" None]) i.
Proof.
  eexists _, _. split; [apply disconnectedCallback_spec|].
  split; [done|]. split; [|done].
  intros r. apply (unlisten_elem (set_isConnected false c)).
Qed.

(** X9. Connecting binds the listeners of the class in the order of the map,
    each to a new function, then requests an update and dispatches the
    [connected] event. *)
Theorem connectedCallback_binds_in_order (cls : CustomElementClass)
    (listeners : JsMap PropertyKey ListenerDeclaration) (c : Connection) (i : Instance) :
  bindable cls listeners -> fresh c ->
  exists c' i' new,
    connectedCallback cls listeners c i = Returned (c', i')
    /\ isConnected c' = true
    /\ _listenerDeclarations c' = (_listenerDeclarations c ++ new)%list
    /\ registered c' = (registered c ++ (registration_of <$> new))%list
    /\ bound_declarations listeners (bound c) new
    /\ _hasRequestedUpdate i' = true
    /\ coalesced i i'
    /\ effects i' = (effects i ++ [FxLifecycle "connected" None])%list.
Proof.
  intros Hb Hf.
  destruct (listen_entries_spec cls listeners Hb (set_isConnected true c) Hf)
    as (new & E & Hnew).
  destruct (connectedCallback_returns cls listeners c _ i E) as (i' & Hc & F & Hco & Ef).
  eexists _, i', new. split; [exact Hc|]. done.
Qed.

Lemma filter_all {A} (f : A -> bool) (l : list A) :
  (forall x, x ∈ l -> f x = true) -> List.filter f l = l.
Proof.
  induction l as [|x l IH]; intros H; simpl; [done|].
  rewrite (H x (list_elem_of_here _ _)), IH; [done|].
  intros y Hy. by apply H, list_elem_of_further.
Qed.

Lemma filter_none {A} (f : A -> bool) (l : list A) :
  (forall x, x ∈ l -> f x = false) -> List.filter f l = [].
Proof.
  induction l as [|x l IH]; intros H; simpl; [done|].
  rewrite (H x (list_elem_of_here _ _)), IH; [done|].
  intros y Hy. by apply H, list_elem_of_further.
Qed.

Lemma bound_declarations_callback listeners first new d :
  bound_declarations listeners first new -> d ∈ new ->
  first <= reg_callback (registration_of d).
Proof.
  intros (_ & _ & Hl) Hd. simpl.
  assert (Hin : InstanceListenerDeclaration.listener d ∈ InstanceListenerDeclaration.listener <$> new) by (apply list_elem_of_fmap; eauto).
  rewrite Hl in Hin. apply elem_of_seq in Hin. lia.
Qed.

Lemma bound_declarations_length listeners first new :
  bound_declarations listeners first new -> length new = length listeners.
Proof.
  intros (_ & _ & Hl). apply (f_equal length) in Hl.
  by rewrite length_fmap, length_seq in Hl.
Qed.

(** X11. Connecting and disconnecting again gives the page its listener lists
    back, and leaves the declarations of the connection behind. *)
Theorem reconnecting_keeps_declarations (cls : CustomElementClass)
    (listeners : JsMap PropertyKey ListenerDeclaration) (c : Connection) (i : Instance) :
  bindable cls listeners -> fresh c -> detached c ->
  exists c1 i1 c2 i2,
    connectedCallback cls listeners c i = Returned (c1, i1)
    /\ disconnectedCallback c1 i1 = Returned (c2, i2)
    /\ registered c2 = registered c
    /\ length (_listenerDeclarations c2)
       = length (_listenerDeclarations c) + length listeners
    /\ fresh c2 /\ detached c2.
Proof.
  intros Hb Hf Hd.
  destruct (listen_entries_spec cls listeners Hb (set_isConnected true c) Hf)
    as (new & E & Hnew).
  change (bound (set_isConnected true c)) with (bound c) in Hnew.
  destruct (connectedCallback_returns cls listeners c _ i E) as (i1 & Hc & _).
  set (c1 := {| _isConnected := _isConnected (set_isConnected true c) |}) in *.
  assert (Hdecl : _listenerDeclarations c1 = (_listenerDeclarations c ++ new)%list) by done.
  assert (Hreg : registered c1 = (registered c ++ (registration_of <$> new))%list) by done.
  assert (Hbound : bound c <= bound c1) by (simpl; lia).
  clearbody c1.
  exists c1, i1. eexists _, _. split; [exact Hc|].
  split; [apply disconnectedCallback_spec|].
  assert (Hkeep : forall r, r ∈ registered c ->
            bool_decide (r ∉ registration_of <$> _listenerDeclarations c1) = true).
  { intros r Hr. apply bool_decide_eq_true_2. rewrite Hdecl, fmap_app.
    intros [(d & -> & Hin)%list_elem_of_fmap|(d & -> & Hin)%list_elem_of_fmap]%elem_of_app.
    - by apply (Hd d).
    - pose proof (bound_declarations_callback _ _ _ d Hnew Hin). apply Hf in Hr. lia. }
  assert (Hdrop : forall r, r ∈ registration_of <$> new ->
            bool_decide (r ∉ registration_of <$> _listenerDeclarations c1) = false).
  { intros r Hr. apply bool_decide_eq_false_2. intros Hn. apply Hn.
    rewrite Hdecl, fmap_app. apply elem_of_app. by right. }
  assert (Hrs : registered (_unlisten (set_isConnected false c1)) = registered c).
  { unfold _unlisten. simpl. rewrite unlisten_registered, Hreg, List.filter_app.
    rewrite (filter_all _ _ Hkeep), (filter_none _ _ Hdrop). apply app_nil_r. }
  split; [exact Hrs|]. split; [|split].
  - simpl. rewrite Hdecl, length_app. by rewrite (bound_declarations_length _ _ _ Hnew).
  - intros r Hr. rewrite Hrs in Hr. apply Hf in Hr. simpl.
    lia.
  - intros d Hin Hr. rewrite Hrs in Hr. simpl in Hin. rewrite Hdecl in Hin.
    apply elem_of_app in Hin as [Hin|Hin]; [by apply (Hd d)|].
    pose proof (bound_declarations_callback _ _ _ d Hnew Hin). apply Hf in Hr. lia.
Qed.

Lemma reconnecting_keeps_declarations_witness :
  exists c1 i1 c2 i2,
    connectedCallback Clickable Clickable_listeners (created []) constructed = Returned (c1, i1)
    /\ disconnectedCallback c1 i1 = Returned (c2, i2)
    /\ registered c2 = []
    /\ length (_listenerDeclarations c2) = 1.
Proof.
  assert (Hb : bindable Clickable Clickable_listeners).
  { intros k d Hin. apply list_elem_of_singleton in Hin. simplify_eq. split; [by eexists|].
    intros f Hf. discriminate Hf. }
  assert (Hf : fresh (created [])) by (intros r Hr; by apply elem_of_nil in Hr).
  assert (Hd : detached (created [])) by (intros d Hr; by apply elem_of_nil in Hr).
  destruct (reconnecting_keeps_declarations Clickable Clickable_listeners (created [])
              constructed Hb Hf Hd) as (c1 & i1 & c2 & i2 & H1 & H2 & H3 & H4 & _).
  exists c1, i1, c2, i2. split; [exact H1|]. split; [exact H2|]. split; [exact H3 | exact H4].
Defined.

Lemma connectedCallback_binds_in_order_witness :
  exists c' i',
    connectedCallback Clickable Clickable_listeners (created []) constructed = Returned (c', i')
    /\ isConnected c' = true
    /\ registered c' = [{| reg_target := ThisElement; reg_type := "click";
                           reg_callback := 1; reg_capture := false |}]
    /\ _hasRequestedUpdate i' = true.
Proof.
  assert (Hb : bindable Clickable Clickable_listeners).
  { intros k d Hin. apply list_elem_of_singleton in Hin. simplify_eq. split; [by eexists|].
    intros f Hf. discriminate Hf. }
  assert (Hf : fresh (created [])) by (intros r Hr; by apply elem_of_nil in Hr).
  destruct (connectedCallback_binds_in_order Clickable Clickable_listeners (created [])
              constructed Hb Hf) as (c' & i' & new & H1 & H2 & _ & H3 & _ & H4 & _).
  exists c', i'. split; [exact H1|]. split; [exact H2|]. split; [|exact H4].
  vm_compute in H1. injection H1 as <- _. reflexivity.
Defined.




Lemma take_drop_while p s : (take_while p s ++ drop_while p s)%list = s.
Proof. induction s as [|c s IH]; simpl; [done|]. destruct (p c); simpl; by rewrite ?IH. Qed.

Lemma drop_while_head p s c r : drop_while p s = c :: r -> p c = false.
Proof.
  induction s as [|a s IH]; simpl; [done|]. destruct (p a) eqn:E; [done|].
  intros. by simplify_eq.
Qed.

Lemma take_while_all p s : Forall (fun c => p c = true) (take_while p s).
Proof.
  induction s as [|c s IH]; simpl; [done|]. destruct (p c) eqn:E; [|done]. by constructor.
Qed.

Lemma replace_skip pattern replacement c s :
  ~ pattern `prefix_of` (c :: s) ->
  replace pattern replacement (c :: s) = c :: replace pattern replacement s.
Proof. intros H. simpl. by rewrite bool_decide_eq_false_2. Qed.

Lemma replace_here pattern replacement s :
  replace pattern replacement (pattern ++ s) = (replacement ++ s)%list.
Proof.
  destruct (pattern ++ s)%list eqn:E; simpl.
  - apply app_eq_nil in E as [-> ->]. rewrite bool_decide_eq_true_2 by done. done.
  - rewrite bool_decide_eq_true_2 by (rewrite <- E; by apply prefix_app_r).
    by rewrite <- E, drop_app_length.
Qed.

Lemma dash_spaces_run sp c r :
  sp <> [] -> Forall (fun c => is_space c = true) sp -> is_space c = false ->
  dash_spaces (sp ++ c :: r) = dash :: dash_spaces (c :: r).
Proof.
  intros Hne Hall Hc. remember (dash_spaces (c :: r)) as rest eqn:Hrest.
  induction sp as [|a sp IH]; [done|].
  apply Forall_cons in Hall as [Ha Hall].
  change (dash_spaces (a :: (sp ++ c :: r)) = dash :: rest).
  cbn [dash_spaces]. rewrite Ha.
  assert (Hd : drop_while is_space (sp ++ c :: r) = c :: r).
  { clear IH Hne. induction sp as [|b sp IH]; simpl; [by rewrite Hc|].
    apply Forall_cons in Hall as [Hb Hall]. rewrite Hb. by apply IH. }
  rewrite Hd. destruct sp as [|b sp]; cbn [app].
  - by rewrite Hc, Hrest.
  - apply Forall_cons in Hall as [Hb Hall']. rewrite Hb.
    apply IH; [done|]. by constructor.
Qed.

Lemma exec_SPACES_all s : Forall (fun c => is_space c = true) s -> exec SPACES s = None.
Proof.
  induction s as [|c s IH]; intros Hall; [done|].
  apply Forall_cons in Hall as [Hc Hall]. simpl.
  assert (Hd : drop_while is_space (c :: s) = []).
  { simpl. rewrite Hc. clear IH Hc. induction s as [|d s IH]; [done|].
    apply Forall_cons in Hall as [Hd Hall]. simpl. rewrite Hd. by apply IH. }
  unfold SPACES at 1. rewrite Hd. destruct (take_while is_space (c :: s)); by apply IH.
Qed.

Lemma drop_while_nil_all p s : drop_while p s = [] -> Forall (fun c => p c = true) s.
Proof.
  induction s as [|c s IH]; simpl; [done|]. destruct (p c) eqn:E; [|done].
  intros H. constructor; [done | by apply IH].
Qed.

(** One turn of the first loop. *)
Lemma SPACES_step s :
  match exec SPACES s with
  | Some (sp, c) =>
      dash_spaces (replace (sp ++ [c]) [dash; c] s) = dash_spaces s
      /\ spaces (replace (sp ++ [c]) [dash; c] s) < spaces s
      /\ length (replace (sp ++ [c]) [dash; c] s) <= length s
  | None => dash_spaces s = s
  end.
Proof.
  induction s as [|a s IH]; [done|].
  cbn [exec].
  destruct (is_space a) eqn:Ha.
  - destruct (drop_while is_space s) as [|c r] eqn:Hd.
    + pose proof (drop_while_nil_all _ _ Hd) as Hall.
      unfold SPACES at 1. cbn [take_while drop_while]. rewrite Ha, Hd.
      rewrite (exec_SPACES_all s Hall). cbn [dash_spaces]. by rewrite Ha, Hd.
    + pose proof (drop_while_head _ _ _ _ Hd) as Hc.
      pose proof (take_drop_while is_space s) as Hs. rewrite Hd in Hs.
      assert (SPACES (a :: s) = Some (a :: take_while is_space s, c)) as ->.
      { unfold SPACES. cbn [take_while drop_while]. by rewrite Ha, Hd. }
      set (sp := take_while is_space s) in *.
      assert (Hrep : replace ((a :: sp) ++ [c]) [dash; c] (a :: s) = dash :: c :: r).
      { rewrite <- Hs.
        replace (a :: sp ++ c :: r)%list with (((a :: sp) ++ [c]) ++ r)%list
          by (by rewrite <- app_assoc).
        by rewrite replace_here. }
      rewrite Hrep. split; [|split].
      * rewrite <- Hs.
        change (a :: (sp ++ c :: r))%list with ((a :: sp) ++ c :: r)%list.
        rewrite (dash_spaces_run (a :: sp) c r); [|done| |done].
        -- cbn [dash_spaces]. by replace (is_space dash) with false by done.
        -- constructor; [done | apply take_while_all].
      * unfold spaces. rewrite <- Hs. cbn [List.filter]. rewrite Ha.
        replace (is_space dash) with false by done. rewrite Hc.
        rewrite List.filter_app. cbn [List.filter]. rewrite Hc. simpl.
        rewrite length_app. lia.
      * rewrite <- Hs. simpl. rewrite length_app. simpl. lia.
  - assert (SPACES (a :: s) = None) as ->.
    { unfold SPACES. cbn [take_while drop_while]. by rewrite Ha. }
    destruct (exec SPACES s) as [[sp c]|] eqn:He.
    + destruct IH as (Hd & Hn & Hl).
      assert (Hsp : exists b sp', sp = b :: sp' /\ is_space b = true).
      { clear -He. induction s as [|x s IH]; [done|]. cbn [exec] in He.
        destruct (SPACES (x :: s)) as [[sp0 c0]|] eqn:Hm; [|by apply IH].
        simplify_eq. unfold SPACES in Hm. simpl in Hm. destruct (is_space x) eqn:Hx; [|done].
        destruct (drop_while is_space s); [done|]. simplify_eq. eauto. }
      destruct Hsp as (b & sp' & -> & Hb).
      rewrite replace_skip.
      2:{ intros [k Hk]. simpl in Hk. simplify_eq. congruence. }
      cbn [dash_spaces]. rewrite Ha, Hd. split; [done|]. split.
      * unfold spaces in *. cbn [List.filter]. by rewrite Ha.
      * cbn [length]. lia.
    + cbn [dash_spaces]. by rewrite Ha, IH.
Qed.

Lemma SPACES_loop_spec fuel s :
  spaces s < fuel -> SPACES_loop fuel s = Some (dash_spaces s).
Proof.
  revert s. induction fuel as [|fuel IH]; intros s Hf; [lia|]. simpl.
  pose proof (SPACES_step s) as Hs.
  destruct (exec SPACES s) as [[sp c]|].
  - destruct Hs as (Hd & Hn & _). rewrite IH by lia. by rewrite Hd.
  - by rewrite Hs.
Qed.

Lemma replace_CAMELS_head a b s :
  is_lower a = true ->
  head (replace [a; b] [a; dash; b] s) = head s.
Proof.
  intros Ha. destruct s as [|x s]; simpl; [done|].
  case_bool_decide as Hp; [|done]. destruct Hp as [k Hk]. simpl in Hk. by simplify_eq.
Qed.

Lemma exec_CAMELS_Some s a b :
  exec CAMELS s = Some (a, b) -> is_lower a = true /\ is_upper b = true.
Proof.
  induction s as [|x s IH]; [done|]. cbn [exec].
  destruct (CAMELS (x :: s)) as [[a0 b0]|] eqn:Hm; [|by apply IH].
  intros. simplify_eq. unfold CAMELS in Hm. destruct s as [|y s]; [done|].
  destruct (is_lower x && is_upper y) eqn:E; [|done]. simplify_eq.
  by apply andb_true_iff in E.
Qed.

(** One turn of the second loop. *)
Lemma CAMELS_step s :
  match exec CAMELS s with
  | Some (a, b) =>
      dash_camels (replace [a; b] [a; dash; b] s) = dash_camels s
      /\ camels (replace [a; b] [a; dash; b] s) < camels s
  | None => dash_camels s = s
  end.
Proof.
  induction s as [|x s IH]; [done|].
  cbn [exec]. unfold CAMELS at 1.
  destruct s as [|y s]; [done|].
  destruct (is_lower x && is_upper y) eqn:E.
  - apply andb_true_iff in E as [Hx Hy].
    change (x :: y :: s) with ([x; y] ++ s)%list. rewrite replace_here. cbn [app].
    cbn [dash_camels camels]. rewrite Hx, Hy. simpl.
    split; [done|]. lia.
  - destruct (exec CAMELS (y :: s)) as [[a b]|] eqn:He.
    + destruct IH as (Hd & Hn).
      destruct (exec_CAMELS_Some _ _ _ He) as [Ha Hb].
      pose proof (replace_CAMELS_head a b (y :: s) Ha) as Hh.
      rewrite replace_skip.
      2:{ intros [k Hk]. simpl in Hk. simplify_eq. by rewrite Ha, Hb in E. }
      destruct (replace [a; b] [a; dash; b] (y :: s)) as [|y' s'] eqn:Hr; [done|].
      simpl in Hh. simplify_eq.
      cbn [dash_camels camels] in *. rewrite E. rewrite Hd. split; [done|]. lia.
    + cbn [dash_camels] in *. by rewrite E, IH.
Qed.

Lemma CAMELS_loop_spec fuel s :
  camels s < fuel -> CAMELS_loop fuel s = Some (dash_camels s).
Proof.
  revert s. induction fuel as [|fuel IH]; intros s Hf; [lia|]. simpl.
  pose proof (CAMELS_step s) as Hs.
  destruct (exec CAMELS s) as [[a b]|].
  - destruct Hs as (Hd & Hn). rewrite IH by lia. by rewrite Hd.
  - by rewrite Hs.
Qed.

Lemma spaces_length s : spaces s <= length s.
Proof. unfold spaces. pose proof (filter_length is_space s). lia. Qed.

Lemma camels_length s : camels s <= length s.
Proof.
  induction s as [|a s IH]; simpl; [done|]. destruct s as [|b s]; [lia|].
  destruct (_ && _); simpl in *; lia.
Qed.

(** [kebabCase] returns, and what it returns is what one pass gives. *)
Lemma kebabCase_chars_spec s : kebabCase_chars s = Some (kebab s).
Proof.
  unfold kebabCase_chars, kebab. destruct s as [|c s]; [done|].
  cbv zeta. rewrite SPACES_loop_spec by (pose proof (spaces_length (trim (c :: s))); lia).
  rewrite CAMELS_loop_spec
    by (pose proof (camels_length (dash_spaces (trim (c :: s)))); lia).
  by destruct (dash_camels _).
Qed.

Lemma all_chars (P : ascii -> Prop) :
  (forall b0 b1 b2 b3 b4 b5 b6 b7 : bool, P (Ascii b0 b1 b2 b3 b4 b5 b6 b7)) ->
  forall c, P c.
Proof. intros H []. apply H. Qed.

Lemma toLowerCase_char_kebab c :
  has_lower_case (toLowerCase_char c) = false
  /\ is_space (toLowerCase_char c) = is_space c.
Proof.
  revert c. apply all_chars. intros [] [] [] [] [] [] [] []; vm_compute; done.
Qed.

Lemma kebab_char_fixed c : has_lower_case c = false -> toLowerCase_char c = c.
Proof. unfold toLowerCase_char. by intros ->. Qed.

Lemma has_lower_case_upper c : has_lower_case c = false -> is_upper c = false.
Proof. unfold has_lower_case. by intros [? _]%orb_false_iff. Qed.

Lemma drop_while_none p s : Forall (fun c => p c = false) s -> drop_while p s = s.
Proof. destruct 1 as [|c s Hc _]; simpl; [done|]. by rewrite Hc. Qed.

Lemma trim_fixed s : Forall (fun c => is_space c = false) s -> trim s = s.
Proof.
  intros H. unfold trim. rewrite (drop_while_none _ _ H).
  rewrite drop_while_none; [apply reverse_involutive|]. by apply Forall_reverse.
Qed.

Lemma dash_spaces_fixed s : Forall (fun c => is_space c = false) s -> dash_spaces s = s.
Proof. induction 1 as [|c s Hc _ IH]; simpl; [done|]. by rewrite Hc, IH. Qed.

Lemma dash_camels_fixed s : Forall (fun c => is_upper c = false) s -> dash_camels s = s.
Proof.
  induction 1 as [|c s Hc Hs IH]; [done|]. cbn [dash_camels]. destruct s as [|d s]; [done|].
  apply Forall_cons in Hs as [Hd _]. rewrite Hd, andb_false_r. by rewrite IH.
Qed.

Lemma toLowerCase_fixed s : Forall (fun c => has_lower_case c = false) s -> toLowerCase s = s.
Proof.
  induction 1 as [|c s Hc _ IH]; [done|]. unfold toLowerCase in *. simpl.
  by rewrite (kebab_char_fixed c Hc), IH.
Qed.

(** A kebab-cased string is left as it is. *)
Lemma kebab_fixed s : Forall (fun c => kebab_char c = true) s -> kebab s = s.
Proof.
  intros H. unfold kebab.
  assert (Hs : Forall (fun c => is_space c = false) s).
  { eapply Forall_impl; [exact H|]. intros c [Hc _]%andb_true_iff. by apply negb_true_iff. }
  assert (Hl : Forall (fun c => has_lower_case c = false) s).
  { eapply Forall_impl; [exact H|]. intros c [_ Hc]%andb_true_iff. by apply negb_true_iff. }
  rewrite (trim_fixed s Hs), (dash_spaces_fixed s Hs).
  rewrite dash_camels_fixed by (eapply Forall_impl; [exact Hl|]; apply has_lower_case_upper).
  by apply toLowerCase_fixed.
Qed.

Lemma ends_well_cons a s : s <> [] -> ends_well (a :: s) -> ends_well s.
Proof. unfold ends_well. destruct s as [|b s]; [done|]. by rewrite last_cons_cons. Qed.

Lemma ends_well_drop_while s : s <> [] -> ends_well s -> drop_while is_space s <> [].
Proof.
  unfold ends_well. induction s as [|a s IH]; [done|]. intros _ H. simpl.
  destruct (is_space a) eqn:Ha; [|done].
  destruct s as [|b s]; [simpl in H; congruence|].
  apply IH; [done|]. by rewrite last_cons_cons in H.
Qed.

Lemma dash_spaces_no_space s :
  ends_well s -> Forall (fun c => is_space c = false) (dash_spaces s).
Proof.
  induction s as [|a s IH]; intros He; [done|]. cbn [dash_spaces].
  destruct s as [|b s].
  - unfold ends_well in He. simpl in He. rewrite He. by constructor.
  - pose proof (ends_well_cons a (b :: s) ltac:(done) He) as He'.
    destruct (is_space a) eqn:Ha.
    + pose proof (ends_well_drop_while (b :: s) ltac:(done) He') as Hd.
      destruct (drop_while is_space (b :: s)); [done|].
      destruct (is_space b); [by apply IH|]. constructor; [done | by apply IH].
    + constructor; [done | by apply IH].
Qed.

Lemma trim_ends_well s : ends_well (trim s).
Proof.
  unfold ends_well, trim. rewrite last_reverse.
  destruct (drop_while is_space (reverse _)) as [|c r] eqn:E; [done|]. simpl.
  by apply drop_while_head in E.
Qed.

Lemma dash_camels_chars (P : ascii -> Prop) s :
  P dash -> Forall P s -> Forall P (dash_camels s).
Proof.
  intros Hd. induction 1 as [|c s Hc Hs IH]; [done|]. cbn [dash_camels].
  destruct s as [|d s]; [by constructor|].
  destruct (_ && _); repeat constructor; done.
Qed.

Lemma kebab_chars s : Forall (fun c => kebab_char c = true) (kebab s).
Proof.
  unfold kebab, toLowerCase. apply Forall_fmap.
  pose proof (dash_camels_chars (fun c => is_space c = false) _ eq_refl
                (dash_spaces_no_space _ (trim_ends_well s))) as H.
  eapply Forall_impl; [exact H|]. intros c Hc. simpl. unfold kebab_char.
  destruct (toLowerCase_char_kebab c) as [-> ->]. by rewrite Hc.
Qed.

(** X13. [kebabCase] returns for every string: its two loops end, and the
    result is the trimmed string with a dash for every run of white space,
    a dash between every small letter and the capital after it, in lower
    case. *)
Theorem kebabCase_in_one_pass (s : string) :
  kebabCase s = Some (String.string_of_list_ascii (kebab (String.list_ascii_of_string s))).
Proof. unfold kebabCase. by rewrite kebabCase_chars_spec. Qed.

(** X14. What [kebabCase] returns holds no white space and no capital, and
    [kebabCase] leaves it as it is. *)
Theorem kebabCase_idempotent (s : string) :
  exists r, kebabCase s = Some r
    /\ Forall (fun c => kebab_char c = true) (String.list_ascii_of_string r)
    /\ kebabCase r = Some r.
Proof.
  unfold kebabCase. rewrite kebabCase_chars_spec. eexists. split; [reflexivity|].
  rewrite String.list_ascii_of_string_of_list_ascii. split; [apply kebab_chars|].
  by rewrite kebabCase_chars_spec, (kebab_fixed _ (kebab_chars _)).
Qed.

Lemma attribute_char_facts c :
  (is_word c || bool_decide (c = dash) = true -> is_space c = false)
  /\ (is_word c || bool_decide (c = dash) = true -> attribute_char (toLowerCase_char c) = true).
Proof.
  revert c. apply all_chars. intros [] [] [] [] [] [] [] []; vm_compute; done.
Qed.

Lemma dash_nonwords_chars s :
  Forall (fun c => is_word c || bool_decide (c = dash) = true) (dash_nonwords s).
Proof.
  induction s as [|c s IH]; [done|]. cbn [dash_nonwords].
  destruct (is_word c) eqn:Hc.
  - constructor; [by rewrite Hc | done].
  - destruct s as [|d s]; [by repeat constructor|].
    destruct (is_word d); [|done]. by constructor.
Qed.

Lemma strip_dash_chars (P : ascii -> Prop) s : Forall P s -> Forall P (strip_dash s).
Proof.
  intros H. unfold strip_dash. destruct (reverse s) as [|c r] eqn:E; [done|].
  case_bool_decide; [|done]. apply Forall_reverse.
  apply Forall_reverse in H. rewrite E in H. by apply Forall_cons in H as [_ ?].
Qed.

Lemma encodeAttribute_chars_spec value :
  exists name, encodeAttribute_chars value = Some name
    /\ Forall (fun c => attribute_char c = true) name.
Proof.
  unfold encodeAttribute_chars. rewrite kebabCase_chars_spec. eexists. split; [done|].
  set (w := strip_dash (dash_nonwords value)).
  assert (Hw : Forall (fun c => is_word c || bool_decide (c = dash) = true) w)
    by apply strip_dash_chars, dash_nonwords_chars.
  assert (Hs : Forall (fun c => is_space c = false) w).
  { eapply Forall_impl; [exact Hw|]. intros c. apply attribute_char_facts. }
  unfold kebab. rewrite (trim_fixed w Hs), (dash_spaces_fixed w Hs).
  unfold toLowerCase. apply Forall_fmap.
  pose proof (dash_camels_chars (fun c => is_word c || bool_decide (c = dash) = true) w
                eq_refl Hw) as H.
  eapply Forall_impl; [exact H|]. intros c. apply attribute_char_facts.
Qed.

(** X15. [createAttributeName] returns for every key: the kebab-cased key for a
    string, and for a number or a symbol [attr-] followed by small letters,
    digits, underscores and dashes only. *)
Theorem createAttributeName_shape (description : nat -> string) (propertyKey : PropertyKey) :
  exists name,
    createAttributeName description propertyKey = Some name
    /\ match propertyKey with
       | KString s => kebabCase s = Some name
       | _ => exists encoded,
                name = "attr-" ++ encoded
                /\ encodeAttribute (String_of_key description propertyKey) = Some encoded
                /\ Forall (fun c => attribute_char c = true)
                     (String.list_ascii_of_string encoded)
       end.
Proof.
  assert (H : forall value, exists encoded,
            encodeAttribute value = Some encoded
            /\ Forall (fun c => attribute_char c = true) (String.list_ascii_of_string encoded)).
  { intros value. unfold encodeAttribute.
    destruct (encodeAttribute_chars_spec (String.list_ascii_of_string value)) as (n & -> & Hn).
    eexists. split; [done|]. by rewrite String.list_ascii_of_string_of_list_ascii. }
  destruct propertyKey as [s|z|id]; simpl.
  - unfold kebabCase. rewrite kebabCase_chars_spec. by eexists.
  - destruct (H (pretty z)) as (encoded & E & Ha). rewrite E. simpl.
    eexists. split; [done|]. by exists encoded.
  - destruct (H ("Symbol(" ++ description id ++ ")")) as (encoded & E & Ha).
    rewrite E. simpl. eexists. split; [done|]. by exists encoded.
Qed.

Lemma string_app_empty (s : string) : s ++ "" = s.
Proof.
  induction s as [|c s IH]; [reflexivity|].
  change (String c (s ++ "") = String c s). by rewrite IH.
Qed.

(** X16. [createEventName] returns for every key.  With no prefix and no
    suffix the name is the kebab-cased or encoded key; the empty prefix
    [_notifyProperty] passes adds no dash, so the event of a property is
    [<name>-changed], and that of a lifecycle is [on-<name>]. *)
Theorem createEventName_parts (description : nat -> string) (propertyKey : PropertyKey) :
  exists propertyString,
    match propertyKey with
    | KString s => kebabCase s
    | _ => encodeAttribute (String_of_key description propertyKey)
    end = Some propertyString
    /\ createEventName description propertyKey None None = Some propertyString
    /\ createEventName description propertyKey (Some "") (Some "changed")
       = Some (propertyString ++ "-changed")
    /\ createEventName description propertyKey (Some "on") None
       = Some ("on-" ++ propertyString).
Proof.
  assert (H : exists propertyString,
            match propertyKey with
            | KString s => kebabCase s
            | _ => encodeAttribute (String_of_key description propertyKey)
            end = Some propertyString).
  { destruct propertyKey as [s|z|id]; unfold encodeAttribute, kebabCase.
    - rewrite kebabCase_chars_spec. by eexists.
    - destruct (encodeAttribute_chars_spec (String.list_ascii_of_string
                  (String_of_key description (KNumber z)))) as (n & -> & _). by eexists.
    - destruct (encodeAttribute_chars_spec (String.list_ascii_of_string
                  (String_of_key description (KSymbol id)))) as (n & -> & _). by eexists. }
  destruct H as (propertyString & E). exists propertyString. split; [exact E|].
  unfold createEventName. rewrite E.
  change (kebabCase "changed") with (Some "changed").
  change (kebabCase "on") with (Some "on"). simpl.
  by rewrite string_app_empty.
Qed.

Lemma alternating_snoc first n :
  alternating first (S n)
  = (alternating first n
     ++ [if Nat.even n then first
         else match first with Focusin => Focusout | Focusout => Focusin end])%list.
Proof.
  revert first. induction n as [|n IH]; intros first; [done|].
  change (alternating first (S (S n))) with
    (first :: alternating (match first with Focusin => Focusout | Focusout => Focusin end) (S n)).
  rewrite IH. cbn [alternating app]. f_equal. f_equal. f_equal.
  rewrite Nat.even_succ, <- Nat.negb_even. destruct (Nat.even n), first; done.
Qed.

Lemma focus_monitor_step contains m input :
  (dispatched m).*1 = alternating Focusin (length (dispatched m)) ->
  hasFocus m = Nat.odd (length (dispatched m)) ->
  let m' := handle contains m input in
  (dispatched m').*1 = alternating Focusin (length (dispatched m'))
  /\ hasFocus m' = Nat.odd (length (dispatched m')).
Proof.
  intros Ha Hf. cbv zeta. destruct input as [event|event]; simpl.
  - unfold handleFocusIn. destruct (hasFocus m) eqn:E; simpl; [split; congruence|].
    rewrite length_app, fmap_app, Nat.add_1_r, alternating_snoc, <- Ha. simpl.
    rewrite Nat.odd_succ, <- Nat.negb_odd, <- Hf. done.
  - unfold handleFocusOut.
    assert (exists b, match relatedTarget event with
                      | Some node => contains node
                      | None => false
                      end = b) as [[] ->] by eauto; [done|].
    destruct (hasFocus m) eqn:E; simpl; [|split; congruence].
    rewrite length_app, fmap_app, Nat.add_1_r, alternating_snoc, <- Ha. simpl.
    rewrite Nat.odd_succ, <- Nat.negb_odd, <- Hf. done.
Qed.

(** X17. The monitor reports the focus coming and going by turns, beginning with
    its coming, whatever focus events reach it; [hasFocus] tells which was
    reported last. *)
Theorem focus_changes_alternate (contains : nat -> bool) (inputs : list FocusInput) :
  let m := monitored contains inputs in
  (dispatched m).*1 = alternating Focusin (length (dispatched m))
  /\ hasFocus m = Nat.odd (length (dispatched m))
  /\ length (dispatched m) <= length inputs.
Proof.
  unfold monitored.
  assert (H : forall m0,
            (dispatched m0).*1 = alternating Focusin (length (dispatched m0)) ->
            hasFocus m0 = Nat.odd (length (dispatched m0)) ->
            let m := fold_left (handle contains) inputs m0 in
            (dispatched m).*1 = alternating Focusin (length (dispatched m))
            /\ hasFocus m = Nat.odd (length (dispatched m))
            /\ length (dispatched m) <= length (dispatched m0) + length inputs).
  { induction inputs as [|input inputs IH]; intros m0 Ha Hf; simpl; [split; [done|split; [done|lia]]|].
    destruct (focus_monitor_step contains m0 input Ha Hf) as [Ha' Hf'].
    destruct (IH _ Ha' Hf') as (A & F & L). split; [done|]. split; [done|].
    assert (length (dispatched (handle contains m0 input)) <= S (length (dispatched m0))); [|lia].
    destruct input as [event|event]; simpl.
    - unfold handleFocusIn. destruct (negb _); simpl; rewrite ?length_app; simpl; lia.
    - unfold handleFocusOut. repeat case_match; simpl; rewrite ?length_app; simpl; lia. }
  apply (H monitor); done.
Qed.

Lemma getParentOverlay_loop_absent overlay parent active :
  overlay ∉ active -> getParentOverlay_loop overlay parent active = None.
Proof.
  revert parent. induction active as [|current rest IH]; intros parent Hn; simpl; [done|].
  apply not_elem_of_cons in Hn as [Hne Hn].
  rewrite bool_decide_eq_false_2 by done. by apply IH.
Qed.

Lemma getParentOverlay_loop_found overlay parent before after :
  overlay ∉ before ->
  getParentOverlay_loop overlay parent (before ++ overlay :: after)
  = match last before with Some p => Some p | None => parent end.
Proof.
  revert parent. induction before as [|current rest IH]; intros parent Hn; simpl.
  - by rewrite bool_decide_eq_true_2.
  - apply not_elem_of_cons in Hn as [Hne Hn].
    rewrite bool_decide_eq_false_2 by done. rewrite IH by done.
    rewrite last_cons. by destruct (last rest).
Qed.

Lemma isOverlayActive_loop_absent focused registry overlay active :
  overlay ∉ active -> isOverlayActive_loop focused registry overlay false active = inr false.
Proof.
  induction active as [|current rest IH]; intros Hn; simpl; [done|].
  apply not_elem_of_cons in Hn as [Hne Hn].
  rewrite bool_decide_eq_false_2 by done. by apply IH.
Qed.

Lemma isOverlayActive_loop_found focused registry overlay active :
  Forall (fun c => c ∈ registeredOverlays registry) active ->
  isOverlayActive_loop focused registry overlay true active = inr (existsb focused active).
Proof.
  induction 1 as [|current rest Hc _ IH]; simpl; [done|].
  unfold isOverlayFocused, isOverlayRegistered. rewrite bool_decide_eq_true_2 by done. simpl.
  destruct (focused current); [done|]. exact IH.
Qed.

(** X18. The parent of an overlay is the active overlay just before it; the
    first active overlay and an overlay that is not active have none, nor has
    one that is closed or not stacked; an overlay that is not registered is
    refused. *)
Theorem getParentOverlay_is_the_one_before (stacked open : nat -> bool)
    (registry : OverlayRegistry) (overlay : nat) :
  (overlay ∉ registeredOverlays registry ->
     getParentOverlay stacked open registry overlay = inl (NOT_REGISTERED_ERROR overlay))
  /\ (overlay ∈ registeredOverlays registry ->
      (stacked overlay && open overlay = false ->
         getParentOverlay stacked open registry overlay = inr None)
      /\ (stacked overlay && open overlay = true ->
          (overlay ∉ activeOverlays registry ->
             getParentOverlay stacked open registry overlay = inr None)
          /\ (forall before after,
                activeOverlays registry = (before ++ overlay :: after)%list ->
                overlay ∉ before ->
                getParentOverlay stacked open registry overlay = inr (last before)))).
Proof.
  unfold getParentOverlay, isOverlayRegistered. split.
  - intros Hn. by rewrite bool_decide_eq_false_2.
  - intros Hr. rewrite bool_decide_eq_true_2 by done. simpl. split; [by intros ->|].
    intros ->. split.
    + intros Hn. by rewrite getParentOverlay_loop_absent.
    + intros before after -> Hn. rewrite getParentOverlay_loop_found by done.
      by destruct (last before).
Qed.

(** X19. An overlay that is registered, stacked and open is active when
    it, or an active overlay after it, has the focus; one that is not among
    the active overlays is not active. *)
Theorem isOverlayActive_from_the_overlay_on (stacked open focused : nat -> bool)
    (registry : OverlayRegistry) (overlay : nat) :
  overlay ∈ registeredOverlays registry ->
  stacked overlay && open overlay = true ->
  (overlay ∉ activeOverlays registry ->
     isOverlayActive stacked open focused registry overlay = inr false)
  /\ (forall before after,
        activeOverlays registry = (before ++ overlay :: after)%list ->
        overlay ∉ before ->
        Forall (fun c => c ∈ registeredOverlays registry) after ->
        isOverlayActive stacked open focused registry overlay
        = inr (existsb focused (overlay :: after))).
Proof.
  intros Hr Hs. unfold isOverlayActive, isOverlayRegistered.
  rewrite bool_decide_eq_true_2 by done. simpl. rewrite Hs. split.
  - apply isOverlayActive_loop_absent.
  - intros before after -> Hn Ha.
    induction before as [|current rest IH]; simpl.
    + rewrite bool_decide_eq_true_2 by done.
      unfold isOverlayFocused, isOverlayRegistered. rewrite bool_decide_eq_true_2 by done.
      simpl. destruct (focused overlay); [done|]. by apply isOverlayActive_loop_found.
    + apply not_elem_of_cons in Hn as [Hne Hn].
      rewrite bool_decide_eq_false_2 by done. by apply IH.
Qed.

Lemma getParentOverlay_is_the_one_before_witness :
  let registry := {| registeredOverlays := [1; 2; 3]; activeOverlays := [1; 2; 3] |} in
  getParentOverlay (fun _ => true) (fun _ => true) registry 3 = inr (Some 2)
  /\ getParentOverlay (fun _ => true) (fun _ => true) registry 1 = inr None
  /\ getParentOverlay (fun _ => true) (fun _ => true) registry 4 = inl (NOT_REGISTERED_ERROR 4).
Proof.
  intros registry.
  destruct (getParentOverlay_is_the_one_before (fun _ => true) (fun _ => true) registry 3)
    as [_ H3].
  destruct (H3 ltac:(apply (bool_decide_unpack _); exact I)) as [_ H3'].
  destruct (H3' eq_refl) as [_ H3''].
  destruct (getParentOverlay_is_the_one_before (fun _ => true) (fun _ => true) registry 1)
    as [_ H1].
  destruct (H1 ltac:(apply (bool_decide_unpack _); exact I)) as [_ H1'].
  destruct (H1' eq_refl) as [_ H1''].
  destruct (getParentOverlay_is_the_one_before (fun _ => true) (fun _ => true) registry 4)
    as [H4 _].
  split; [|split].
  - exact (H3'' [1; 2] [] eq_refl ltac:(apply (bool_decide_unpack _); exact I)).
  - exact (H1'' [] [2; 3] eq_refl ltac:(apply (bool_decide_unpack _); exact I)).
  - exact (H4 ltac:(apply (bool_decide_unpack _); exact I)).
Defined.

Lemma isOverlayActive_from_the_overlay_on_witness :
  let registry := {| registeredOverlays := [1; 2; 3]; activeOverlays := [1; 2; 3] |} in
  isOverlayActive (fun _ => true) (fun _ => true) (fun o => bool_decide (o = 3)) registry 2
    = inr true
  /\ isOverlayActive (fun _ => true) (fun _ => true) (fun o => bool_decide (o = 1)) registry 2
     = inr false.
Proof.
  intros registry. split.
  - destruct (isOverlayActive_from_the_overlay_on (fun _ => true) (fun _ => true)
                (fun o => bool_decide (o = 3)) registry 2
                ltac:(apply (bool_decide_unpack _); exact I) eq_refl) as [_ H].
    exact (H [1] [3] eq_refl ltac:(apply (bool_decide_unpack _); exact I)
             ltac:(apply (bool_decide_unpack _); exact I)).
  - destruct (isOverlayActive_from_the_overlay_on (fun _ => true) (fun _ => true)
                (fun o => bool_decide (o = 1)) registry 2
                ltac:(apply (bool_decide_unpack _); exact I) eq_refl) as [_ H].
    exact (H [1] [3] eq_refl ltac:(apply (bool_decide_unpack _); exact I)
             ltac:(apply (bool_decide_unpack _); exact I)).
Defined.
